(** * Isolation-forest anomaly detector (if-service): model and properties

    Shallow embedding of the Go sources
    - [internal/iforest]  : [averagePathLength], [fitTree], [New],
                            [pathLength], [pathLenTree], [Score]
    - [main] of if-service: [sane], [logAnomalyEvents], the extraction loop
                            of [fetchAllRPS], [detectAnomalies], [meanStd], [min];
                            the loops of [fetchAllErrorRate], [fetchRPS] and
                            [fetchErrorRate], [fetchServices], and in [main]
                            the discovery loop run at start-up and the bodies
                            of the two handlers

    Go's [float64] is IEEE-754 binary64; it is modelled by [spec_float] with
    precision 53 and maximal exponent 1024, so that every arithmetic
    operation below rounds exactly as the compiled program does (round to
    nearest, ties to even, one rounding per operation, as on amd64 where
    the compiler does not fuse a multiplication with an addition).  NaN
    payloads are not distinguished.  Go's [int] is modelled by [Z]; all the
    integers that occur are slice lengths, tree depths and indices, far
    from the 64-bit bounds.  The functions of the Go standard library that
    the program calls ([math.Pow], [sort.Slice], [sort.Strings],
    [json.Unmarshal], [fmt.Sscan], the source of [math/rand]) and the order
    in which a [range] visits a map are parameters of the model. *)

From Stdlib Require Import String.
From Stdlib Require Import ZArith List Bool Lia SpecFloat.
From Stdlib Require Import Permutation Sorted.
Import ListNotations.
Local Open Scope Z_scope.

(** ** binary64 arithmetic *)

Module F64.

Definition prec : Z := 53.
Definition emax : Z := 1024.

Definition float64 : Type := spec_float.

Definition add : float64 -> float64 -> float64 := SFadd prec emax.
Definition sub : float64 -> float64 -> float64 := SFsub prec emax.
Definition mul : float64 -> float64 -> float64 := SFmul prec emax.
Definition div : float64 -> float64 -> float64 := SFdiv prec emax.
Definition sqrt : float64 -> float64 := SFsqrt prec emax.
Definition neg : float64 -> float64 := SFopp.

(** Go comparison operators on float64: every comparison with a NaN
    operand is false, and the two zeros are equal. *)
Definition ltb (x y : float64) : bool := SFltb x y.
Definition leb (x y : float64) : bool := SFleb x y.
Definition eqb (x y : float64) : bool := SFeqb x y.
Definition gtb (x y : float64) : bool := SFltb y x.
Definition geb (x y : float64) : bool := SFleb y x.

(** The conversion [float64(n)] of an integer. *)
Definition of_int (n : Z) : float64 := binary_normalize prec emax n 0 false.

Definition zero : float64 := S754_zero false.
Definition one : float64 := S754_finite false 4503599627370496 (-52).
Definition two : float64 := S754_finite false 4503599627370496 (-51).
Definition nan : float64 := S754_nan.
Definition pinf : float64 := S754_infinity false.
Definition ninf : float64 := S754_infinity true.

(** [math.IsNaN] and [math.IsInf(v, 0)]. *)
Definition IsNaN (v : float64) : bool :=
  match v with S754_nan => true | _ => false end.
Definition IsInf (v : float64) : bool :=
  match v with S754_infinity _ => true | _ => false end.

(** The conversion [int64(f)]: truncation toward zero.  For NaN, the
    infinities and values outside the int64 range the Go specification
    leaves the result to the implementation; amd64 yields [-2^63]. *)
Definition to_int64 (f : float64) : Z :=
  match f with
  | S754_zero _ => 0
  | S754_finite s m e =>
      let a := if 0 <=? e then Z.shiftl (Zpos m) e else Z.shiftr (Zpos m) (- e) in
      let v := if s then - a else a in
      if (- 2 ^ 63 <=? v) && (v <? 2 ^ 63) then v else - 2 ^ 63
  | _ => - 2 ^ 63
  end.

End F64.

Import F64.

Declare Scope f64_scope.
Delimit Scope f64_scope with f64.
Infix "+" := add : f64_scope.
Infix "-" := sub : f64_scope.
Infix "*" := mul : f64_scope.
Infix "/" := div : f64_scope.
Notation "- x" := (neg x) : f64_scope.
Infix "<?" := ltb : f64_scope.
Infix "<=?" := leb : f64_scope.
Infix "=?" := eqb : f64_scope.
Infix ">?" := gtb : f64_scope.
Infix ">=?" := geb : f64_scope.

(** Decimal constants of the program, rounded to binary64 as the Go
    compiler does. *)
Module Const.
(** [1e-9] = 0x1.12e0be826d695p-30 *)
Definition c1e_9 : float64 := S754_finite false 4835703278458517 (-82).
(** [0.6] = 0x1.3333333333333p-1, the default event threshold *)
Definition c0_6 : float64 := S754_finite false 5404319552844595 (-53).
(** [0.9] = 0x1.ccccccccccccdp-1 *)
Definition c0_9 : float64 := S754_finite false 8106479329266893 (-53).
(** [0.3] = 0x1.3333333333333p-2 *)
Definition c0_3 : float64 := S754_finite false 5404319552844595 (-54).
(** [0.7] = 0x1.6666666666666p-1 *)
Definition c0_7 : float64 := S754_finite false 6305039478318694 (-53).
(** [3.5] *)
Definition c3_5 : float64 := S754_finite false 7881299347898368 (-51).
(** [0.5] *)
Definition c0_5 : float64 := S754_finite false 4503599627370496 (-53).
(** the largest float64 below 1, [1 - 2^-53] = 0x1.fffffffffffffp-1 *)
Definition pred_one : float64 := S754_finite false 9007199254740991 (-53).
(** [math.MaxFloat64] = 0x1.fffffffffffffp1023 *)
Definition MaxFloat64 : float64 := S754_finite false 9007199254740991 971.
End Const.

(** ** Slices *)

(** [len(s)] as a Go [int]. *)
Definition len {A : Type} (s : list A) : Z := Z.of_nat (length s).

(** [s[i]] for an index already checked to be in range. *)
Definition index {A : Type} (d : A) (s : list A) (i : Z) : A :=
  nth (Z.to_nat i) s d.

(** ** Sanitizer *)

(** [func sane(v float64) (float64, bool)] *)
Definition sane (v : float64) : float64 * bool :=
  if IsNaN v || IsInf v then (zero, false) else (v, true).

(** A decoded JSON value, as [encoding/json] stores it in an [interface{}]. *)
#[local] Set Warnings "-register-all".
Inductive jvalue : Type :=
| JNull
| JBool (b : bool)
| JNumber (f : float64)
| JString (s : string)
| JArray (l : list jvalue)
| JObject (l : list (string * jvalue)).

(** [sec, _ := v.(float64)] and [str, _ := v.(string)]: a failed type
    assertion in the two-result form yields the zero value. *)
Definition assert_float64 (v : jvalue) : float64 :=
  match v with JNumber f => f | _ => zero end.
Definition assert_string (v : jvalue) : string :=
  match v with JString s => s | _ => EmptyString end.

Section Extraction.

(** [var f float64; fmt.Sscan(str, &f)]: the value left in [f] after the
    scan (0 when the scan fails; the error is discarded by the caller).
    The scanner accepts "NaN" and "Inf", hence the call to [sane]. *)
Variable Sscan : string -> float64.

(** One iteration of the inner loop of [fetchAllRPS] (and of
    [fetchAllErrorRate], which has the same body): [vals] and [ts] are
    the two slices being appended to; timestamps are Unix seconds. *)
Definition extractStep (acc : list float64 * list Z) (v : list jvalue)
  : list float64 * list Z :=
  let '(vals, ts) := acc in
  if negb (len v =? 2) then acc
  else
    let sec := assert_float64 (index JNull v 0) in
    let str := assert_string (index JNull v 1) in
    let f := Sscan str in
    let vals' :=
      match sane f with
      | (fv, true) => vals ++ [fv]
      | (_, false) => vals ++ [zero]
      end in
    (vals', ts ++ [to_int64 sec]).

(** The inner loop over [s.Values]. *)
Definition extractSeries (values : list (list jvalue)) : list float64 * list Z :=
  fold_left extractStep values ([], []).

(** The outer loop: one pair of slices per series. *)
Definition extractAll (series : list (list (list jvalue)))
  : list (list float64) * list (list Z) :=
  (map (fun s => fst (extractSeries s)) series,
   map (fun s => snd (extractSeries s)) series).

(** What the specification says a pair contributes. *)
Definition wellFormed (v : list jvalue) : bool := len v =? 2.
Definition malformedCount (values : list (list jvalue)) : Z :=
  len (filter (fun v => negb (wellFormed v)) values).
Definition sanitizedValue (v : list jvalue) : float64 :=
  let f := Sscan (assert_string (index JNull v 1)) in
  if IsNaN f || IsInf f then zero else f.
Definition timestampOf (v : list jvalue) : Z :=
  to_int64 (assert_float64 (index JNull v 0)).

End Extraction.

(** ** Event reporter *)

Local Open Scope string_scope.

(** The line written by
    [log.Printf("anomaly detected: service=%s metric=%s", serviceName, metric)]. *)
Definition eventLine (serviceName metric : string) : string :=
  "anomaly detected: service=" ++ serviceName ++ " metric=" ++ metric.

Local Close Scope string_scope.

(** The guard of the loop body of [logAnomalyEvents]. *)
Definition fires (scores : list float64) (threshold : float64) (i : Z) : bool :=
  (0 <=? i) && (i <? len scores) && (index zero scores i >=? threshold)%f64.

(** [func logAnomalyEvents(serviceName, metric string, topIdx []int,
    scores []float64, threshold float64)]; the log is threaded as the list
    of lines written so far. *)
Definition logAnomalyEvents (serviceName metric : string) (topIdx : list Z)
    (scores : list float64) (threshold : float64) (log : list string) : list string :=
  fold_left
    (fun log i =>
       if fires scores threshold i
       then log ++ [eventLine serviceName metric]
       else log)
    topIdx log.

(** ** Isolation forest: normalisation constant *)

(** The loop [for i := 1; i < n; i++ { h += 1.0 / float64(i) }] run for
    the counter values [i, i+1, ..., i+k-1]. *)
Fixpoint harmonicLoop (k : nat) (i : Z) (h : float64) : float64 :=
  match k with
  | O => h
  | S k' => harmonicLoop k' (i + 1) (h + one / of_int i)%f64
  end.

(** [func averagePathLength(n int) float64] *)
Definition averagePathLength (n : Z) : float64 :=
  if n <=? 1 then zero
  else
    let h := harmonicLoop (Z.to_nat (n - 1)) 1 zero in
    (two * h - two * of_int (n - 1) / of_int n)%f64.

(** The harmonic number of the specification, [H(0) = 0] and
    [H(m) = H(m-1) + 1/m], summed in increasing order of [i]. *)
Fixpoint H (m : nat) : float64 :=
  match m with
  | O => zero
  | S k => (H k + one / of_int (Z.of_nat (S k)))%f64
  end.

(** ** Outcomes of a call *)

(** A Go call either returns, or panics (negative [make] length, slice
    bound out of range, [rand.Intn] of a non-positive bound).  [OutOfFuel]
    is the model's third outcome: the recursion budget given to
    [fitTreeFuel] was exhausted before the call returned. *)
Inductive result (A : Type) : Type :=
| Ok (a : A)
| Panic
| OutOfFuel.
Arguments Ok {A} a.
Arguments Panic {A}.
Arguments OutOfFuel {A}.

Definition bind {A B : Type} (r : result A) (k : A -> result B) : result B :=
  match r with
  | Ok a => k a
  | Panic => Panic
  | OutOfFuel => OutOfFuel
  end.

Notation "' pat <- r ;; k" :=
  (bind r (fun x => match x with pat => k end))
  (at level 61, pat pattern, r at next level, right associativity).

(** ** The random source *)

(** The package-level source of [math/rand] is shared by all calls.  It is
    modelled by its future outcomes: the [i]-th call made on the source
    returns [floatAt i] when it is [rand.Float64()] and [intAt i mod n]
    when it is [rand.Intn(n)].  Quantifying over [Rand] quantifies over
    every outcome of the random source. *)
Record Rand : Type := mkRand {
  floatAt : nat -> float64;
  intAt : nat -> Z;
  pos : nat
}.

Definition advance (g : Rand) : Rand :=
  mkRand (floatAt g) (intAt g) (S (pos g)).

(** [rand.Float64()] *)
Definition Float64 (g : Rand) : float64 * Rand :=
  (floatAt g (pos g), advance g).

(** [rand.Intn(n)]; it panics when [n <= 0]. *)
Definition Intn (n : Z) (g : Rand) : result (Z * Rand) :=
  if n <=? 0 then Panic else Ok (intAt g (pos g) mod n, advance g).

(** [rand.Float64] returns a binary64 number in the half-open interval
    [0.0, 1.0). *)
Definition unitInterval (r : float64) : Prop :=
  valid_binary prec emax r = true /\
  (zero <=? r)%f64 = true /\ (r <? one)%f64 = true.

(** Every draw of the source is such a number. *)
Definition wfRand (g : Rand) : Prop :=
  forall i, unitInterval (floatAt g i).

(** ** Isolation trees *)

(** [type Tree struct { Split float64; Left, Right *Tree; Leaf bool; Depth int }];
    a nil child pointer is [None]. *)
Inductive Tree : Type := mkTree {
  Split : float64;
  Left : option Tree;
  Right : option Tree;
  Leaf : bool;
  Depth : Z
}.

(** [&Tree{Leaf: true, Depth: depth}] *)
Definition leafAt (depth : Z) : Tree := mkTree zero None None true depth.

(** The first loop of [fitTree]: the running minimum and maximum. *)
Definition minMaxStep (acc : float64 * float64) (v : float64) : float64 * float64 :=
  let '(minV, maxV) := acc in
  let minV := if (v <? minV)%f64 then v else minV in
  let maxV := if (v >? maxV)%f64 then v else maxV in
  (minV, maxV).

Definition minMax (data : list float64) : float64 * float64 :=
  fold_left minMaxStep data (index zero data 0, index zero data 0).

(** The second loop of [fitTree]: the two partitions, in slice order. *)
Definition splitStep (split : float64) (acc : list float64 * list float64)
    (v : float64) : list float64 * list float64 :=
  let '(lft, rgt) := acc in
  if (v <? split)%f64 then (lft ++ [v], rgt) else (lft, rgt ++ [v]).

Definition splitData (split : float64) (data : list float64)
  : list float64 * list float64 :=
  fold_left (splitStep split) data ([], []).

(** [split := minV + rand.Float64()*(maxV-minV)] for the draw [r]. *)
Definition splitPoint (minV maxV r : float64) : float64 :=
  (minV + r * (maxV - minV))%f64.

(** [func fitTree(data []float64, depth, maxDepth int) *Tree], with the
    random source threaded through the calls in evaluation order (the
    draw for the split, then the left subtree, then the right one) and a
    budget [fuel] on the nesting of recursive calls. *)
Fixpoint fitTreeFuel (fuel : nat) (data : list float64) (depth maxDepth : Z)
    (g : Rand) {struct fuel} : result (Tree * Rand) :=
  if (depth >=? maxDepth) || (len data <=? 1) then Ok (leafAt depth, g)
  else
    let '(minV, maxV) := minMax data in
    if (minV =? maxV)%f64 then Ok (leafAt depth, g)
    else
      let '(r, g) := Float64 g in
      let split := splitPoint minV maxV r in
      let '(lft, rgt) := splitData split data in
      match fuel with
      | O => OutOfFuel
      | S fuel' =>
          '(l, g) <- fitTreeFuel fuel' lft (depth + 1) maxDepth g;;
          '(r, g) <- fitTreeFuel fuel' rgt (depth + 1) maxDepth g;;
          Ok (mkTree split (Some l) (Some r) false depth, g)
      end.

(** The call [fitTree(data, depth, maxDepth)]: the budget is the number of
    levels left below [depth]. *)
Definition fitTree (data : list float64) (depth maxDepth : Z) (g : Rand)
  : result (Tree * Rand) :=
  fitTreeFuel (Z.to_nat (maxDepth - depth)) data depth maxDepth g.

(** ** Forests *)

(** [type Forest struct { Trees []*Tree; C float64 }] *)
Record Forest : Type := mkForest {
  Trees : list Tree;
  C : float64
}.

(** [int(math.Ceil(math.Log2(float64(psi))))].  [math.Log2] returns the
    exact exponent on powers of two and, on every other length a slice of
    [float64] can have in memory, a value strictly between two consecutive
    integers, so that the result is the integer [ceil(log2 psi)] for
    [psi >= 1]; for [psi = 0] the conversion of [-Inf] is
    implementation-defined ([-2^63] on amd64 and arm64). *)
Definition maxDepthOf (psi : Z) : Z :=
  if psi <=? 0 then - 2 ^ 63 else Z.log2_up psi.

(** The clamping [if psi <= 0 || psi > len(data) { psi = len(data) }]. *)
Definition clampPsi (data : list float64) (psi : Z) : Z :=
  if (psi <=? 0) || (psi >? len data) then len data else psi.

(** The inner loop of [New]: [subsample[j] = data[rand.Intn(len(data))]]
    for [k] successive values of [j]; [sub] holds the entries already
    written in this round. *)
Fixpoint drawSubsample (k : nat) (data sub : list float64) (g : Rand)
  : result (list float64 * Rand) :=
  match k with
  | O => Ok (sub, g)
  | S k' =>
      '(i, g) <- Intn (len data) g;;
      drawSubsample k' data (sub ++ [index zero data i]) g
  end.

(** The outer loop of [New], for [k] successive trees. *)
Fixpoint growTrees (k : nat) (data : list float64) (psi maxDepth : Z)
    (trees : list Tree) (g : Rand) : result (list Tree * Rand) :=
  match k with
  | O => Ok (trees, g)
  | S k' =>
      '(subsample, g) <- drawSubsample (Z.to_nat psi) data [] g;;
      '(tree, g) <- fitTree subsample 0 maxDepth g;;
      growTrees k' data psi maxDepth (trees ++ [tree]) g
  end.

(** [func New(data []float64, t, psi int) *Forest]; [make([]*Tree, t)]
    panics when [t] is negative. *)
Definition New (data : list float64) (t psi : Z) (g : Rand)
  : result (Forest * Rand) :=
  let psi := clampPsi data psi in
  if t <? 0 then Panic
  else
    let maxDepth := maxDepthOf psi in
    '(trees, g) <- growTrees (Z.to_nat t) data psi maxDepth [] g;;
    Ok (mkForest trees (averagePathLength psi), g).

(** [func pathLenTree(t *Tree, x float64) float64] *)
Fixpoint pathLenTree (t : Tree) (x : float64) {struct t} : float64 :=
  match t with
  | mkTree split lft rgt leaf depth =>
      if leaf then of_int depth
      else
        match lft, rgt with
        | Some l, Some r =>
            if (x <? split)%f64 then pathLenTree l x else pathLenTree r x
        | _, _ => of_int depth
        end
  end.

(** [func (f *Forest) pathLength(x float64) float64] *)
Definition pathLength (f : Forest) (x : float64) : float64 :=
  let pl := fold_left (fun pl t => pl + pathLenTree t x)%f64 (Trees f) zero in
  (pl / of_int (len (Trees f)))%f64.

Section Scoring.

(** [math.Pow] of the Go standard library. *)
Variable Pow : float64 -> float64 -> float64.

(** [func (f *Forest) Score(x float64) float64] *)
Definition Score (f : Forest) (x : float64) : float64 :=
  if (C f =? zero)%f64 then zero
  else
    let E := pathLength f x in
    Pow two (- E / C f)%f64.

End Scoring.

(** ** Normalizer and anomaly selector *)

(** [func min(a, b int) int] *)
Definition min (a b : Z) : Z := if a <? b then a else b.

(** [func meanStd(x []float64) (float64, float64)] *)
Definition meanStd (x : list float64) : float64 * float64 :=
  if len x =? 0 then (zero, one)
  else
    let sum := fold_left (fun sum v => sum + v)%f64 x zero in
    let mu := (sum / of_int (len x))%f64 in
    let ss := fold_left (fun ss v => let d := (v - mu)%f64 in ss + d * d)%f64 x zero in
    (mu, sqrt (ss / of_int (len x))%f64).

(** The first loop of [detectAnomalies]:
    [norm[i] = (v - mu) / (sd + 1e-9)]. *)
Definition normalize (vals : list float64) : list float64 :=
  let '(mu, sd) := meanStd vals in
  map (fun v => ((v - mu) / (sd + Const.c1e_9))%f64) vals.

(** [idx[i] = i] for [i] in [0, n). *)
Definition identityIdx (n : nat) : list Z := map Z.of_nat (seq 0 n).

Section Detect.

Variable Pow : float64 -> float64 -> float64.

(** [sort.Slice(idx, less)] of the Go standard library, as a function of
    the order on elements that [less] induces and of the slice. *)
Variable sortSlice : (Z -> Z -> bool) -> list Z -> list Z.

(** [func(i, j int) bool { return scores[idx[i]] > scores[idx[j]] }],
    on the elements [a = idx[i]] and [b = idx[j]]. *)
Definition byScoreDesc (scores : list float64) (a b : Z) : bool :=
  (index zero scores a >? index zero scores b)%f64.

(** [func detectAnomalies(vals []float64, k int) ([]int, []float64)];
    [idx[:k]] panics when [k] is negative. *)
Definition detectAnomalies (vals : list float64) (k : Z) (g : Rand)
  : result ((list Z * list float64) * Rand) :=
  let norm := normalize vals in
  '(f, g) <- New norm 100 (min 64 (len norm)) g;;
  let scores := map (Score Pow f) norm in
  let idx := sortSlice (byScoreDesc scores) (identityIdx (length norm)) in
  let k := if k >? len idx then len idx else k in
  if k <? 0 then Panic
  else Ok ((firstn (Z.to_nat k) idx, scores), g).

End Detect.

(** ** Spec-side definitions used to state the properties *)

(** Left-to-right floating-point sum, [Σ x_i]. *)
Fixpoint fsum (acc : float64) (x : list float64) : float64 :=
  match x with
  | [] => acc
  | v :: x' => fsum (acc + v)%f64 x'
  end.

(** Mean and mean squared deviation of a non-empty series. *)
Definition mean (x : list float64) : float64 :=
  (fsum zero x / of_int (len x))%f64.
Definition meanSqDev (x : list float64) : float64 :=
  (fsum zero (map (fun v => (v - mean x) * (v - mean x))%f64 x) / of_int (len x))%f64.

(** A valid binary64 datum that is neither NaN nor infinite. *)
Definition finite (v : float64) : Prop :=
  valid_binary prec emax v = true /\ IsNaN v = false /\ IsInf v = false.

(** All the values of a series compare equal ([==]) to [c]. *)
Definition constantSeries (c : float64) (data : list float64) : Prop :=
  Forall (fun v => (v =? c)%f64 = true) data.

(** Every node of a tree satisfies [P]. *)
Fixpoint allNodes (P : Tree -> Prop) (t : Tree) {struct t} : Prop :=
  P t /\
  match Left t with Some l => allNodes P l | None => True end /\
  match Right t with Some r => allNodes P r | None => True end.

(** The split threshold a call of [fitTree] on [data] draws from [g]. *)
Definition splitOf (data : list float64) (g : Rand) : float64 :=
  splitPoint (fst (minMax data)) (snd (minMax data)) (fst (Float64 g)).

(** The call returns a leaf without consuming randomness. *)
Definition isLeafCase (data : list float64) (depth maxDepth : Z) : Prop :=
  maxDepth <= depth \/ len data <= 1 \/
  (fst (minMax data) =? snd (minMax data))%f64 = true.

(** Concrete data used in the examples. *)
Module Examples.
Local Open Scope string_scope.

(** The score vector [0.9, 0.3, 0.7] and the selection [0, 2, 1]. *)
Definition scores3 : list float64 := [Const.c0_9; Const.c0_3; Const.c0_7].
Definition top3 : list Z := [0; 2; 1].
Definition svc : string := "service-a".
Definition rps : string := "rps".
End Examples.

(** The children of a node, when present, carry the node's depth plus one. *)
Definition childrenOneDeeper (n : Tree) : Prop :=
  match Left n with Some l => Depth l = Depth n + 1 | None => True end /\
  match Right n with Some r => Depth r = Depth n + 1 | None => True end.

(** A random source whose every [Float64] draw is [r] and whose [k]-th
    integer draw is [k]. *)
Definition constRand (r : float64) : Rand :=
  mkRand (fun _ => r) (fun k => Z.of_nat k) 0.

(** Shape of the trees built by [fitTree]: node depths lie between the
    depth of the call and [max depth maxDepth], children are one level
    deeper than their parent, internal nodes lie strictly above
    [maxDepth] and have both children, leaves have none. *)
Definition builtNode (lo hi maxDepth : Z) (n : Tree) : Prop :=
  lo <= Depth n <= hi /\
  childrenOneDeeper n /\
  (Leaf n = false -> Depth n < maxDepth /\ Left n <> None /\ Right n <> None) /\
  (Leaf n = true -> Left n = None /\ Right n = None).

(** Every tree of the outer loop is the result of [fitTree] on a subsample
    of [psi] elements of [data], from depth 0. *)
Definition grownFrom (data : list float64) (psi maxDepth : Z) (t : Tree) : Prop :=
  exists sub g g',
    length sub = Z.to_nat psi /\ Forall (fun v => In v data) sub /\
    fitTree sub 0 maxDepth g = Ok (t, g').

(** A datum that is not NaN and carries the sign [s]. *)
Definition signed (s : bool) (x : float64) : Prop :=
  x = S754_zero s \/ x = S754_infinity s \/ exists m e, x = S754_finite s m e.

(** A strictly positive number or [+Inf]. *)
Definition strictlyPos (x : float64) : Prop :=
  x = S754_infinity false \/ exists m e, x = S754_finite false m e.

(** A strictly positive finite number, as a test. *)
Definition finitePosb (x : float64) : bool :=
  match x with S754_finite false _ _ => true | _ => false end.

(** The order [SFcompare] puts on numbers, as a lexicographic order on a
    triple: class ([-Inf], negative, zero, positive, [+Inf]), then exponent,
    then mantissa, the last two negated for negative numbers. *)
Definition key (x : float64) : Z * Z * Z :=
  match x with
  | S754_nan => (0, 0, 0)
  | S754_infinity true => (-2, 0, 0)
  | S754_finite true m e => (-1, - e, - Zpos m)
  | S754_zero _ => (0, 0, 0)
  | S754_finite false m e => (1, e, Zpos m)
  | S754_infinity false => (2, 0, 0)
  end.

Definition lexcmp (a b : Z * Z * Z) : comparison :=
  let '(a1, a2, a3) := a in
  let '(b1, b2, b3) := b in
  match a1 ?= b1 with
  | Eq => match a2 ?= b2 with Eq => a3 ?= b3 | c => c end
  | c => c
  end.

Definition lexlt (a b : Z * Z * Z) : Prop :=
  let '(a1, a2, a3) := a in
  let '(b1, b2, b3) := b in
  a1 < b1 \/ (a1 = b1 /\ (a2 < b2 \/ (a2 = b2 /\ a3 < b3))).

(** The condition the [sort] package puts on [less], on the elements of
    the slice: a strict, transitive ordering whose negation is transitive
    as well. *)
Definition transitiveOrdering (less : Z -> Z -> bool) (l : list Z) : Prop :=
  (forall a, In a l -> less a a = false) /\
  (forall a b c, In a l -> In b l -> In c l ->
     less a b = true -> less b c = true -> less a c = true) /\
  (forall a b c, In a l -> In b l -> In c l ->
     less a b = false -> less b c = false -> less a c = false).

(** Insertion sort, a reference implementation of the contract of
    [sort.Slice]. *)
Fixpoint insertBy (less : Z -> Z -> bool) (x : Z) (l : list Z) : list Z :=
  match l with
  | [] => [x]
  | y :: l' => if less x y then x :: y :: l' else y :: insertBy less x l'
  end.

Fixpoint insertionSort (less : Z -> Z -> bool) (l : list Z) : list Z :=
  match l with
  | [] => []
  | x :: l' => insertBy less x (insertionSort less l')
  end.

(** A stand-in for [math.Pow] that has its documented special cases
    ([Pow(x, ±0) = 1], [Pow(x, NaN) = NaN]), is never NaN on a number and
    stays in (0, 1] on non-positive exponents; it is used to instantiate the
    assumptions made on [math.Pow]. *)
Definition PowRef (x y : float64) : float64 :=
  match y with
  | S754_nan => nan
  | S754_zero _ => one
  | S754_infinity true => zero
  | S754_finite true _ _ => Const.c0_5
  | _ => two
  end.

(** The threshold [sp] of an internal node built on [data]: the minimum
    is below the maximum, and when their difference does not overflow the
    threshold lies between them, ends included. *)
Definition splitInRange (data : list float64) (sp : float64) : Prop :=
  (fst (minMax data) <? snd (minMax data))%f64 = true /\
  (IsInf (snd (minMax data) - fst (minMax data))%f64 = false ->
   (fst (minMax data) <=? sp)%f64 = true /\
   (sp <=? snd (minMax data))%f64 = true).

(** Every internal node of the tree [t] built on [data] satisfies
    [splitInRange] for the subsample it split; the subsamples of the
    children are the two partitions of the node's subsample. *)
Fixpoint splitsInRange (data : list float64) (t : Tree) {struct t} : Prop :=
  match t with
  | mkTree sp (Some l) (Some r) false _ =>
      splitInRange data sp /\
      splitsInRange (fst (splitData sp data)) l /\
      splitsInRange (snd (splitData sp data)) r
  | _ => True
  end.

(** The value of a finite number in units of [2^-1074], the smallest
    positive binary64 value; 0 on the zeros (and on the other classes). *)
Definition val (x : float64) : Z :=
  match x with
  | S754_finite s m e => cond_Zopp s (Zpos m) * 2 ^ (e + 1074)
  | _ => 0
  end.

(** A zero, or a positive representable number at or below [mx * 2^ex] in
    the order of exponents then mantissas. *)
Definition atMost (res : float64) (mx : positive) (ex : Z) : Prop :=
  res = S754_zero false \/
  exists m3 e3,
    res = S754_finite false m3 e3 /\ bounded prec emax m3 e3 = true /\
    (e3 < ex \/ (e3 = ex /\ Zpos m3 <= Zpos mx)).

(** The number of internal nodes of a tree, each of which took one draw of
    [rand.Float64]. *)
Fixpoint internalNodes (t : Tree) {struct t} : nat :=
  ((if Leaf t then 0 else 1)
   + match Left t with Some l => internalNodes l | None => 0 end
   + match Right t with Some r => internalNodes r | None => 0 end)%nat.

(** The internal nodes of the trees of a forest. *)
Definition forestInternalNodes (trees : list Tree) : nat :=
  fold_right (fun t n => (internalNodes t + n)%nat) 0%nat trees.

(** The node at which the descent of [pathLenTree] for [x] stops in the
    tree [t] built on [data], together with the part of [data] that the
    partitions made along that path hand down to the node: at an internal
    node with threshold [split] the descent and the subsample both go left
    when [x < split] and right otherwise, as in [pathLenTree] and in the
    second loop of [fitTree]. *)
Fixpoint descend (t : Tree) (data : list float64) (x : float64) {struct t}
  : Tree * list float64 :=
  match t with
  | mkTree split lft rgt leaf depth =>
      if leaf then (t, data)
      else
        match lft, rgt with
        | Some l, Some r =>
            if (x <? split)%f64 then descend l (fst (splitData split data)) x
            else descend r (snd (splitData split data)) x
        | _, _ => (t, data)
        end
  end.

(** The leaf reached from the root of [t] by the descent for [x]. *)
Definition reachedLeaf (t : Tree) (data : list float64) (x : float64) : Tree :=
  fst (descend t data x).

(** The subsample [fitTree] was called on when it built that leaf. *)
Definition leafSubsample (t : Tree) (data : list float64) (x : float64)
  : list float64 :=
  snd (descend t data x).

(** ** Query results *)

(** A Go [map[string]string], as the list of its bindings: [m[k]] is the
    value of the first binding of [k], and the zero value [""] when there
    is none (or when the map is nil, the empty list). *)
Definition labelMap : Type := list (string * string).

Fixpoint mapGet (m : labelMap) (k : string) : string :=
  match m with
  | [] => EmptyString
  | (k', v) :: m' => if String.eqb k' k then v else mapGet m' k
  end.

(** [type promSeries struct { Metric map[string]string; Values [][]interface{} }] *)
Record promSeries : Type := mkPromSeries {
  Metric : labelMap;
  Values : list (list jvalue)
}.

(** [s := v.(string)]: the one-result form of the type assertion panics
    when the dynamic type is not [string]. *)
Definition assert_string_strict (v : jvalue) : result string :=
  match v with JString s => Ok s | _ => Panic end.

Section StrictExtraction.

Variable Sscan : string -> float64.

(** The loop of [fetchRPS] (and of [fetchErrorRate], which has the same
    body) over [series.Values]: as in [fetchAllRPS], except that the value
    of the pair is read with the one-result type assertion. *)
Fixpoint extractStrict (values : list (list jvalue)) (vals : list float64)
    (ts : list Z) {struct values} : result (list float64 * list Z) :=
  match values with
  | [] => Ok (vals, ts)
  | v :: rest =>
      if negb (len v =? 2) then extractStrict rest vals ts
      else
        let sec := assert_float64 (index JNull v 0) in
        's <- assert_string_strict (index JNull v 1);;
        let f := Sscan s in
        let vals' :=
          match sane f with
          | (fv, true) => vals ++ [fv]
          | (_, false) => vals ++ [zero]
          end in
        extractStrict rest vals' (ts ++ [to_int64 sec])
  end.

(** [fetchRPS] from the decoded response on: the error ["no data"] when
    the result has no series, the slices of the first series otherwise. *)
Definition fetchRPSFrom (res : list promSeries)
  : result (list float64 * list Z + string) :=
  if len res =? 0 then Ok (inr "no data"%string)
  else
    'r <- extractStrict (Values (index (mkPromSeries [] []) res 0)) [] [];;
    Ok (inl r).

(** [fetchAllRPS] (and [fetchAllErrorRate]) from the decoded response on. *)
Definition fetchAllFrom (res : list promSeries)
  : list promSeries * list (list float64) * list (list Z) + string :=
  if len res =? 0 then inr "no data"%string
  else
    let '(allVals, allTs) := extractAll Sscan (map Values res) in
    inl (res, allVals, allTs).

End StrictExtraction.

(** The value of a pair is a JSON string. *)
Definition stringSecond (v : list jvalue) : bool :=
  match index JNull v 1 with JString _ => true | _ => false end.

(** ** Service discovery *)

(** One iteration of the loop of [fetchServices] over [payload.Data]:
    [seen[name] = struct{}{}] for a non-empty [service_name].  The set
    [seen] is the list of its keys, in order of first insertion. *)
Definition seenStep (seen : list string) (lbls : labelMap) : list string :=
  let name := mapGet lbls "service_name" in
  if String.eqb name "" then seen
  else if existsb (String.eqb name) seen then seen
  else seen ++ [name].

Definition seenNames (data : list labelMap) : list string :=
  fold_left seenStep data [].

Section Services.

(** The order in which [for k := range seen] visits the keys of the map,
    which Go leaves unspecified. *)
Variable rangeOrder : list string -> list string.

(** [sort.Strings] of the Go standard library. *)
Variable sortStrings : list string -> list string.

(** [json.Unmarshal(raw, &data)] into a [[]map[string]string]: the decoded
    slice when the error is nil.  [json.Unmarshal(raw, &payload)]: the
    field [Data] it leaves in [payload], its error being ignored. *)
Variable unmarshalList : string -> option (list labelMap).
Variable unmarshalPayload : string -> list labelMap.

(** [fetchServices] from [payload.Data] on. *)
Definition fetchServicesFrom (data : list labelMap) : list string :=
  sortStrings (rangeOrder (seenNames data)).

(** [func fetchServices(ctx, c, windowM) ([]string, error)], as a function
    of what [c.Series] returned: the raw body or an error. *)
Definition fetchServices (resp : string + string) : list string * option string :=
  match resp with
  | inr err => ([], Some err)
  | inl raw =>
      let data :=
        match unmarshalList raw with
        | Some data => data
        | None => unmarshalPayload raw
        end in
      (fetchServicesFrom data, None)
  end.

End Services.

(** Insertion sort on strings, a reference implementation of the contract
    of [sort.Strings].  Go compares strings byte by byte, as
    [String.compare] does. *)
Fixpoint insertString (x : string) (l : list string) : list string :=
  match l with
  | [] => [x]
  | y :: l' => if String.leb x y then x :: y :: l' else y :: insertString x l'
  end.

Fixpoint insertionSortStrings (l : list string) : list string :=
  match l with
  | [] => []
  | x :: l' => insertString x (insertionSortStrings l')
  end.

(** ** The handlers of [/anomalies/all] and [/anomalies/all_error] *)

(** [s[i]], with the bounds check of the Go runtime. *)
Definition indexChecked {A : Type} (s : list A) (i : Z) : result A :=
  if 0 <=? i then
    match nth_error s (Z.to_nat i) with
    | Some a => Ok a
    | None => Panic
    end
  else Panic.

(** One entry of ["top"]: the time of the point, in Unix seconds (the
    handler renders it with [Format(time.RFC3339)]), its value and its
    score. *)
Record topPoint : Type := mkTopPoint {
  pointTime : Z;
  pointValue : float64;
  pointScore : float64
}.

(** One entry of ["results"]: the labels [service_name], [span_name] and
    [peer_service] of the series, its number of points and its top
    anomalies. *)
Record seriesResult : Type := mkSeriesResult {
  resultLabels : string * string * string;
  resultPoints : Z;
  resultTop : list topPoint
}.

(** What a handler writes: [http.Error(w, err.Error(), 500)], or the JSON
    object with the fields [windowMinutes], [series], [results] and
    [metric]. *)
Inductive response : Type :=
| Status500 (msg : string)
| Status200 (windowMinutes seriesCount : Z) (results : list seriesResult)
    (metric : string).

(** [svc := s.Metric["service_name"]; if svc == "" { svc = "unknown" }] *)
Definition serviceOf (s : promSeries) : string :=
  let svc := mapGet (Metric s) "service_name" in
  if String.eqb svc "" then "unknown"%string else svc.

(** The labels kept in the payload. *)
Definition keyLabels (s : promSeries) : string * string * string :=
  (mapGet (Metric s) "service_name", mapGet (Metric s) "span_name",
   mapGet (Metric s) "peer_service").

Section Handlers.

Variable Pow : float64 -> float64 -> float64.
Variable sortSlice : (Z -> Z -> bool) -> list Z -> list Z.

(** The loop [for _, j := range idx { top = append(top, ...) }]. *)
Fixpoint topPoints (idx : list Z) (ts : list Z) (vals scores : list float64)
    (top : list topPoint) {struct idx} : result (list topPoint) :=
  match idx with
  | [] => Ok top
  | j :: idx' =>
      't <- indexChecked ts j;;
      'v <- indexChecked vals j;;
      'sc <- indexChecked scores j;;
      topPoints idx' ts vals scores (top ++ [mkTopPoint t v sc])
  end.

(** The loop [for i, s := range series] of a handler, from the index [i]
    on: the results built so far, the log and the random source are
    threaded through the iterations. *)
Fixpoint seriesLoop (metric : string) (threshold : float64)
    (allVals : list (list float64)) (allTs : list (list Z))
    (series : list promSeries) (i : Z) (results : list seriesResult)
    (log : list string) (g : Rand) {struct series}
  : result (list seriesResult * list string * Rand) :=
  match series with
  | [] => Ok (results, log, g)
  | s :: rest =>
      'vals <- indexChecked allVals i;;
      'ts <- indexChecked allTs i;;
      if len vals =? 0
      then seriesLoop metric threshold allVals allTs rest (i + 1) results log g
      else
        '((idx, scores), g) <- detectAnomalies Pow sortSlice vals 3 g;;
        let log := logAnomalyEvents (serviceOf s) metric idx scores threshold log in
        'top <- topPoints idx ts vals scores [];;
        seriesLoop metric threshold allVals allTs rest (i + 1)
          (results ++ [mkSeriesResult (keyLabels s) (len vals) top]) log g
  end.

(** The body of a handler, given what the fetcher returned ([metric] is
    ["rps"] for [/anomalies/all] and ["error_rate"] for
    [/anomalies/all_error]). *)
Definition anomaliesHandler (metric : string) (window : Z) (threshold : float64)
    (fetched : list promSeries * list (list float64) * list (list Z) + string)
    (log : list string) (g : Rand) : result (response * list string * Rand) :=
  match fetched with
  | inr err => Ok (Status500 err, log, g)
  | inl (series, allVals, allTs) =>
      '(results, log, g) <-
        seriesLoop metric threshold allVals allTs series 0 [] log g;;
      Ok (Status200 window (len results) results metric, log, g)
  end.

End Handlers.

(** What the handler reports for a series [s] with at least one
    well-formed pair: its labels, its number of points, and for each of
    the [min 3 points] top anomalies the time and the value of one and the
    same point of the series. *)
Definition reportsSeries (vals : list float64) (ts : list Z) (s : promSeries)
    (r : seriesResult) : Prop :=
  resultLabels r = keyLabels s /\
  resultPoints r = len vals /\
  len (resultTop r) = Z.min 3 (len vals) /\
  Forall (fun p => exists j, 0 <= j < len vals /\
                             pointTime p = index 0 ts j /\
                             pointValue p = index zero vals j)
         (resultTop r).

(** ** Service discovery at start-up *)

(** What the closure run by [main] at start-up does, in order: calls of
    [fetchServices], lines written to the log (with the arguments given to
    [log.Printf]) and calls of [time.Sleep] (in seconds). *)
Inductive startupEvent : Type :=
| FetchServices (attempt : Z)
| LogWaiting (attempt : Z) (err : option string)
| Sleep (seconds : Z)
| LogCouldNotList (err : option string)
| LogServices (n : Z) (services : list string).

(** [err == nil && len(services) > 0] *)
Definition succeeded (r : list string * option string) : bool :=
  match snd r with
  | None => 0 <? len (fst r)
  | Some _ => false
  end.

Section Startup.

(** What the [attempt]-th call of [fetchServices] returns. *)
Variable fetch : Z -> list string * option string.

(** The loop [for attempt := 1; attempt <= 30; attempt++], from the value
    [attempt] of the counter on; [fuel] bounds the number of iterations. *)
Fixpoint startupLoop (fuel : nat) (attempt : Z) (last : list string * option string)
    (trace : list startupEvent) {struct fuel}
  : result (list string * option string * list startupEvent) :=
  if attempt <=? 30 then
    match fuel with
    | O => OutOfFuel
    | S fuel' =>
        let r := fetch attempt in
        let trace := trace ++ [FetchServices attempt] in
        if succeeded r then Ok (r, trace)
        else
          let trace :=
            if attempt =? 1 then trace ++ [LogWaiting attempt (snd r)] else trace in
          let trace := trace ++ [Sleep 2] in
          startupLoop fuel' (attempt + 1) r trace
    end
  else Ok (last, trace).

(** The closure: the loop, then one of the two final log lines. *)
Definition startup : result (list startupEvent) :=
  '(services, err, trace) <- startupLoop 30 1 ([], None) [];;
  if (match err with Some _ => true | None => false end) || (len services =? 0)
  then Ok (trace ++ [LogCouldNotList err])
  else Ok (trace ++ [LogServices (len services) services]).

End Startup.

(** The attempts made, the seconds slept and the number of "waiting" lines
    in a trace. *)
Definition fetchAttempts (trace : list startupEvent) : list Z :=
  flat_map (fun e => match e with FetchServices a => [a] | _ => [] end) trace.
Definition sleptSeconds (trace : list startupEvent) : Z :=
  fold_right (fun e n => match e with Sleep s => s + n | _ => n end) 0 trace.
Definition waitingLogs (trace : list startupEvent) : Z :=
  fold_right (fun e n => match e with LogWaiting _ _ => 1 + n | _ => n end) 0 trace.

(** The integers [lo, lo + 1, ..., lo + k - 1]. *)
Definition zrange (lo : Z) (k : nat) : list Z :=
  map (fun i => lo + Z.of_nat i) (seq 0 k).

(** * Properties *)

(** ** Comparisons of binary64 values *)

Lemma SFcompare_antisym (x y : float64) :
  SFcompare y x = option_map CompOpp (SFcompare x y).
Proof.
  destruct x as [sx|sx| |sx mx ex], y as [sy|sy| |sy my ey]; simpl; trivial;
    try (destruct sx; trivial; destruct sy; trivial; fail);
    try (destruct sy; trivial; fail).
  destruct sx, sy; simpl; trivial;
    rewrite (Z.compare_antisym ex ey); destruct (ex ?= ey) eqn:E; simpl; trivial;
    fold (Pos.compare mx my); fold (Pos.compare my mx);
    rewrite (Pos.compare_antisym mx my); destruct (mx ?= my)%positive; trivial.
Qed.

Lemma SFcompare_refl (x : float64) :
  IsNaN x = false -> SFcompare x x = Some Eq.
Proof.
  destruct x as [s|s| |s m e]; simpl; intros H; try discriminate;
    try (destruct s; reflexivity).
  destruct s; rewrite Z.compare_refl; fold (Pos.compare m m);
    rewrite Pos.compare_refl; reflexivity.
Qed.

(** [x == y] holds only between two zeros or between identical data. *)
Lemma eqb_true_cases (x y : float64) :
  (x =? y)%f64 = true ->
  (exists s s', x = S754_zero s /\ y = S754_zero s') \/ (x = y /\ IsNaN x = false).
Proof.
  unfold eqb, SFeqb.
  destruct x as [sx|sx| |sx mx ex], y as [sy|sy| |sy my ey]; simpl; try discriminate;
    try (destruct sx; discriminate); try (destruct sy; discriminate).
  - intros _. left. eauto.
  - destruct sx, sy; try discriminate; intros _; right; split; reflexivity.
  - destruct sx, sy; try discriminate;
      destruct (ex ?= ey) eqn:E; try discriminate;
      fold (Pos.compare mx my); destruct (mx ?= my)%positive eqn:M; try discriminate;
      intros _; right; apply Z.compare_eq in E; apply Pos.compare_eq in M;
      subst; split; reflexivity.
Qed.

Lemma eqb_refl (x : float64) : IsNaN x = false -> (x =? x)%f64 = true.
Proof.
  intros H. unfold eqb, SFeqb. rewrite (SFcompare_refl x H). reflexivity.
Qed.

(** Two values equal to a common third one are equal and unordered by [<]. *)
Lemma eqb_common (a b c : float64) :
  (a =? c)%f64 = true -> (b =? c)%f64 = true ->
  (a =? b)%f64 = true /\ (a <? b)%f64 = false /\ (a >? b)%f64 = false.
Proof.
  intros Ha Hb.
  assert (E : SFcompare a b = Some Eq).
  { destruct (eqb_true_cases _ _ Ha) as [(s & s' & Ea & Ec)|[Ea Hn]];
      destruct (eqb_true_cases _ _ Hb) as [(t & t' & Eb & Ec')|[Eb Hn']];
      subst; try reflexivity.
    apply SFcompare_refl; assumption. }
  unfold eqb, ltb, gtb, SFeqb, SFltb.
  rewrite (SFcompare_antisym a b), E. repeat split.
Qed.

(** [x < y] excludes [y <= x]. *)
Lemma ltb_not_geb (x y : float64) :
  (x <? y)%f64 = true -> (x >=? y)%f64 = false.
Proof.
  unfold ltb, geb, SFltb, SFleb. rewrite (SFcompare_antisym x y).
  destruct (SFcompare x y) as [[]|]; simpl; congruence.
Qed.

(** ** Sanitizer *)

Section ExtractionProps.

Variable Sscan : string -> float64.

Lemma sane_value (f : float64) :
  match sane f with (fv, true) => fv | (_, false) => zero end
  = if IsNaN f || IsInf f then zero else f.
Proof. unfold sane. destruct (IsNaN f || IsInf f); reflexivity. Qed.

Lemma extractStep_wellFormed (vals : list float64) (ts : list Z) (v : list jvalue) :
  extractStep Sscan (vals, ts) v =
    if wellFormed v
    then (vals ++ [sanitizedValue Sscan v], ts ++ [timestampOf v])
    else (vals, ts).
Proof.
  unfold extractStep, wellFormed, sanitizedValue, timestampOf.
  destruct (len v =? 2); simpl; [|reflexivity].
  rewrite <- sane_value. destruct (sane _) as [fv []]; reflexivity.
Qed.

Lemma extract_fold (values : list (list jvalue)) :
  forall vals ts,
    fold_left (extractStep Sscan) values (vals, ts) =
      (vals ++ map (sanitizedValue Sscan) (filter wellFormed values),
       ts ++ map timestampOf (filter wellFormed values)).
Proof.
  induction values as [|v values IH]; intros vals ts; cbn [fold_left filter].
  - cbn [map]. now rewrite !app_nil_r.
  - rewrite extractStep_wellFormed. destruct (wellFormed v); cbn [map].
    + rewrite IH, <- !app_assoc. reflexivity.
    + apply IH.
Qed.

Lemma filter_split_length {A : Type} (p : A -> bool) (l : list A) :
  len (filter p l) = len l - len (filter (fun a => negb (p a)) l).
Proof.
  unfold len. induction l as [|a l IH]; [reflexivity|].
  cbn [filter]. destruct (p a); cbn [negb length]; lia.
Qed.

(** C8. [sane] zeroes NaN and both infinities and reports them invalid,
    and returns every other value unchanged and valid (3.5 among them).
    The extraction loop appends, for each pair of arity 2 and in input
    order, one sanitized value (zero for an invalid magnitude, the parsed
    value otherwise) and one timestamp, and skips every other pair: the
    sanitized length is the input length minus the number of malformed
    pairs, and timestamps stay aligned with values. *)
Theorem sanitizer_contract :
  sane nan = (zero, false) /\
  sane pinf = (zero, false) /\
  sane ninf = (zero, false) /\
  (forall s, sane (S754_zero s) = (S754_zero s, true)) /\
  (forall s m e, sane (S754_finite s m e) = (S754_finite s m e, true)) /\
  sane Const.c3_5 = (Const.c3_5, true) /\
  forall values : list (list jvalue),
    extractSeries Sscan values =
      (map (sanitizedValue Sscan) (filter wellFormed values),
       map timestampOf (filter wellFormed values)) /\
    len (fst (extractSeries Sscan values)) = len values - malformedCount values /\
    len (snd (extractSeries Sscan values)) = len (fst (extractSeries Sscan values)).
Proof.
  repeat split; try reflexivity.
  - unfold extractSeries. rewrite extract_fold. reflexivity.
  - unfold extractSeries. rewrite extract_fold. simpl.
    unfold malformedCount. rewrite <- filter_split_length.
    unfold len. now rewrite length_map.
  - unfold extractSeries. rewrite extract_fold. simpl.
    unfold len. now rewrite !length_map.
Qed.

End ExtractionProps.

(** ** Event reporter *)

Lemma logAnomalyEvents_fold (serviceName metric : string) (scores : list float64)
    (threshold : float64) (topIdx : list Z) :
  forall log,
    logAnomalyEvents serviceName metric topIdx scores threshold log =
      (log ++ map (fun _ => eventLine serviceName metric)
                  (filter (fires scores threshold) topIdx))%list.
Proof.
  unfold logAnomalyEvents.
  induction topIdx as [|i topIdx IH]; intros log; cbn [fold_left filter].
  - cbn [map]. now rewrite app_nil_r.
  - destruct (fires scores threshold i); cbn [map].
    + rewrite IH, <- app_assoc. reflexivity.
    + apply IH.
Qed.

(** C9. [logAnomalyEvents] appends to the log exactly one event line per
    selected index that is in range and whose score is [>=] the threshold,
    in selection order, and nothing for the other indices; in particular
    an index whose score is below the threshold produces no event.  For
    threshold 0.6, scores [0.9, 0.3, 0.7] and selection [0, 2, 1] the
    firing indices are 0 and 2 and exactly two events are written. *)
Theorem event_reporter_contract :
  (forall serviceName metric topIdx scores threshold log,
      logAnomalyEvents serviceName metric topIdx scores threshold log =
        (log ++ map (fun _ => eventLine serviceName metric)
                    (filter (fires scores threshold) topIdx))%list) /\
  (forall scores threshold i,
      fires scores threshold i = true <->
      (0 <= i < len scores /\ (index zero scores i >=? threshold)%f64 = true)) /\
  (forall scores threshold i,
      (index zero scores i <? threshold)%f64 = true ->
      fires scores threshold i = false) /\
  filter (fires Examples.scores3 Const.c0_6) Examples.top3 = [0; 2] /\
  logAnomalyEvents Examples.svc Examples.rps Examples.top3 Examples.scores3
    Const.c0_6 [] =
    [eventLine Examples.svc Examples.rps; eventLine Examples.svc Examples.rps].
Proof.
  split; [|split; [|split; [|split]]].
  - intros. apply logAnomalyEvents_fold.
  - intros scores threshold i. unfold fires.
    rewrite !andb_true_iff, Z.leb_le, Z.ltb_lt. tauto.
  - intros scores threshold i Hlt. unfold fires.
    rewrite (ltb_not_geb _ _ Hlt). apply andb_false_r.
  - vm_compute. reflexivity.
  - vm_compute. reflexivity.
Qed.

Lemma event_reporter_contract_witness :
  fires Examples.scores3 Const.c0_6 1 = false.
Proof.
  apply (proj1 (proj2 (proj2 event_reporter_contract))).
  vm_compute. reflexivity.
Defined.

(** ** Normalisation constant *)

Lemma harmonicLoop_H (k : nat) :
  forall j, harmonicLoop k (Z.of_nat (S j)) (H j) = H (j + k).
Proof.
  induction k as [|k IH]; intros j; cbn [harmonicLoop].
  - now rewrite Nat.add_0_r.
  - replace (Z.of_nat (S j) + 1) with (Z.of_nat (S (S j))) by lia.
    change (H j + one / of_int (Z.of_nat (S j)))%f64 with (H (S j)).
    rewrite (IH (S j)). f_equal. lia.
Qed.

Lemma New_C (data : list float64) (t psi : Z) (g g' : Rand) (f : Forest) :
  New data t psi g = Ok (f, g') -> C f = averagePathLength (clampPsi data psi).
Proof.
  unfold New. destruct (t <? 0); [discriminate|].
  destruct (growTrees _ _ _ _ _ _) as [[trees g1]| |]; simpl; try discriminate.
  intros E. inversion E. reflexivity.
Qed.

Lemma averagePathLength_le1 (n : Z) : n <= 1 -> averagePathLength n = zero.
Proof.
  intros Hn. unfold averagePathLength.
  destruct (n <=? 1) eqn:E; [reflexivity|]. apply Z.leb_gt in E. lia.
Qed.

(** C6. [averagePathLength n] is 0 for every [n <= 1], is 1 at [n = 2],
    and for every [n >= 2] is [2*H(n-1) - 2*(n-1)/n] with [H] the harmonic
    sum; the constant [C] of a forest built by [New] is
    [averagePathLength] of the clamped subsample size. *)
Theorem averagePathLength_spec :
  (forall n, n <= 1 -> averagePathLength n = zero) /\
  averagePathLength 2 = one /\
  (forall n, 2 <= n ->
     averagePathLength n =
       (two * H (Z.to_nat (n - 1)) - two * of_int (n - 1) / of_int n)%f64) /\
  (forall data t psi g f g',
     New data t psi g = Ok (f, g') ->
     C f = averagePathLength (clampPsi data psi)).
Proof.
  split; [|split; [|split]].
  - intros n Hn. unfold averagePathLength.
    destruct (n <=? 1) eqn:E; [reflexivity|]. apply Z.leb_gt in E. lia.
  - vm_compute. reflexivity.
  - intros n Hn. unfold averagePathLength.
    destruct (n <=? 1) eqn:E; [apply Z.leb_le in E; lia|].
    pose proof (harmonicLoop_H (Z.to_nat (n - 1)) 0) as E'.
    change (Z.of_nat 1) with 1 in E'. change (H 0) with zero in E'.
    change (0 + Z.to_nat (n - 1))%nat with (Z.to_nat (n - 1)) in E'.
    rewrite E'. reflexivity.
  - intros. eapply New_C; eassumption.
Qed.

Lemma averagePathLength_spec_witness :
  averagePathLength 0 = zero /\
  averagePathLength 5 =
    (two * H (Z.to_nat (5 - 1)) - two * of_int (5 - 1) / of_int 5)%f64.
Proof.
  split.
  - apply (proj1 averagePathLength_spec). lia.
  - apply (proj1 (proj2 (proj2 averagePathLength_spec))). lia.
Defined.

(** ** Tree construction *)

(** Inversion of one call of [fitTreeFuel]: either one of the three
    terminal conditions holds and the result is a leaf carrying [depth],
    or the node is internal and its children come from the two recursive
    calls at [depth + 1], left first. *)
Lemma fitTreeFuel_inv (fuel : nat) (data : list float64) (depth maxDepth : Z)
    (g g' : Rand) (t : Tree) :
  fitTreeFuel fuel data depth maxDepth g = Ok (t, g') ->
  (isLeafCase data depth maxDepth /\ t = leafAt depth /\ g' = g) \/
  (exists fuel' l r g1,
      fuel = S fuel' /\ depth < maxDepth /\ 1 < len data /\
      (fst (minMax data) =? snd (minMax data))%f64 = false /\
      fitTreeFuel fuel' (fst (splitData (splitOf data g) data)) (depth + 1)
        maxDepth (snd (Float64 g)) = Ok (l, g1) /\
      fitTreeFuel fuel' (snd (splitData (splitOf data g) data)) (depth + 1)
        maxDepth g1 = Ok (r, g') /\
      t = mkTree (splitOf data g) (Some l) (Some r) false depth).
Proof.
  unfold isLeafCase, splitOf.
  destruct fuel as [|fuel']; cbn [fitTreeFuel];
    destruct (depth >=? maxDepth) eqn:Hd; cbn [orb];
    try (intros E; inversion E; left; apply Z.geb_le in Hd; auto; fail);
    destruct (len data <=? 1) eqn:Hl;
    try (intros E; inversion E; left; apply Z.leb_le in Hl; auto; fail);
    destruct (minMax data) as [minV maxV]; cbn [fst snd];
    destruct (minV =? maxV)%f64 eqn:He;
    try (intros E; inversion E; left; auto; fail);
    cbn [Float64 fst snd];
    destruct (splitData _ data) as [lft rgt] eqn:Hs; cbn [fst snd];
    try discriminate.
  destruct (fitTreeFuel fuel' lft _ _ _) as [[l g1]| |] eqn:El;
    cbn [bind]; try discriminate.
  destruct (fitTreeFuel fuel' rgt _ _ _) as [[r g2]| |] eqn:Er;
    cbn [bind]; try discriminate.
  intros E; inversion E; subst. right.
  exists fuel', l, r, g1.
  assert (depth < maxDepth) by (rewrite Z.geb_leb in Hd; apply Z.leb_gt in Hd; lia).
  apply Z.leb_gt in Hl. repeat split; auto.
Qed.

(** The three terminal conditions produce a leaf, whatever the budget. *)
Lemma fitTreeFuel_leaf (fuel : nat) (data : list float64) (depth maxDepth : Z)
    (g : Rand) :
  isLeafCase data depth maxDepth ->
  fitTreeFuel fuel data depth maxDepth g = Ok (leafAt depth, g).
Proof.
  unfold isLeafCase. intros Hc.
  destruct fuel; cbn [fitTreeFuel];
    destruct (depth >=? maxDepth) eqn:Hd; cbn [orb]; trivial;
    destruct (len data <=? 1) eqn:Hl; trivial;
    destruct (minMax data) as [minV maxV]; cbn [fst snd] in Hc;
    destruct (minV =? maxV)%f64 eqn:He; trivial;
    exfalso; rewrite Z.geb_leb in Hd; apply Z.leb_gt in Hd; apply Z.leb_gt in Hl;
    destruct Hc as [Hc|[Hc|Hc]]; try lia; discriminate.
Qed.

(** A budget of [maxDepth - depth] nested calls is enough. *)
Lemma fitTreeFuel_total (fuel : nat) :
  forall data depth maxDepth g,
    (Z.to_nat (maxDepth - depth) <= fuel)%nat ->
    exists t g', fitTreeFuel fuel data depth maxDepth g = Ok (t, g').
Proof.
  induction fuel as [|fuel IH]; intros data depth maxDepth g Hf.
  - exists (leafAt depth), g. apply fitTreeFuel_leaf. left. lia.
  - cbn [fitTreeFuel].
    destruct (depth >=? maxDepth) eqn:Hd; cbn [orb]; [eauto|].
    destruct (len data <=? 1); [eauto|].
    destruct (minMax data) as [minV maxV].
    destruct (minV =? maxV)%f64; [eauto|].
    cbn [Float64]. destruct (splitData _ data) as [lft rgt].
    rewrite Z.geb_leb in Hd. apply Z.leb_gt in Hd.
    assert (Hf' : (Z.to_nat (maxDepth - (depth + 1)) <= fuel)%nat) by lia.
    destruct (IH lft (depth + 1) maxDepth (advance g) Hf') as (l & g1 & El).
    rewrite El. cbn [bind].
    destruct (IH rgt (depth + 1) maxDepth g1 Hf') as (r & g2 & Er).
    rewrite Er. cbn [bind]. eauto.
Qed.

(** A call that returned returns the same with any larger budget. *)
Lemma fitTreeFuel_mono (fuel : nat) :
  forall fuel' data depth maxDepth g res,
    (fuel <= fuel')%nat ->
    fitTreeFuel fuel data depth maxDepth g = Ok res ->
    fitTreeFuel fuel' data depth maxDepth g = Ok res.
Proof.
  induction fuel as [|fuel IH]; intros fuel' data depth maxDepth g [t g'] Hle E;
    destruct (fitTreeFuel_inv _ _ _ _ _ _ _ E)
      as [(Hc & -> & ->)|(f0 & l & r & g1 & Hf & Hd & Hl & He & El & Er & ->)].
  - apply fitTreeFuel_leaf; assumption.
  - discriminate.
  - apply fitTreeFuel_leaf; assumption.
  - inversion Hf; subst f0. destruct fuel' as [|fuel']; [lia|].
    cbn [fitTreeFuel].
    replace (depth >=? maxDepth) with false
      by (symmetry; rewrite Z.geb_leb; apply Z.leb_gt; lia).
    replace (len data <=? 1) with false by (symmetry; apply Z.leb_gt; lia).
    cbn [orb]. unfold splitOf in *.
    destruct (minMax data) as [minV maxV]; cbn [fst snd] in *.
    rewrite He. cbn [Float64 fst snd] in *.
    destruct (splitData _ data) as [lft rgt]; cbn [fst snd] in *.
    rewrite (IH fuel' _ _ _ _ _ ltac:(lia) El). cbn [bind].
    rewrite (IH fuel' _ _ _ _ _ ltac:(lia) Er). reflexivity.
Qed.

(** The root of the returned tree carries the depth of the call. *)
Lemma fitTreeFuel_root_depth (fuel : nat) (data : list float64)
    (depth maxDepth : Z) (g g' : Rand) (t : Tree) :
  fitTreeFuel fuel data depth maxDepth g = Ok (t, g') -> Depth t = depth.
Proof.
  intros E. destruct (fitTreeFuel_inv _ _ _ _ _ _ _ E)
    as [(_ & -> & _)|(f0 & l & r & g1 & _ & _ & _ & _ & _ & _ & ->)]; reflexivity.
Qed.

Lemma allNodes_impl (P Q : Tree -> Prop) :
  (forall n, P n -> Q n) -> forall t, allNodes P t -> allNodes Q t.
Proof.
  intros HPQ. fix IH 1. intros [split [l|] [r|] leaf depth]; cbn [allNodes Left Right];
    intros (Hp & Hl & Hr); repeat split; auto.
Qed.

Lemma fitTreeFuel_nodes (fuel : nat) :
  forall data depth maxDepth g t g' lo hi,
    fitTreeFuel fuel data depth maxDepth g = Ok (t, g') ->
    lo <= depth -> Z.max depth maxDepth <= hi ->
    allNodes (builtNode lo hi maxDepth) t.
Proof.
  induction fuel as [|fuel IH]; intros data depth maxDepth g t g' lo hi E Hlo Hhi;
    destruct (fitTreeFuel_inv _ _ _ _ _ _ _ E)
      as [(Hc & -> & ->)|(f0 & l & r & g1 & Hf & Hd & Hl & He & El & Er & ->)];
    try discriminate;
    try (cbn; unfold builtNode, childrenOneDeeper; cbn; repeat split;
         first [lia | discriminate | trivial]; fail).
  inversion Hf; subst f0.
  pose proof (fitTreeFuel_root_depth _ _ _ _ _ _ _ El) as Dl.
  pose proof (fitTreeFuel_root_depth _ _ _ _ _ _ _ Er) as Dr.
  cbn [allNodes Left Right]. split; [|split].
  - unfold builtNode, childrenOneDeeper; cbn [Depth Left Right Leaf].
    repeat split; try lia; try discriminate; assumption.
  - eapply IH; [exact El|lia|lia].
  - eapply IH; [exact Er|lia|lia].
Qed.

(** When no element is below the split, the left partition is empty and
    the right one retains every element. *)
Lemma splitData_all_right (split : float64) (data : list float64) :
  Forall (fun v => (v <? split)%f64 = false) data ->
  splitData split data = ([], data).
Proof.
  unfold splitData. intros Hall.
  enough (G : forall rgt, fold_left (splitStep split) data ([], rgt) = ([], rgt ++ data))
    by apply (G []).
  induction Hall as [|v data Hv Hall IH]; intros rgt; cbn [fold_left].
  - now rewrite app_nil_r.
  - unfold splitStep at 2. rewrite Hv, IH, <- app_assoc. reflexivity.
Qed.

(** C10. [fitTree] returns on every input, for every outcome of the random
    source: a budget of [maxDepth - depth] nested calls is never exhausted,
    and any larger budget gives the same result.  In the returned tree
    every child is exactly one level deeper than its parent and every
    internal node lies strictly above [maxDepth].  Termination does not
    rest on the data shrinking: when no element is below the split (as
    when the draw is 0 and the split is the subsample minimum) the left
    partition is empty and the right one keeps every element, and the call
    still returns, after [maxDepth] draws. *)
Theorem fitTree_terminates :
  (forall data depth maxDepth g,
      exists t g', fitTree data depth maxDepth g = Ok (t, g')) /\
  (forall fuel data depth maxDepth g,
      (Z.to_nat (maxDepth - depth) <= fuel)%nat ->
      fitTreeFuel fuel data depth maxDepth g = fitTree data depth maxDepth g) /\
  (forall data depth maxDepth g t g',
      fitTree data depth maxDepth g = Ok (t, g') ->
      Depth t = depth /\
      allNodes (fun n => childrenOneDeeper n /\
                         (Leaf n = false -> Depth n < maxDepth)) t) /\
  (forall split data,
      Forall (fun v => (v <? split)%f64 = false) data ->
      splitData split data = ([], data)) /\
  (minMax [zero; one] = (zero, one) /\
   splitOf [zero; one] (constRand zero) = zero /\
   splitData zero [zero; one] = ([], [zero; one]) /\
   exists t g', fitTree [zero; one] 0 5 (constRand zero) = Ok (t, g') /\ pos g' = 5%nat).
Proof.
  split; [|split; [|split; [|split]]].
  - intros. apply fitTreeFuel_total. lia.
  - intros fuel data depth maxDepth g Hf. unfold fitTree.
    destruct (fitTreeFuel_total (Z.to_nat (maxDepth - depth)) data depth maxDepth g
                ltac:(lia)) as (t & g' & E).
    rewrite E. eapply fitTreeFuel_mono; [exact Hf|exact E].
  - intros data depth maxDepth g t g' E. unfold fitTree in E. split.
    + eapply fitTreeFuel_root_depth; exact E.
    + eapply allNodes_impl;
        [|eapply (fitTreeFuel_nodes _ _ _ _ _ _ _ depth (Z.max depth maxDepth));
          [exact E|lia|lia]].
      intros n (_ & Hc & Hi & _). split; [exact Hc|]. intros Hn. apply Hi, Hn.
  - apply splitData_all_right.
  - split; [|split; [|split]]; try (vm_compute; reflexivity).
    eexists. eexists. split; vm_compute; reflexivity.
Qed.

Lemma fitTree_terminates_witness :
  fitTreeFuel 7 [zero; one] 0 3 (constRand Const.c0_5)
  = fitTree [zero; one] 0 3 (constRand Const.c0_5).
Proof.
  apply (proj1 (proj2 fitTree_terminates)). vm_compute. lia.
Defined.

(** ** Forest construction *)

Lemma Intn_range (n i : Z) (g g' : Rand) :
  Intn n g = Ok (i, g') -> 0 <= i < n /\ g' = advance g.
Proof.
  unfold Intn. destruct (n <=? 0) eqn:Hn; [discriminate|].
  apply Z.leb_gt in Hn. intros E; inversion E; subst. split; [|reflexivity].
  apply Z.mod_pos_bound. lia.
Qed.

Lemma index_In {A : Type} (d : A) (s : list A) (i : Z) :
  0 <= i < len s -> In (index d s i) s.
Proof.
  unfold index, len. intros Hi. apply nth_In. lia.
Qed.

(** The inner loop draws [k] elements of [data]; it needs a non-empty
    [data] as soon as it draws at all. *)
Lemma drawSubsample_spec (k : nat) :
  forall data sub g,
    (k = 0%nat \/ 0 < len data) ->
    exists drawn g',
      drawSubsample k data sub g = Ok (sub ++ drawn, g') /\
      length drawn = k /\ Forall (fun v => In v data) drawn /\
      pos g' = (pos g + k)%nat.
Proof.
  induction k as [|k IH]; intros data sub g Hk; cbn [drawSubsample].
  - exists [], g. rewrite app_nil_r, Nat.add_0_r. auto.
  - destruct Hk as [Hk|Hk]; [discriminate|].
    unfold Intn. replace (len data <=? 0) with false by (symmetry; apply Z.leb_gt; lia).
    cbn [bind].
    destruct (IH data (sub ++ [index zero data (intAt g (pos g) mod len data)])
                (advance g) (or_intror Hk)) as (drawn & g' & E & Hlen & Hin & Hpos).
    exists (index zero data (intAt g (pos g) mod len data) :: drawn), g'.
    rewrite E, <- app_assoc. cbn [app length]. repeat split; auto.
    + constructor; [|assumption]. apply index_In. apply Z.mod_pos_bound. lia.
    + rewrite Hpos. cbn [advance pos]. lia.
Qed.

Lemma growTrees_spec (k : nat) :
  forall data psi maxDepth trees g,
    (psi <= 0 \/ 0 < len data) ->
    exists grown g',
      growTrees k data psi maxDepth trees g = Ok (trees ++ grown, g') /\
      length grown = k /\ Forall (grownFrom data psi maxDepth) grown.
Proof.
  induction k as [|k IH]; intros data psi maxDepth trees g Hp; cbn [growTrees].
  - exists [], g. rewrite app_nil_r. auto.
  - destruct (drawSubsample_spec (Z.to_nat psi) data [] g ltac:(lia))
      as (sub & g1 & Es & Hlen & Hin & _).
    rewrite Es. cbn [bind app].
    destruct (fitTreeFuel_total (Z.to_nat (maxDepth - 0)) sub 0 maxDepth g1 ltac:(lia))
      as (t & g2 & Et).
    unfold fitTree at 1. rewrite Et. cbn [bind].
    destruct (IH data psi maxDepth (trees ++ [t]) g2 Hp) as (grown & g' & E & Hk & Hall).
    exists (t :: grown), g'. rewrite E, <- app_assoc. cbn [app length].
    repeat split; auto. constructor; [|assumption].
    exists sub, g1, g2. auto.
Qed.

Lemma clampPsi_range (data : list float64) (psi : Z) :
  0 <= clampPsi data psi <= len data /\ (data <> [] -> 1 <= clampPsi data psi).
Proof.
  unfold clampPsi, len.
  destruct (psi <=? 0) eqn:H0; cbn [orb];
    [|destruct (psi >? Z.of_nat (length data)) eqn:H1].
  all: try (apply Z.leb_le in H0); try (apply Z.leb_gt in H0);
    try (rewrite Z.gtb_ltb in H1);
    try (apply Z.ltb_lt in H1); try (apply Z.ltb_ge in H1);
    (split; [lia|]); intros Hne; destruct data; try congruence; cbn [length]; lia.
Qed.

(** [New] returns a forest for every non-negative tree count: it never
    panics and never exhausts the budget of [fitTree]. *)
Lemma New_spec (data : list float64) (t psi : Z) (g : Rand) :
  0 <= t ->
  exists trees g',
    New data t psi g =
      Ok (mkForest trees (averagePathLength (clampPsi data psi)), g') /\
    length trees = Z.to_nat t /\
    Forall (grownFrom data (clampPsi data psi) (maxDepthOf (clampPsi data psi))) trees.
Proof.
  intros Ht. unfold New.
  replace (t <? 0) with false by (symmetry; apply Z.ltb_ge; lia).
  pose proof (clampPsi_range data psi) as [Hr _].
  destruct (growTrees_spec (Z.to_nat t) data (clampPsi data psi)
              (maxDepthOf (clampPsi data psi)) [] g ltac:(lia))
    as (grown & g' & E & Hlen & Hall).
  rewrite E. cbn [bind app]. eauto.
Qed.

(** ** Rounding: mantissa shifts and signs *)

Lemma digits2_pos_size (p : positive) : digits2_pos p = Pos.size p.
Proof. induction p; cbn; congruence. Qed.

(** A positive mantissa of [d] digits lies in [[2^(d-1), 2^d)]. *)
Lemma digits_bounds (p : positive) :
  2 ^ (Zpos (digits2_pos p) - 1) <= Zpos p < 2 ^ Zpos (digits2_pos p).
Proof.
  rewrite digits2_pos_size. split.
  - pose proof (Pos.size_le p) as Hle.
    assert (E : 2 ^ Zpos (Pos.size p) <= 2 * Zpos p).
    { rewrite <- Pos2Z.inj_pow. change (2 * Zpos p) with (Zpos p~0). exact Hle. }
    replace (Zpos (Pos.size p)) with (Zpos (Pos.size p) - 1 + 1) in E by lia.
    rewrite Z.pow_add_r in E by lia. lia.
  - rewrite <- Pos2Z.inj_pow. exact (Pos.size_gt p).
Qed.

Lemma iter_pos_iter {A : Type} (f : A -> A) (n : positive) :
  forall x, iter_pos f n x = Pos.iter f x n.
Proof.
  induction n as [n IH|n IH|]; intros x; cbn [iter_pos Pos.iter].
  - rewrite !IH, <- !Pos.iter_swap. reflexivity.
  - rewrite !IH. reflexivity.
  - reflexivity.
Qed.

Lemma shr_1_m (mrs : shr_record) :
  0 <= shr_m mrs -> shr_m (shr_1 mrs) = Z.div2 (shr_m mrs).
Proof.
  destruct mrs as [[|[p|p|]|p] r s]; cbn; intros H; try reflexivity; lia.
Qed.

Lemma shr_m_iter (n : positive) (mrs : shr_record) :
  0 <= shr_m mrs ->
  shr_m (iter_pos shr_1 n mrs) = shr_m mrs / 2 ^ Zpos n.
Proof.
  intros Hm. rewrite iter_pos_iter, Pos2Nat.inj_iter.
  rewrite <- (positive_nat_Z n).
  generalize (Pos.to_nat n). intros k.
  induction k as [|k IH].
  - cbn. now rewrite Z.div_1_r.
  - cbn [nat_rect]. rewrite shr_1_m.
    + rewrite IH, Z.div2_div, Nat2Z.inj_succ, Z.pow_succ_r by lia.
      rewrite Z.div_div by lia. f_equal. lia.
    + rewrite IH. apply Z_div_nonneg_nonneg; [lia|apply Z.pow_nonneg; lia].
Qed.

(** Effect of [shr_fexp] on a non-negative mantissa: a right shift by the
    distance to the target exponent when that distance is positive. *)
Lemma shr_fexp_m (m e : Z) (l : location) :
  0 <= m ->
  let n := fexp prec emax (Zdigits2 m + e) - e in
  shr_m (fst (shr_fexp prec emax m e l)) = (if 0 <? n then m / 2 ^ n else m) /\
  snd (shr_fexp prec emax m e l) = (if 0 <? n then e + n else e).
Proof.
  intros Hm n. unfold shr_fexp. fold n.
  assert (Hr : shr_m (shr_record_of_loc m l) = m)
    by (destruct l as [|[]]; reflexivity).
  destruct n as [|p|p]; cbn [shr fst snd Z.ltb Z.compare]; auto.
  rewrite shr_m_iter by lia. rewrite Hr. auto.
Qed.

Lemma round_nearest_even_bounds (m : Z) (l : location) :
  m <= round_nearest_even m l <= m + 1.
Proof.
  destruct l as [|[]]; cbn; try lia. destruct (Z.even m); lia.
Qed.

Ltac case_if :=
  match goal with
  | |- context [if ?b then _ else _] => destruct b eqn:?
  end.

Lemma binary_round_aux_signed (sx : bool) (mx ex : Z) (lx : location) :
  0 <= mx -> signed sx (binary_round_aux prec emax sx mx ex lx).
Proof.
  intros Hm. unfold binary_round_aux.
  pose proof (shr_fexp_m mx ex lx Hm) as [H1 _]. cbv zeta in H1.
  destruct (shr_fexp prec emax mx ex lx) as [mrs' e']. cbn [fst] in H1.
  assert (H1' : 0 <= shr_m mrs').
  { rewrite H1. case_if; [|lia].
    apply Z_div_nonneg_nonneg; [lia|apply Z.pow_nonneg; lia]. }
  pose proof (round_nearest_even_bounds (shr_m mrs') (loc_of_shr_record mrs')) as Hr.
  assert (Hr' : 0 <= round_nearest_even (shr_m mrs') (loc_of_shr_record mrs')) by lia.
  pose proof (shr_fexp_m _ e' loc_Exact Hr') as [H2 _]. cbv zeta in H2.
  destruct (shr_fexp prec emax _ e' loc_Exact) as [mrs'' e'']. cbn [fst] in H2.
  assert (H2' : 0 <= shr_m mrs'').
  { rewrite H2. case_if; [|lia].
    apply Z_div_nonneg_nonneg; [lia|apply Z.pow_nonneg; lia]. }
  unfold signed. destruct (shr_m mrs'') as [|m|m]; [auto| |lia].
  destruct (e'' <=? emax - prec); eauto.
Qed.

Lemma Zdigits2_bounds (m : Z) :
  0 < m -> 0 < Zdigits2 m /\ 2 ^ (Zdigits2 m - 1) <= m < 2 ^ Zdigits2 m.
Proof.
  destruct m as [|p|p]; try lia. intros _. cbn [Zdigits2].
  split; [lia|apply digits_bounds].
Qed.

Lemma Zdigits2_unique (m d : Z) :
  2 ^ (d - 1) <= m < 2 ^ d -> 0 < m -> Zdigits2 m = d.
Proof.
  intros [Hlo Hhi] Hm.
  destruct (Zdigits2_bounds m Hm) as (HD & HDlo & HDhi).
  assert (Hd : 0 < d).
  { destruct (Z_lt_le_dec 0 d) as [|Hneg]; [assumption|].
    destruct (Z.eq_dec d 0) as [->|]; [cbn in Hhi; lia|].
    rewrite (Z.pow_neg_r 2 d) in Hhi by lia. lia. }
  destruct (Z_lt_le_dec (Zdigits2 m) d) as [Hlt|Hge].
  - pose proof (Z.pow_le_mono_r 2 (Zdigits2 m) (d - 1) ltac:(lia) ltac:(lia)). lia.
  - destruct (Z.eq_dec (Zdigits2 m) d) as [|Hne]; [assumption|].
    pose proof (Z.pow_le_mono_r 2 d (Zdigits2 m - 1) ltac:(lia) ltac:(lia)). lia.
Qed.

Lemma Zdigits2_mono (a b : Z) : 0 < a <= b -> Zdigits2 a <= Zdigits2 b.
Proof.
  intros [Ha Hab].
  destruct (Zdigits2_bounds a Ha) as (Da & Hla & Hha).
  destruct (Zdigits2_bounds b ltac:(lia)) as (Db & Hlb & Hhb).
  destruct (Z_lt_le_dec (Zdigits2 b) (Zdigits2 a)) as [Hlt|]; [|assumption].
  pose proof (Z.pow_le_mono_r 2 (Zdigits2 b) (Zdigits2 a - 1) ltac:(lia) ltac:(lia)).
  lia.
Qed.

Lemma Zdigits2_shift (m n : Z) :
  0 < m -> 0 <= n < Zdigits2 m ->
  0 < m / 2 ^ n /\ Zdigits2 (m / 2 ^ n) = Zdigits2 m - n.
Proof.
  intros Hm Hn. destruct (Zdigits2_bounds m Hm) as (HD & Hlo & Hhi).
  assert (Hp : 0 < 2 ^ n) by (apply Z.pow_pos_nonneg; lia).
  assert (Hlo' : 2 ^ (Zdigits2 m - n - 1) <= m / 2 ^ n).
  { apply Z.div_le_lower_bound; [assumption|].
    rewrite <- Z.pow_add_r by lia.
    replace (n + (Zdigits2 m - n - 1)) with (Zdigits2 m - 1) by lia. assumption. }
  assert (Hhi' : m / 2 ^ n < 2 ^ (Zdigits2 m - n)).
  { apply Z.div_lt_upper_bound; [assumption|].
    rewrite <- Z.pow_add_r by lia.
    replace (n + (Zdigits2 m - n)) with (Zdigits2 m) by lia. assumption. }
  assert (Hq : 0 < m / 2 ^ n).
  { pose proof (Z.pow_pos_nonneg 2 (Zdigits2 m - n - 1) ltac:(lia) ltac:(lia)). lia. }
  split; [assumption|]. apply Zdigits2_unique; [split|]; assumption.
Qed.

Lemma fexp_normal (x : Z) :
  emin prec emax <= x - prec -> fexp prec emax x = x - prec.
Proof. unfold fexp. lia. Qed.

(** In the normal range [shr_fexp] keeps the mantissa positive and the
    magnitude [digits + exponent] unchanged. *)
Lemma shr_fexp_normal (m e : Z) (l : location) :
  0 < m -> emin prec emax <= Zdigits2 m + e - prec ->
  0 < shr_m (fst (shr_fexp prec emax m e l)) /\
  Zdigits2 (shr_m (fst (shr_fexp prec emax m e l))) + snd (shr_fexp prec emax m e l)
  = Zdigits2 m + e.
Proof.
  intros Hm Hn.
  destruct (shr_fexp_m m e l ltac:(lia)) as [E1 E2]. cbv zeta in E1, E2.
  rewrite E1, E2, (fexp_normal _ Hn).
  destruct (Zdigits2_bounds m Hm) as (HD & _).
  destruct (0 <? Zdigits2 m + e - prec - e) eqn:Hs.
  - apply Z.ltb_lt in Hs.
    destruct (Zdigits2_shift m (Zdigits2 m + e - prec - e) Hm
                ltac:(unfold prec in *; lia)) as [Hq Hd].
    rewrite Hd. split; [assumption|lia].
  - split; [assumption|reflexivity].
Qed.

Lemma binary_round_aux_positive (mx ex : Z) (lx : location) :
  0 < mx -> emin prec emax <= Zdigits2 mx + ex - prec ->
  strictlyPos (binary_round_aux prec emax false mx ex lx).
Proof.
  intros Hm Hn. unfold binary_round_aux.
  destruct (shr_fexp_normal mx ex lx Hm Hn) as [P1 D1].
  destruct (shr_fexp prec emax mx ex lx) as [mrs' e']. cbn [fst snd] in P1, D1.
  pose proof (round_nearest_even_bounds (shr_m mrs') (loc_of_shr_record mrs')) as Hr.
  set (m'' := round_nearest_even (shr_m mrs') (loc_of_shr_record mrs')) in *.
  pose proof (Zdigits2_mono (shr_m mrs') m'' ltac:(lia)) as Hmono.
  destruct (shr_fexp_normal m'' e' loc_Exact ltac:(lia) ltac:(lia)) as [P2 _].
  destruct (shr_fexp prec emax m'' e' loc_Exact) as [mrs'' e'']. cbn [fst] in P2.
  unfold strictlyPos. destruct (shr_m mrs'') as [|m|m]; try lia.
  destruct (e'' <=? emax - prec); eauto.
Qed.

Lemma shl_align_spec (mx : positive) (ex ex' : Z) :
  let '(mz, ez) := shl_align mx ex ex' in
  Zdigits2 (Zpos mz) + ez = Zdigits2 (Zpos mx) + ex.
Proof.
  unfold shl_align. destruct (ex' - ex) as [|d|d] eqn:E; try reflexivity.
  fold (shift_pos d mx).
  assert (Hv : Zpos (shift_pos d mx) = Zpos mx * 2 ^ Zpos d).
  { rewrite shift_pos_correct. change (Z.pow_pos 2 d) with (2 ^ Zpos d). lia. }
  destruct (Zdigits2_bounds (Zpos mx) ltac:(lia)) as (HD & Hlo & Hhi).
  rewrite (Zdigits2_unique (Zpos (shift_pos d mx)) (Zdigits2 (Zpos mx) + Zpos d));
    [lia| |lia].
  rewrite Hv.
  replace (Zdigits2 (Zpos mx) + Zpos d - 1) with (Zdigits2 (Zpos mx) - 1 + Zpos d) by lia.
  rewrite !Z.pow_add_r by lia.
  assert (0 < 2 ^ Zpos d) by (apply Z.pow_pos_nonneg; lia). nia.
Qed.

(** [float64(n)] of a positive integer is a positive number or [+Inf]. *)
Lemma of_int_positive (n : Z) : 0 < n -> strictlyPos (of_int n).
Proof.
  destruct n as [|p|p]; try lia. intros _.
  unfold of_int, binary_normalize, binary_round.
  pose proof (shl_align_spec p 0 (fexp prec emax (Zpos (digits2_pos p) + 0))) as Ha.
  destruct (shl_align p 0 _) as [mz ez].
  apply binary_round_aux_positive; [lia|].
  rewrite Ha. destruct (Zdigits2_bounds (Zpos p) ltac:(lia)) as (HD & _).
  unfold emin, prec, emax. lia.
Qed.

(** ** Constant subsamples *)

Lemma minMax_fold_constant (c : float64) (l : list float64) :
  forall a b,
    (a =? c)%f64 = true -> (b =? c)%f64 = true -> constantSeries c l ->
    fold_left minMaxStep l (a, b) = (a, b).
Proof.
  induction l as [|v l IH]; intros a b Ha Hb Hl; [reflexivity|].
  inversion Hl as [|v' l' Hv Hl']; subst. cbn [fold_left minMaxStep].
  destruct (eqb_common v a c Hv Ha) as (_ & Hlt & _).
  destruct (eqb_common v b c Hv Hb) as (_ & _ & Hgt).
  rewrite Hlt, Hgt. apply IH; assumption.
Qed.

(** On a constant subsample the running minimum and maximum are both the
    first element, and they compare equal. *)
Lemma minMax_constant (c : float64) (data : list float64) :
  constantSeries c data -> data <> [] ->
  minMax data = (index zero data 0, index zero data 0) /\
  (fst (minMax data) =? snd (minMax data))%f64 = true.
Proof.
  intros Hc Hne. destruct data as [|d0 data]; [congruence|].
  assert (Hd0 : (d0 =? c)%f64 = true) by (inversion Hc; assumption).
  assert (E : minMax (d0 :: data) = (d0, d0)).
  { unfold minMax. change (index zero (d0 :: data) 0) with d0.
    apply (minMax_fold_constant c); assumption. }
  rewrite E. split; [reflexivity|].
  cbn [fst snd]. apply (eqb_common d0 d0 c); assumption.
Qed.

(** An empty, singleton or constant-valued subsample gives a leaf carrying
    the depth of the call, and draws nothing. *)
Lemma fitTree_early_leaf (data : list float64) (depth maxDepth : Z) (g : Rand) :
  len data <= 1 \/ (exists c, constantSeries c data) ->
  fitTree data depth maxDepth g = Ok (leafAt depth, g).
Proof.
  intros H. apply fitTreeFuel_leaf. unfold isLeafCase.
  destruct H as [H|[c Hc]]; [auto|].
  destruct data as [|d0 data]; [right; left; cbn; lia|].
  right. right. apply (minMax_constant c); [assumption|discriminate].
Qed.

Lemma constantSeries_sub (c : float64) (data sub : list float64) :
  constantSeries c data -> Forall (fun v => In v data) sub -> constantSeries c sub.
Proof.
  unfold constantSeries. rewrite !Forall_forall. intros Hc Hs v Hv.
  apply Hc, Hs, Hv.
Qed.

(** ** Path length over leaves *)

Lemma pathLength_leaves (trees : list Tree) (x : float64) :
  Forall (fun t => t = leafAt 0) trees ->
  fold_left (fun pl t => pl + pathLenTree t x)%f64 trees zero = zero.
Proof.
  induction 1 as [|t trees Ht _ IH]; [reflexivity|].
  cbn [fold_left]. subst t. exact IH.
Qed.

Lemma zero_div_strictlyPos (y : float64) : strictlyPos y -> (zero / y)%f64 = zero.
Proof. intros [->|(m & e & ->)]; reflexivity. Qed.

(** For the subsample sizes the detector uses (at most 64) the
    normalisation constant is a positive finite number. *)
Lemma averagePathLength_small (psi : Z) :
  2 <= psi <= 64 -> finitePosb (averagePathLength psi) = true.
Proof.
  intros Hpsi.
  assert (Hall : forallb (fun k => finitePosb (averagePathLength (Z.of_nat k)))
                   (seq 2 63) = true) by (vm_compute; reflexivity).
  rewrite forallb_forall in Hall.
  rewrite <- (Z2Nat.id psi) by lia. apply Hall. apply in_seq. lia.
Qed.

Lemma finitePosb_nonzero (y : float64) :
  finitePosb y = true ->
  (y =? zero)%f64 = false /\ (- zero / y)%f64 = S754_zero true.
Proof.
  destruct y as [s|s| |[] m e]; cbn; try discriminate. auto.
Qed.

Section ScoringProps.

Variable Pow : float64 -> float64 -> float64.

(** C1. On a constant-valued series (all values [==] to one another, any
    length, any requested subsample size) [New] returns a forest, without
    panic, whose every tree is an immediate leaf at depth 0; with at least
    one tree the path length of every point is 0 and the score is 0 when
    [C] is 0 and [2^(-0/C)] otherwise, in particular for every clamped
    subsample size from 2 to 64.  On a series of at most one point, of any
    value, [New] returns as well, every tree is a leaf at depth 0, [C] is 0
    and every score is 0. *)
Theorem constant_series_scores :
  (forall c data t psi g,
     constantSeries c data -> 0 < t ->
     exists f g',
       New data t psi g = Ok (f, g') /\
       Forall (fun tr => tr = leafAt 0) (Trees f) /\
       C f = averagePathLength (clampPsi data psi) /\
       forall x,
         pathLength f x = zero /\
         Score Pow f x =
           (if (C f =? zero)%f64 then zero else Pow two (- zero / C f)%f64) /\
         (2 <= clampPsi data psi <= 64 ->
          Score Pow f x = Pow two (- zero / C f)%f64 /\
          (- zero / C f)%f64 = S754_zero true)) /\
  (forall data t psi g,
     len data <= 1 -> 0 <= t ->
     exists f g',
       New data t psi g = Ok (f, g') /\
       Forall (fun tr => tr = leafAt 0) (Trees f) /\
       C f = zero /\
       forall x, Score Pow f x = zero).
Proof.
  split.
  - intros c data t psi g Hc Ht.
    destruct (New_spec data t psi g ltac:(lia)) as (trees & g' & E & Hlen & Hall).
    exists (mkForest trees (averagePathLength (clampPsi data psi))), g'.
    assert (Hleaves : Forall (fun tr => tr = leafAt 0) trees).
    { eapply Forall_impl; [|exact Hall].
      intros tr (sub & g1 & g2 & _ & Hin & Efit).
      rewrite (fitTree_early_leaf sub 0 _ g1) in Efit
        by (right; exists c; eapply constantSeries_sub; eassumption).
      inversion Efit. reflexivity. }
    assert (Hpl : forall x, pathLength (mkForest trees
                    (averagePathLength (clampPsi data psi))) x = zero).
    { intros x. unfold pathLength. cbn [Trees].
      rewrite (pathLength_leaves trees x Hleaves).
      apply zero_div_strictlyPos, of_int_positive. unfold len. lia. }
    split; [exact E|]. split; [exact Hleaves|]. split; [reflexivity|].
    intros x. split; [apply Hpl|]. split.
    + unfold Score. rewrite Hpl. reflexivity.
    + intros Hpsi. unfold Score. rewrite Hpl. cbn [C].
      destruct (finitePosb_nonzero _ (averagePathLength_small _ Hpsi)) as [-> Hz].
      split; [reflexivity|exact Hz].
  - intros data t psi g Hlen Ht.
    destruct (New_spec data t psi g Ht) as (trees & g' & E & _ & Hall).
    pose proof (clampPsi_range data psi) as [Hr _].
    assert (HC : averagePathLength (clampPsi data psi) = zero)
      by (apply averagePathLength_le1; lia).
    rewrite HC in E.
    exists (mkForest trees zero), g'.
    split; [exact E|]. split; [|split; [reflexivity|reflexivity]].
    cbn [Trees]. eapply Forall_impl; [|exact Hall].
    intros tr (sub & g1 & g2 & Hsub & _ & Efit).
    rewrite (fitTree_early_leaf sub 0 _ g1) in Efit by (left; unfold len; lia).
    inversion Efit. reflexivity.
Qed.

End ScoringProps.

Lemma constant_series_scores_witness :
  exists f g',
    New [Const.c3_5; Const.c3_5; Const.c3_5] 4 64 (constRand Const.c0_5) = Ok (f, g') /\
    Forall (fun tr => tr = leafAt 0) (Trees f).
Proof.
  destruct (proj1 (constant_series_scores (fun _ y => y)) Const.c3_5
              [Const.c3_5; Const.c3_5; Const.c3_5] 4 64 (constRand Const.c0_5))
    as (f & g' & E & Hl & _).
  - repeat constructor.
  - lia.
  - exists f, g'. split; assumption.
Defined.

(** ** Depth invariant *)

Lemma maxDepthOf_nonneg (psi : Z) : 1 <= psi -> 0 <= maxDepthOf psi.
Proof.
  intros H. unfold maxDepthOf.
  replace (psi <=? 0) with false by (symmetry; apply Z.leb_gt; lia).
  apply Z.log2_up_nonneg.
Qed.

(** C7. For a non-empty series and any tree count and requested subsample
    size, [New] returns a forest in which the depth of every node of every
    tree lies between 0 and [maxDepthOf] of the clamped subsample size,
    which is [ceil(log2 psi)] (0 at [psi = 1]); and [fitTree] on an empty,
    singleton or constant-valued subsample returns a leaf. *)
Theorem depth_invariant :
  (forall data t psi g,
      data <> [] -> 0 <= t ->
      exists f g',
        New data t psi g = Ok (f, g') /\
        length (Trees f) = Z.to_nat t /\
        Forall (allNodes (fun n => 0 <= Depth n <= maxDepthOf (clampPsi data psi)))
               (Trees f)) /\
  maxDepthOf 1 = 0 /\
  (forall psi, 2 <= psi ->
      2 ^ (maxDepthOf psi - 1) < psi <= 2 ^ maxDepthOf psi) /\
  (forall data depth maxDepth g,
      len data <= 1 \/ (exists c, constantSeries c data) ->
      fitTree data depth maxDepth g = Ok (leafAt depth, g)).
Proof.
  split; [|split; [|split]].
  - intros data t psi g Hne Ht.
    destruct (New_spec data t psi g Ht) as (trees & g' & E & Hlen & Hall).
    exists (mkForest trees (averagePathLength (clampPsi data psi))), g'.
    repeat split; trivial. cbn [Trees].
    eapply Forall_impl; [|exact Hall].
    intros tr (sub & g1 & g2 & _ & _ & Efit).
    pose proof (maxDepthOf_nonneg _ (proj2 (clampPsi_range data psi) Hne)) as Hmd.
    eapply allNodes_impl;
      [|eapply (fitTreeFuel_nodes _ _ _ _ _ _ _ 0 (maxDepthOf (clampPsi data psi)));
        [exact Efit|lia|lia]].
    intros n (Hd & _). exact Hd.
  - reflexivity.
  - intros psi Hpsi. unfold maxDepthOf.
    replace (psi <=? 0) with false by (symmetry; apply Z.leb_gt; lia).
    pose proof (Z.log2_up_spec psi ltac:(lia)) as Hs.
    unfold Z.pred in Hs. replace (Z.log2_up psi - 1) with (Z.log2_up psi + -1) by lia.
    exact Hs.
  - apply fitTree_early_leaf.
Qed.

Lemma depth_invariant_witness :
  exists f g',
    New [zero; one; two] 2 0 (constRand Const.c0_5) = Ok (f, g') /\
    length (Trees f) = Z.to_nat 2 /\
    Forall (allNodes (fun n => 0 <= Depth n <= maxDepthOf (clampPsi [zero; one; two] 0)))
           (Trees f).
Proof.
  apply (proj1 depth_invariant); [discriminate|lia].
Defined.

(** ** Scores of a forest without trees *)

Section ScoreRange.

Variable Pow : float64 -> float64 -> float64.

(** [math.Pow]: "Pow(x, NaN) = NaN" (for [x] other than 1). *)
Hypothesis Pow_nan : Pow two nan = nan.

(** Why the properties of the scores ask for at least one tree: with a tree
    count of 0, which [detectAnomalies] never passes (it asks for 100
    trees), [New] returns a forest without trees; on the two-point series
    [0, 1] its constant [C] is 1, [pathLength] divides 0 by [float64(0)]
    and is NaN, and so is the score. *)
Lemma Score_without_trees :
  forall g x,
    exists f,
      New [zero; one] 0 2 g = Ok (f, g) /\
      Trees f = [] /\
      C f = one /\
      pathLength f x = nan /\
      Score Pow f x = nan.
Proof.
  intros g x. exists (mkForest [] one).
  assert (E : Score Pow (mkForest [] one) x = nan).
  { unfold Score. cbn [C]. change (one =? zero)%f64 with false. cbv iota.
    change (pathLength (mkForest [] one) x) with nan.
    change (- nan / one)%f64 with nan. exact Pow_nan. }
  rewrite E. repeat split.
Qed.

End ScoreRange.

(** ** Exact roundings *)

Lemma nat_rect_swap {A : Type} (f : A -> A) (n : nat) :
  forall x, nat_rect (fun _ => A) (f x) (fun _ => f) n
            = f (nat_rect (fun _ => A) x (fun _ => f) n).
Proof. induction n as [|n IH]; intros x; cbn; [reflexivity|now rewrite IH]. Qed.

(** Shifting out [k] zero bits leaves no round or sticky bit. *)
Lemma shr_shifted (k m : positive) :
  iter_pos shr_1 k (Build_shr_record (Zpos (shift_pos k m)) false false)
  = Build_shr_record (Zpos m) false false.
Proof.
  rewrite iter_pos_iter, Pos2Nat.inj_iter, shift_pos_nat.
  induction (Pos.to_nat k) as [|n IH]; [reflexivity|].
  cbn [nat_rect shift_nat]. rewrite <- nat_rect_swap. cbn [shr_1 orb]. exact IH.
Qed.

Lemma Zdigits2_shift_pos (k m : positive) :
  Zdigits2 (Zpos (shift_pos k m)) = Zdigits2 (Zpos m) + Zpos k.
Proof.
  pose proof (shl_align_spec m (Zpos k) 0) as H.
  unfold shl_align in H. cbn [Z.sub Z.opp Z.add] in H.
  fold (shift_pos k m) in H. lia.
Qed.

Lemma bounded_inv (m : positive) (e : Z) :
  bounded prec emax m e = true ->
  fexp prec emax (Zdigits2 (Zpos m) + e) = e /\ e <= emax - prec.
Proof.
  unfold bounded, canonical_mantissa. rewrite andb_true_iff, Z.eqb_eq, Z.leb_le.
  cbn [Zdigits2]. tauto.
Qed.

(** Rounding a representable number, given with [k] extra low zero bits,
    returns it. *)
Lemma binary_round_aux_exact (sx : bool) (m : positive) (e : Z) :
  bounded prec emax m e = true ->
  binary_round_aux prec emax sx (Zpos m) e loc_Exact = S754_finite sx m e.
Proof.
  intros Hb. destruct (bounded_inv m e Hb) as [Hc He].
  unfold binary_round_aux, shr_fexp. rewrite Hc, Z.sub_diag. cbn [shr].
  cbn [shr_record_of_loc shr_m loc_of_shr_record round_nearest_even].
  rewrite Hc, Z.sub_diag. cbn [shr shr_record_of_loc shr_m].
  apply Z.leb_le in He. rewrite He. reflexivity.
Qed.

Lemma binary_round_aux_exact_shifted (sx : bool) (k m : positive) (e : Z) :
  bounded prec emax m e = true ->
  binary_round_aux prec emax sx (Zpos (shift_pos k m)) (e - Zpos k) loc_Exact
  = S754_finite sx m e.
Proof.
  intros Hb. destruct (bounded_inv m e Hb) as [Hc He].
  unfold binary_round_aux, shr_fexp.
  rewrite Zdigits2_shift_pos.
  replace (Zdigits2 (Zpos m) + Zpos k + (e - Zpos k)) with (Zdigits2 (Zpos m) + e) by lia.
  rewrite Hc. replace (e - (e - Zpos k)) with (Zpos k) by lia.
  cbn [shr shr_record_of_loc]. rewrite shr_shifted.
  cbn [shr_m loc_of_shr_record round_nearest_even].
  replace (e - Zpos k + Zpos k) with e by lia.
  rewrite Hc, Z.sub_diag. cbn [shr shr_record_of_loc shr_m].
  apply Z.leb_le in He. rewrite He. reflexivity.
Qed.

Lemma div_eucl_exact (q b : Z) : 0 < b -> Z.div_eucl (q * b) b = (q, 0).
Proof.
  intros Hb.
  generalize (Z.div_mul q b ltac:(lia)) (Z.mod_mul q b ltac:(lia)).
  unfold Z.div, Z.modulo. destruct (Z.div_eucl (q * b) b) as [q' r'].
  intros -> ->. reflexivity.
Qed.

(** Dividing a representable number by 1 returns it. *)
Lemma div_one_finite (sx : bool) (mx : positive) (ex : Z) :
  bounded prec emax mx ex = true ->
  (S754_finite sx mx ex / one)%f64 = S754_finite sx mx ex.
Proof.
  intros Hb. destruct (bounded_inv mx ex Hb) as [Hc He].
  destruct (Zdigits2_bounds (Zpos mx) ltac:(lia)) as (HD & _).
  unfold div, SFdiv, one, SFdiv_core_binary.
  change (Zdigits2 (Zpos 4503599627370496)) with 53.
  rewrite xorb_false_r.
  set (e' := Z.min _ _).
  assert (He' : (Zdigits2 (Zpos mx) = 53 /\ ex <> -1074 /\ e' = ex - 1) \/ e' = ex).
  { subst e'. unfold fexp, emin, prec, emax in *. lia. }
  destruct He' as [(HD53 & Hex & ->)| ->].
  - replace (ex - -52 - (ex - 1)) with 53 by lia.
    rewrite Z.shiftl_mul_pow2 by lia.
    replace (Zpos mx * 2 ^ 53) with (Zpos (shift_pos 1 mx) * 4503599627370496)
      by (cbn [shift_pos Pos.iter]; lia).
    rewrite div_eucl_exact by lia.
    change (new_location 4503599627370496 0) with loc_Exact.
    apply (binary_round_aux_exact_shifted sx 1 mx ex Hb).
  - replace (ex - -52 - ex) with 52 by lia.
    rewrite Z.shiftl_mul_pow2 by lia.
    change (2 ^ 52) with 4503599627370496.
    rewrite div_eucl_exact by lia.
    change (new_location 4503599627370496 0) with loc_Exact.
    apply (binary_round_aux_exact sx mx ex Hb).
Qed.

Lemma sub_diag_finite (s : bool) (m : positive) (e : Z) :
  (S754_finite s m e - S754_finite s m e)%f64 = zero.
Proof.
  unfold sub, SFsub. cbv zeta. rewrite Z.sub_diag. reflexivity.
Qed.

(** ** Normalizer *)

Lemma sum_loop_fsum (x : list float64) :
  forall acc, fold_left (fun sum v => sum + v)%f64 x acc = fsum acc x.
Proof. induction x as [|v x IH]; intros acc; cbn; [reflexivity|apply IH]. Qed.

Lemma ss_loop_fsum (mu : float64) (x : list float64) :
  forall acc,
    fold_left (fun ss v => let d := (v - mu)%f64 in ss + d * d)%f64 x acc
    = fsum acc (map (fun v => (v - mu) * (v - mu))%f64 x).
Proof. induction x as [|v x IH]; intros acc; cbn; [reflexivity|apply IH]. Qed.

Lemma meanStd_nonempty (x : list float64) :
  x <> [] -> meanStd x = (mean x, sqrt (meanSqDev x)).
Proof.
  intros Hne. unfold meanStd, mean, meanSqDev.
  replace (len x =? 0) with false
    by (symmetry; apply Z.eqb_neq; destruct x; [congruence|unfold len; cbn; lia]).
  rewrite sum_loop_fsum, ss_loop_fsum. reflexivity.
Qed.

Lemma meanStd_singleton (v : float64) :
  finite v ->
  snd (meanStd [v]) = zero /\ (fst (meanStd [v]) =? v)%f64 = true.
Proof.
  intros (Hv & Hn & Hi).
  destruct v as [s|s| |s m e]; try discriminate.
  - destruct s; split; reflexivity.
  - assert (E : meanStd [S754_finite s m e] =
                  let mu := (S754_finite s m e / one)%f64 in
                  (mu, sqrt ((zero + (S754_finite s m e - mu) * (S754_finite s m e - mu))
                             / one)%f64)) by reflexivity.
    cbv zeta in E. rewrite (div_one_finite s m e Hv), sub_diag_finite in E.
    split; [exact (f_equal snd E)|].
    assert (G : forall a : float64,
               a = S754_finite s m e -> (a =? S754_finite s m e)%f64 = true)
      by (intros a ->; apply eqb_refl; reflexivity).
    apply G. exact (f_equal fst E).
Qed.

(** C2 (amended). [meanStd] returns mean 0 and deviation 1 for the empty
    series, deviation 0 (and a mean equal to the value) for a series of one
    finite value, and otherwise the mean and the square root of the mean
    squared deviation, summed left to right; [normalize] maps every
    element [v] to [(v - mu) / (sd + 1e-9)], position by position. *)
Theorem normalizer_contract :
  meanStd [] = (zero, one) /\
  (forall v, finite v ->
     snd (meanStd [v]) = zero /\ (fst (meanStd [v]) =? v)%f64 = true) /\
  (forall x, x <> [] -> meanStd x = (mean x, sqrt (meanSqDev x))) /\
  (forall x,
     normalize x =
       map (fun v => ((v - fst (meanStd x)) / (snd (meanStd x) + Const.c1e_9))%f64) x /\
     len (normalize x) = len x) /\
  (forall x i, 0 <= i < len x ->
     index zero (normalize x) i =
       ((index zero x i - fst (meanStd x)) / (snd (meanStd x) + Const.c1e_9))%f64).
Proof.
  assert (Hn : forall x, normalize x =
     map (fun v => ((v - fst (meanStd x)) / (snd (meanStd x) + Const.c1e_9))%f64) x).
  { intros x. unfold normalize. destruct (meanStd x). reflexivity. }
  split; [reflexivity|]. split; [exact meanStd_singleton|].
  split; [exact meanStd_nonempty|]. split.
  - intros x. split; [apply Hn|]. rewrite Hn. unfold len. now rewrite length_map.
  - intros x i Hi. rewrite Hn. unfold index, len in *.
    rewrite (nth_indep _ zero
               ((zero - fst (meanStd x)) / (snd (meanStd x) + Const.c1e_9))%f64)
      by (rewrite length_map; lia).
    apply (map_nth (fun v => ((v - fst (meanStd x)) / (snd (meanStd x) + Const.c1e_9))%f64)).
Qed.

Lemma normalizer_contract_witness :
  snd (meanStd [Const.c3_5]) = zero /\
  meanStd [zero; two] = (mean [zero; two], sqrt (meanSqDev [zero; two])) /\
  index zero (normalize [zero; two]) 1 =
    ((index zero [zero; two] 1 - fst (meanStd [zero; two]))
     / (snd (meanStd [zero; two]) + Const.c1e_9))%f64.
Proof.
  split; [|split].
  - apply (proj1 (proj2 normalizer_contract)). repeat split.
  - apply (proj1 (proj2 (proj2 normalizer_contract))). discriminate.
  - apply (proj2 (proj2 (proj2 (proj2 normalizer_contract)))).
    unfold len. simpl. lia.
Defined.

(** C2 as stated, at the empty series: its length is at most 1 and the
    deviation returned for it is 1, not 0. *)
Lemma normalizer_empty_series_deviation :
  len (@nil float64) <= 1 /\
  snd (meanStd []) = one /\
  (snd (meanStd []) =? zero)%f64 = false.
Proof. repeat split. vm_compute. discriminate. Qed.

(** ** The order on numbers *)

Lemma lexcmp_spec (a b : Z * Z * Z) :
  CompareSpec (a = b) (lexlt a b) (lexlt b a) (lexcmp a b).
Proof.
  destruct a as [[a1 a2] a3], b as [[b1 b2] b3]. unfold lexcmp, lexlt.
  destruct (Z.compare_spec a1 b1); [|constructor; lia|constructor; lia].
  destruct (Z.compare_spec a2 b2); [|constructor; lia|constructor; lia].
  destruct (Z.compare_spec a3 b3); constructor; try lia. congruence.
Qed.

Lemma SFcompare_key (x y : float64) :
  IsNaN x = false -> IsNaN y = false ->
  SFcompare x y = Some (lexcmp (key x) (key y)).
Proof.
  destruct x as [sx|sx| |sx mx ex], y as [sy|sy| |sy my ey];
    cbn [IsNaN]; intros Hx Hy; try discriminate;
    try (destruct sx; try destruct sy; reflexivity);
    try (destruct sy; reflexivity).
  destruct sx, sy; try reflexivity; unfold SFcompare, key, lexcmp.
  change (-1 ?= -1) with Eq. cbv iota.
  rewrite Z.compare_opp, (Z.compare_antisym ex ey).
  fold (Pos.compare mx my).
  change (- Zpos mx ?= - Zpos my) with (CompOpp (mx ?= my)%positive).
  destruct (ex ?= ey); reflexivity.
Qed.

Lemma ltb_true_key (x y : float64) :
  (x <? y)%f64 = true <->
  IsNaN x = false /\ IsNaN y = false /\ lexlt (key x) (key y).
Proof.
  unfold ltb, SFltb. split.
  - intros H.
    assert (Hx : IsNaN x = false) by (destruct x; trivial; discriminate).
    assert (Hy : IsNaN y = false)
      by (destruct y; trivial; destruct x; discriminate).
    rewrite (SFcompare_key x y Hx Hy) in H.
    destruct (lexcmp_spec (key x) (key y)); try discriminate. auto.
  - intros (Hx & Hy & Hlt). rewrite (SFcompare_key x y Hx Hy).
    destruct (lexcmp_spec (key x) (key y)) as [E|_|Hgt]; trivial.
    + rewrite E in Hlt. destruct (key y) as [[? ?] ?]. unfold lexlt in Hlt. lia.
    + destruct (key x) as [[? ?] ?], (key y) as [[? ?] ?]. unfold lexlt in *. lia.
Qed.

Lemma ltb_irrefl (x : float64) : (x <? x)%f64 = false.
Proof.
  destruct (x <? x)%f64 eqn:E; trivial.
  apply ltb_true_key in E. destruct E as (_ & _ & Hlt).
  destruct (key x) as [[? ?] ?]. unfold lexlt in Hlt. lia.
Qed.

Lemma ltb_trans (x y z : float64) :
  (x <? y)%f64 = true -> (y <? z)%f64 = true -> (x <? z)%f64 = true.
Proof.
  rewrite !ltb_true_key. intros (Hx & Hy & H1) (_ & Hz & H2).
  repeat split; trivial.
  destruct (key x) as [[? ?] ?], (key y) as [[? ?] ?], (key z) as [[? ?] ?].
  unfold lexlt in *. lia.
Qed.

Lemma ltb_false_trans (x y z : float64) :
  IsNaN x = false -> IsNaN y = false -> IsNaN z = false ->
  (x <? y)%f64 = false -> (y <? z)%f64 = false -> (x <? z)%f64 = false.
Proof.
  intros Hx Hy Hz H1 H2.
  destruct (x <? z)%f64 eqn:E; trivial. exfalso.
  apply ltb_true_key in E. destruct E as (_ & _ & Hlt).
  assert (N1 : ~ lexlt (key x) (key y))
    by (intros L; rewrite (proj2 (ltb_true_key x y)) in H1; auto; discriminate).
  assert (N2 : ~ lexlt (key y) (key z))
    by (intros L; rewrite (proj2 (ltb_true_key y z)) in H2; auto; discriminate).
  destruct (key x) as [[? ?] ?], (key y) as [[? ?] ?], (key z) as [[? ?] ?].
  unfold lexlt in *. lia.
Qed.

(** Between numbers, "not less" is "greater or equal". *)
Lemma ltb_false_geb (x y : float64) :
  IsNaN x = false -> IsNaN y = false ->
  (x <? y)%f64 = false -> (x >=? y)%f64 = true.
Proof.
  intros Hx Hy. unfold ltb, geb, SFltb, SFleb.
  rewrite (SFcompare_antisym x y), (SFcompare_key x y Hx Hy).
  destruct (lexcmp (key x) (key y)); cbn; congruence.
Qed.

(** ** Signs of sums and quotients *)

Lemma signed_not_nan (s : bool) (x : float64) : signed s x -> IsNaN x = false.
Proof. intros [->|[->|(m & e & ->)]]; reflexivity. Qed.

Lemma binary_round_signed (sx : bool) (mx : positive) (ex : Z) :
  signed sx (binary_round prec emax sx mx ex).
Proof.
  unfold binary_round. destruct (shl_align mx ex _) as [mz ez].
  apply binary_round_aux_signed. lia.
Qed.

Lemma of_int_signed (d : Z) : 0 <= d -> signed false (of_int d).
Proof.
  destruct d as [|p|p]; try lia; intros _.
  - left. reflexivity.
  - apply binary_round_signed.
Qed.

Lemma add_signed (x y : float64) :
  signed false x -> signed false y -> signed false (x + y)%f64.
Proof.
  intros [->|[->|(mx & ex & ->)]] [->|[->|(my & ey & ->)]];
    try (cbn; unfold signed; eauto; fail).
  unfold add, SFadd. cbv zeta. cbn [cond_Zopp Z.add].
  apply binary_round_signed.
Qed.

Lemma neg_signed (s : bool) (x : float64) : signed s x -> signed (negb s) (- x)%f64.
Proof.
  intros [->|[->|(m & e & ->)]]; cbn; unfold signed; eauto.
Qed.

Lemma div_signed (s : bool) (x y : float64) :
  signed s x -> finitePosb y = true -> signed s (x / y)%f64.
Proof.
  intros Hx Hy. destruct y as [sy|sy| |[] my ey]; try discriminate.
  destruct Hx as [->|[->|(mx & ex & ->)]];
    try (cbn; rewrite xorb_false_r; unfold signed; eauto; fail).
  unfold div, SFdiv, SFdiv_core_binary. rewrite xorb_false_r.
  set (e' := Z.min _ _). set (m' := match _ with 0 => _ | Zpos _ => _ | Zneg _ => _ end).
  assert (Hm' : 0 <= m').
  { subst m'. destruct (ex - ey - e'); try lia.
    rewrite Z.shiftl_mul_pow2 by lia.
    apply Z.mul_nonneg_nonneg; [lia|apply Z.pow_nonneg; lia]. }
  pose proof (Z.div_pos m' (Zpos my) Hm' ltac:(lia)) as Hq.
  unfold Z.div in Hq. destruct (Z.div_eucl m' (Zpos my)) as [q r].
  apply binary_round_aux_signed. exact Hq.
Qed.

(** ** Path lengths are converted depths *)

Lemma pathLenTree_depth (x : float64) :
  forall t, allNodes (fun n => 0 <= Depth n) t ->
            exists d, 0 <= d /\ pathLenTree t x = of_int d.
Proof.
  fix IH 1. intros [sp [l|] [r|] leaf depth]; cbn [allNodes Left Right Depth];
    intros (Hd & Hl & Hr); cbn [pathLenTree].
  - destruct leaf; [exists depth; auto|].
    destruct (x <? sp)%f64; [apply IH, Hl|apply IH, Hr].
  - destruct leaf; exists depth; auto.
  - destruct leaf; exists depth; auto.
  - destruct leaf; exists depth; auto.
Qed.

Lemma pathLength_sum_signed (x : float64) (trees : list Tree) :
  Forall (allNodes (fun n => 0 <= Depth n)) trees ->
  forall acc, signed false acc ->
    signed false (fold_left (fun pl t => pl + pathLenTree t x)%f64 trees acc).
Proof.
  induction 1 as [|t trees Ht _ IH]; intros acc Hacc; cbn [fold_left]; [assumption|].
  apply IH. apply add_signed; [assumption|].
  destruct (pathLenTree_depth x t Ht) as (d & Hd & ->). apply of_int_signed, Hd.
Qed.

(** Every tree grown by [New] has non-negative node depths. *)
Lemma grownFrom_depths (data : list float64) (psi maxDepth : Z) (t : Tree) :
  grownFrom data psi maxDepth t -> allNodes (fun n => 0 <= Depth n) t.
Proof.
  intros (sub & g1 & g2 & _ & _ & Efit).
  eapply allNodes_impl;
    [|eapply (fitTreeFuel_nodes _ _ _ _ _ _ _ 0 (Z.max 0 maxDepth));
      [exact Efit|lia|lia]].
  intros n ((Hd & _) & _). exact Hd.
Qed.

(** ** Anomaly selector *)

Lemma growTrees_empty (k : nat) :
  forall maxDepth trees g,
    growTrees k [] 0 maxDepth trees g = Ok (trees ++ repeat (leafAt 0) k, g).
Proof.
  induction k as [|k IH]; intros maxDepth trees g; cbn [growTrees repeat].
  - now rewrite app_nil_r.
  - cbn [Z.to_nat drawSubsample bind].
    rewrite (fitTree_early_leaf [] 0 maxDepth g) by (left; cbn; lia).
    cbn [bind]. rewrite IH, <- app_assoc. reflexivity.
Qed.

(** On an empty series [New] draws nothing from the random source. *)
Lemma New_empty (t psi : Z) (g : Rand) :
  0 <= t ->
  New [] t psi g = Ok (mkForest (repeat (leafAt 0) (Z.to_nat t)) zero, g).
Proof.
  intros Ht. unfold New.
  assert (E : clampPsi [] psi = 0).
  { unfold clampPsi. change (len (@nil float64)) with 0.
    destruct (psi <=? 0) eqn:H0; [reflexivity|]. apply Z.leb_gt in H0.
    replace (psi >? 0) with true by (symmetry; rewrite Z.gtb_ltb; apply Z.ltb_lt; lia).
    reflexivity. }
  rewrite E. replace (t <? 0) with false by (symmetry; apply Z.ltb_ge; lia).
  rewrite growTrees_empty. reflexivity.
Qed.

Lemma clampPsi_detector (data : list float64) :
  0 <= clampPsi data (min 64 (len data)) <= 64.
Proof.
  unfold clampPsi, min, len.
  destruct (64 <? Z.of_nat (length data)) eqn:H1.
  - apply Z.ltb_lt in H1. cbn [Z.leb Z.compare orb].
    replace (64 >? Z.of_nat (length data)) with false
      by (symmetry; rewrite Z.gtb_ltb; apply Z.ltb_ge; lia). lia.
  - apply Z.ltb_ge in H1.
    destruct (Z.of_nat (length data) <=? 0) eqn:H2; cbn [orb].
    + apply Z.leb_le in H2. lia.
    + rewrite Z.gtb_ltb, Z.ltb_irrefl. lia.
Qed.

Lemma identityIdx_spec (n : nat) :
  length (identityIdx n) = n /\
  NoDup (identityIdx n) /\
  Forall (fun i => 0 <= i < Z.of_nat n) (identityIdx n).
Proof.
  unfold identityIdx. split; [|split].
  - now rewrite length_map, length_seq.
  - apply Finite.Injective_map_NoDup; [|apply seq_NoDup].
    intros a b. apply Nat2Z.inj.
  - apply Forall_forall. intros i Hi. apply in_map_iff in Hi.
    destruct Hi as (j & <- & Hj). apply in_seq in Hj. lia.
Qed.

Lemma StronglySorted_firstn {A : Type} (R : A -> A -> Prop) (l : list A) :
  StronglySorted R l -> forall n, StronglySorted R (firstn n l).
Proof.
  induction 1 as [|a l Hl IH Ha]; intros [|n]; cbn [firstn]; try constructor.
  - apply IH.
  - rewrite Forall_forall in *. intros b Hb. apply Ha.
    rewrite <- (firstn_skipn n l). apply in_or_app. auto.
Qed.

Lemma In_firstn {A : Type} (l : list A) (n : nat) (a : A) :
  In a (firstn n l) -> In a l.
Proof. intros H. rewrite <- (firstn_skipn n l). apply in_or_app. auto. Qed.

Lemma NoDup_firstn {A : Type} (l : list A) (n : nat) :
  NoDup l -> NoDup (firstn n l).
Proof.
  intros H. rewrite <- (firstn_skipn n l) in H. eapply NoDup_app_remove_r, H.
Qed.

Lemma index_number (scores : list float64) (i : Z) :
  Forall (fun s => IsNaN s = false) scores -> IsNaN (index zero scores i) = false.
Proof.
  intros H. unfold index.
  destruct (nth_in_or_default (Z.to_nat i) scores zero) as [Hin| ->]; [|reflexivity].
  rewrite Forall_forall in H. apply H, Hin.
Qed.

(** On a score vector without NaN, [byScoreDesc] meets the condition of
    the [sort] package. *)
Lemma byScoreDesc_ordering (scores : list float64) (l : list Z) :
  Forall (fun s => IsNaN s = false) scores ->
  transitiveOrdering (byScoreDesc scores) l.
Proof.
  intros Hs. unfold transitiveOrdering, byScoreDesc, gtb. split; [|split].
  - intros a _. apply ltb_irrefl.
  - intros a b c _ _ _ Hab Hbc. eapply ltb_trans; eassumption.
  - intros a b c _ _ _ Hab Hbc.
    apply (ltb_false_trans _ (index zero scores b)); auto using index_number.
Qed.

Section Selector.

Variable Pow : float64 -> float64 -> float64.
Variable sortSlice : (Z -> Z -> bool) -> list Z -> list Z.

(** [math.Pow(2, y)] is NaN only when [y] is. *)
Hypothesis Pow_number : forall y, IsNaN y = false -> IsNaN (Pow two y) = false.

(** [sort.Slice] reorders the slice in place, and leaves it sorted when
    [less] is a transitive ordering. *)
Hypothesis sortSlice_perm : forall less l, Permutation l (sortSlice less l).
Hypothesis sortSlice_sorted :
  forall less l,
    transitiveOrdering less l ->
    StronglySorted (fun a b => less b a = false) (sortSlice less l).

Lemma Score_number (trees : list Tree) (psi : Z) (x : float64) :
  length trees = 100%nat ->
  Forall (allNodes (fun n => 0 <= Depth n)) trees ->
  0 <= psi <= 64 ->
  IsNaN (Score Pow (mkForest trees (averagePathLength psi)) x) = false.
Proof.
  intros Hlen Hd Hpsi. unfold Score. cbn [C].
  destruct (averagePathLength psi =? zero)%f64 eqn:HC; [reflexivity|].
  assert (Hfin : finitePosb (averagePathLength psi) = true).
  { destruct (Z_le_gt_dec psi 1) as [Hle|Hgt].
    - rewrite (averagePathLength_le1 psi Hle) in HC. discriminate.
    - apply averagePathLength_small. lia. }
  apply Pow_number. apply (signed_not_nan true).
  apply div_signed; [|exact Hfin]. apply (neg_signed false).
  unfold pathLength, len. cbn [Trees]. rewrite Hlen.
  apply div_signed; [|reflexivity].
  apply pathLength_sum_signed; [exact Hd|]. left. reflexivity.
Qed.

(** C4. For every series and every [k >= 0], [detectAnomalies] returns
    (no panic, no exhausted budget) the first [min k |S|] entries of the
    sorted index slice together with one score per point.  The returned
    indices are distinct and valid, no score is NaN, and the indices are in
    descending order of score: each one scores at least as much as every
    later one (equal scores may follow each other).  An empty series gives
    an empty selection and an empty score vector, and leaves the random
    source untouched. *)
Theorem selector_contract :
  forall vals k g,
    0 <= k ->
    exists idx scores g',
      detectAnomalies Pow sortSlice vals k g = Ok ((idx, scores), g') /\
      len idx = Z.min k (len vals) /\
      Forall (fun i => 0 <= i < len vals) idx /\
      NoDup idx /\
      len scores = len vals /\
      Forall (fun s => IsNaN s = false) scores /\
      StronglySorted
        (fun a b => (index zero scores a >=? index zero scores b)%f64 = true) idx /\
      idx = firstn (Z.to_nat k)
              (sortSlice (byScoreDesc scores) (identityIdx (length vals))) /\
      (vals = [] -> idx = [] /\ scores = [] /\ g' = g).
Proof.
  intros vals k g Hk. unfold detectAnomalies.
  assert (Hnorm : length (normalize vals) = length vals).
  { unfold normalize. destruct (meanStd vals). apply length_map. }
  set (norm := normalize vals) in *.
  destruct (New_spec norm 100 (min 64 (len norm)) g ltac:(lia))
    as (trees & g' & E & Hlen & Hall).
  rewrite E. cbn [bind].
  set (f := mkForest trees _).
  set (scores := map (Score Pow f) norm).
  set (sorted := sortSlice (byScoreDesc scores) (identityIdx (length norm))).
  destruct (identityIdx_spec (length norm)) as (Il & In' & Ir).
  pose proof (sortSlice_perm (byScoreDesc scores) (identityIdx (length norm))) as Hp.
  fold sorted in Hp.
  assert (Hsl : length sorted = length vals)
    by (rewrite <- (Permutation_length Hp), Il; exact Hnorm).
  assert (Hscores : Forall (fun s => IsNaN s = false) scores).
  { apply Forall_forall. intros s Hs. apply in_map_iff in Hs.
    destruct Hs as (x & <- & _). apply Score_number.
    - exact Hlen.
    - eapply Forall_impl; [|exact Hall]. intros t. apply grownFrom_depths.
    - apply clampPsi_detector. }
  set (k' := if k >? len sorted then len sorted else k).
  assert (Hk' : k' = Z.min k (len vals)).
  { subst k'. unfold len. rewrite Hsl, Z.gtb_ltb.
    destruct (Z.of_nat (length vals) <? k) eqn:Hc;
      [apply Z.ltb_lt in Hc|apply Z.ltb_ge in Hc]; lia. }
  replace (k' <? 0) with false
    by (symmetry; apply Z.ltb_ge; rewrite Hk'; unfold len; lia).
  exists (firstn (Z.to_nat k') sorted), scores, g'.
  split; [reflexivity|]. split; [|split; [|split; [|split; [|split; [|split; [|split]]]]]].
  - unfold len. rewrite length_firstn, Hsl, Hk'. unfold len. lia.
  - apply Forall_forall. intros i Hi. apply In_firstn in Hi.
    apply (Permutation_in _ (Permutation_sym Hp)) in Hi.
    rewrite Forall_forall in Ir. unfold len. rewrite <- Hnorm. apply Ir, Hi.
  - apply NoDup_firstn. eapply Permutation_NoDup; eassumption.
  - unfold len, scores. rewrite length_map. lia.
  - exact Hscores.
  - apply StronglySorted_firstn.
    pose proof (sortSlice_sorted _ (identityIdx (length norm))
                  (byScoreDesc_ordering scores _ Hscores)) as Hs.
    fold sorted in Hs. clear - Hs Hscores.
    induction Hs as [|a l Hl IH Ha]; constructor; [exact IH|].
    eapply Forall_impl; [|exact Ha]. intros b Hb. unfold byScoreDesc, gtb in Hb.
    apply ltb_false_geb; auto using index_number.
  - assert (Hkk : firstn (Z.to_nat k') sorted = firstn (Z.to_nat k) sorted).
    { rewrite Hk'. destruct (Z_le_gt_dec k (len vals)) as [Hle|Hgt].
      - now rewrite Z.min_l by lia.
      - rewrite Z.min_r by lia. unfold len in *.
        rewrite Nat2Z.id, <- Hsl, firstn_all. symmetry. apply firstn_all2. lia. }
    rewrite Hkk. subst sorted. rewrite Hnorm. reflexivity.
  - intros ->. subst scores sorted norm. cbn in Hp |- *.
    apply Permutation_nil in Hp. rewrite Hp.
    rewrite firstn_nil. repeat split.
    change (normalize []) with (@nil float64) in E.
    rewrite New_empty in E by lia. inversion E. reflexivity.
Qed.

End Selector.

(** *** The reference sort meets the contract assumed of [sort.Slice] *)

Lemma insertBy_perm (less : Z -> Z -> bool) (x : Z) (l : list Z) :
  Permutation (x :: l) (insertBy less x l).
Proof.
  induction l as [|y l IH]; cbn [insertBy]; [reflexivity|].
  destruct (less x y); [reflexivity|].
  rewrite perm_swap. constructor. exact IH.
Qed.

Lemma insertionSort_perm (less : Z -> Z -> bool) (l : list Z) :
  Permutation l (insertionSort less l).
Proof.
  induction l as [|x l IH]; cbn [insertionSort]; [constructor|].
  rewrite <- insertBy_perm. constructor. exact IH.
Qed.

Lemma transitiveOrdering_incl (less : Z -> Z -> bool) (l l' : list Z) :
  incl l' l -> transitiveOrdering less l -> transitiveOrdering less l'.
Proof.
  intros Hi (H1 & H2 & H3). split; [|split]; intros; eauto.
Qed.

Lemma insertBy_sorted (less : Z -> Z -> bool) (x : Z) (l : list Z) :
  transitiveOrdering less (x :: l) ->
  StronglySorted (fun a b => less b a = false) l ->
  StronglySorted (fun a b => less b a = false) (insertBy less x l).
Proof.
  intros Ho Hs. induction Hs as [|y l Hl IH Hy]; cbn [insertBy].
  - repeat constructor.
  - destruct (less x y) eqn:Hxy.
    + destruct Ho as (Hirr & Htr & Hnt).
      assert (Hyx : less y x = false).
      { destruct (less y x) eqn:E; trivial.
        rewrite <- (Hirr x (or_introl eq_refl)).
        symmetry. apply (Htr x y x); cbn; auto. }
      constructor; [constructor; assumption|].
      constructor; [exact Hyx|].
      rewrite Forall_forall in *. intros z Hz.
      apply (Hnt z y x); cbn; auto.
    + constructor.
      * apply IH. eapply transitiveOrdering_incl; [|exact Ho].
        intros z [->|Hz]; cbn; auto.
      * rewrite Forall_forall in *. intros z Hz.
        apply (Permutation_in _ (Permutation_sym (insertBy_perm less x l))) in Hz.
        destruct Hz as [<-|Hz]; auto.
Qed.

Lemma insertionSort_sorted (less : Z -> Z -> bool) (l : list Z) :
  transitiveOrdering less l ->
  StronglySorted (fun a b => less b a = false) (insertionSort less l).
Proof.
  induction l as [|x l IH]; intros Ho; cbn [insertionSort]; [constructor|].
  apply insertBy_sorted.
  - eapply transitiveOrdering_incl; [|exact Ho].
    intros z [->|Hz]; [left; reflexivity|right].
    apply (Permutation_in _ (Permutation_sym (insertionSort_perm less l))), Hz.
  - apply IH. eapply transitiveOrdering_incl; [|exact Ho]. intros z Hz. right. exact Hz.
Qed.

Lemma PowRef_number (y : float64) : IsNaN y = false -> IsNaN (PowRef two y) = false.
Proof. destruct y as [s|[]| |[] m e]; cbn; congruence. Qed.

Lemma selector_contract_witness :
  exists idx scores g',
    detectAnomalies PowRef insertionSort [zero; one; Const.c3_5] 2 (constRand Const.c0_5)
      = Ok ((idx, scores), g') /\
    len idx = Z.min 2 (len [zero; one; Const.c3_5]) /\
    Forall (fun i => 0 <= i < len [zero; one; Const.c3_5]) idx.
Proof.
  destruct (selector_contract PowRef insertionSort PowRef_number
              insertionSort_perm insertionSort_sorted
              [zero; one; Const.c3_5] 2 (constRand Const.c0_5))
    as (idx & scores & g' & E & Hl & Hv & _).
  - lia.
  - exists idx, scores, g'. repeat split; assumption.
Defined.

(** ** Split thresholds *)

Lemma binary_normalize_number (m e : Z) :
  IsNaN (binary_normalize prec emax m e false) = false.
Proof.
  destruct m as [|p|p]; cbn [binary_normalize]; [reflexivity| |].
  - apply (signed_not_nan false), binary_round_signed.
  - apply (signed_not_nan true), binary_round_signed.
Qed.

(** The difference of two ordered numbers is a number. *)
Lemma sub_ordered_number (minV maxV : float64) :
  (minV <? maxV)%f64 = true -> IsNaN (maxV - minV)%f64 = false.
Proof.
  intros Hlt.
  destruct maxV as [s1|s1| |s1 m1 e1], minV as [s2|s2| |s2 m2 e2];
    try discriminate; try reflexivity;
    try (destruct s1; reflexivity); try (destruct s1, s2; try reflexivity; discriminate).
  apply binary_normalize_number.
Qed.

(** With a draw of zero the threshold is the minimum itself, as soon as
    [maxV - minV] does not overflow. *)
Lemma splitPoint_zero_draw (minV maxV r : float64) :
  (minV <? maxV)%f64 = true ->
  IsInf (maxV - minV)%f64 = false ->
  (r =? zero)%f64 = true ->
  (splitPoint minV maxV r =? minV)%f64 = true.
Proof.
  intros Hlt Hd Hr. unfold splitPoint.
  pose proof (sub_ordered_number minV maxV Hlt) as Hn.
  assert (Hmin : IsNaN minV = false) by (apply ltb_true_key in Hlt; tauto).
  assert (Hr' : exists s, r = S754_zero s).
  { destruct (eqb_true_cases r zero Hr) as [(s & s' & -> & _)|[-> _]];
      [eauto|exists false; reflexivity]. }
  destruct Hr' as (s & ->).
  assert (Hp : exists s', (S754_zero s * (maxV - minV))%f64 = S754_zero s').
  { destruct (maxV - minV)%f64 as [sd|sd| |sd md ed]; cbn in *; eauto; discriminate. }
  destruct Hp as (s' & ->).
  destruct minV as [sm|sm| |sm mm em]; try discriminate.
  - destruct sm, s'; reflexivity.
  - destruct sm; reflexivity.
  - change (S754_finite sm mm em + S754_zero s')%f64 with (S754_finite sm mm em).
    apply eqb_refl. reflexivity.
Qed.

(** C3 as stated, at the two-point subsample [0, 1] with a draw of 0 (a
    value [rand.Float64] can return): the minimum is below the maximum,
    the node built is internal, and its threshold is the minimum itself,
    not strictly above it.  At [1, 2] with the draw [1 - 2^-53] the
    threshold is the maximum, not strictly below it. *)
Lemma split_not_strictly_inside :
  wfRand (constRand zero) /\
  minMax [zero; one] = (zero, one) /\
  (zero <? one)%f64 = true /\
  (exists l r g',
      fitTree [zero; one] 0 1 (constRand zero)
      = Ok (mkTree zero (Some l) (Some r) false 0, g')) /\
  (fst (minMax [zero; one]) <? splitOf [zero; one] (constRand zero))%f64 = false /\
  wfRand (constRand Const.pred_one) /\
  minMax [one; two] = (one, two) /\
  (splitOf [one; two] (constRand Const.pred_one) <? snd (minMax [one; two]))%f64 = false.
Proof.
  repeat split; try (vm_compute; reflexivity); try (intros i; vm_compute; reflexivity).
  do 3 eexists. vm_compute. reflexivity.
Qed.

(** ** Rounding against a representable bound *)

Lemma bounded_facts (m : positive) (e : Z) :
  bounded prec emax m e = true ->
  Zdigits2 (Zpos m) <= 53 /\ Zpos m < 2 ^ 53 /\ -1074 <= e <= 971 /\
  (-1074 < e -> Zdigits2 (Zpos m) = 53 /\ 2 ^ 52 <= Zpos m).
Proof.
  intros Hb. destruct (bounded_inv m e Hb) as [Hc He].
  destruct (Zdigits2_bounds (Zpos m) ltac:(lia)) as (HD & Hlo & Hhi).
  unfold fexp, emin, prec, emax in *.
  assert (HD53 : Zdigits2 (Zpos m) <= 53) by lia.
  split; [exact HD53|]. split.
  - pose proof (Z.pow_le_mono_r 2 (Zdigits2 (Zpos m)) 53 ltac:(lia) HD53). lia.
  - split; [lia|]. intros Hn. assert (E : Zdigits2 (Zpos m) = 53) by lia.
    rewrite E in Hlo. split; [exact E|exact Hlo].
Qed.

Lemma Zdigits2_mul_pow2 (m k : Z) :
  0 < m -> 0 <= k -> Zdigits2 (m * 2 ^ k) = Zdigits2 m + k.
Proof.
  intros Hm Hk. destruct (Zdigits2_bounds m Hm) as (HD & Hlo & Hhi).
  assert (Hp : 0 < 2 ^ k) by (apply Z.pow_pos_nonneg; lia).
  apply Zdigits2_unique; [|nia].
  replace (Zdigits2 m + k - 1) with (Zdigits2 m - 1 + k) by lia.
  rewrite !Z.pow_add_r by lia. nia.
Qed.

Lemma shl_align_fst (m : positive) (e e' : Z) :
  e' <= e ->
  Zpos (fst (shl_align m e e')) = Zpos m * 2 ^ (e - e') /\
  snd (shl_align m e e') = e'.
Proof.
  intros He. unfold shl_align.
  destruct (e' - e) as [|d|d] eqn:E; try lia; cbn [fst snd].
  - replace (e - e') with 0 by lia. split; lia.
  - fold (shift_pos d m). rewrite shift_pos_correct.
    change (Z.pow_pos 2 d) with (2 ^ Zpos d).
    replace (e - e') with (Zpos d) by lia. split; lia.
Qed.

Lemma shl_align_id (m : positive) (e e' : Z) :
  e <= e' -> shl_align m e e' = (m, e).
Proof.
  intros He. unfold shl_align. destruct (e' - e) eqn:E; try reflexivity; lia.
Qed.

(** The two shifts and the rounding of [binary_round_aux], on integers:
    [m1, e1] after the first shift, [m2] after rounding to nearest even,
    [m3, e3] after the second shift. *)
Lemma binary_round_aux_cases (sx : bool) (m e : Z) (l : location) :
  0 <= m ->
  let n1 := fexp prec emax (Zdigits2 m + e) - e in
  let m1 := if 0 <? n1 then m / 2 ^ n1 else m in
  let e1 := if 0 <? n1 then e + n1 else e in
  exists m2,
    m1 <= m2 <= m1 + 1 /\
    let n3 := fexp prec emax (Zdigits2 m2 + e1) - e1 in
    let m3 := if 0 <? n3 then m2 / 2 ^ n3 else m2 in
    let e3 := if 0 <? n3 then e1 + n3 else e1 in
    binary_round_aux prec emax sx m e l =
      match m3 with
      | Z0 => S754_zero sx
      | Zpos p => if e3 <=? emax - prec then S754_finite sx p e3 else S754_infinity sx
      | Zneg _ => S754_nan
      end.
Proof.
  intros Hm n1 m1 e1. unfold binary_round_aux.
  destruct (shr_fexp_m m e l Hm) as [E1 E1']. cbv zeta in E1, E1'.
  fold n1 in E1, E1'. fold m1 in E1. fold e1 in E1'.
  destruct (shr_fexp prec emax m e l) as [mrs1 e1']. cbn [fst snd] in E1, E1'. subst e1'.
  assert (Hm1 : 0 <= m1).
  { subst m1. destruct (0 <? n1); [|lia].
    apply Z_div_nonneg_nonneg; [lia|apply Z.pow_nonneg; lia]. }
  pose proof (round_nearest_even_bounds (shr_m mrs1) (loc_of_shr_record mrs1)) as Hr.
  set (m2 := round_nearest_even (shr_m mrs1) (loc_of_shr_record mrs1)) in *.
  rewrite E1 in Hr. exists m2. split; [exact Hr|]. cbv zeta.
  destruct (shr_fexp_m m2 e1 loc_Exact ltac:(lia)) as [E3 E3']. cbv zeta in E3, E3'.
  destruct (shr_fexp prec emax m2 e1 loc_Exact) as [mrs3 e3']. cbn [fst snd] in E3, E3'.
  rewrite E3, E3'. reflexivity.
Qed.

(** The second shift keeps a positive mantissa positive and moves the
    exponent up, if at all. *)
Lemma second_shift (m2 e1 : Z) :
  0 < m2 -> -1074 <= e1 ->
  let n3 := fexp prec emax (Zdigits2 m2 + e1) - e1 in
  let m3 := if 0 <? n3 then m2 / 2 ^ n3 else m2 in
  let e3 := if 0 <? n3 then e1 + n3 else e1 in
  0 < m3 /\ e1 <= e3 /\ (e3 = e1 -> m3 = m2).
Proof.
  intros Hm He n3 m3 e3. subst m3 e3.
  destruct (0 <? n3) eqn:Hn; [apply Z.ltb_lt in Hn|split; [lia|split; [lia|reflexivity]]].
  destruct (Zdigits2_bounds m2 Hm) as (HD & _).
  assert (En : n3 = Zdigits2 m2 - 53).
  { subst n3. unfold fexp, emin, prec, emax in *. lia. }
  destruct (Zdigits2_shift m2 n3 Hm ltac:(lia)) as [Hq _].
  split; [exact Hq|]. split; lia.
Qed.

Lemma leb_finite_pos (a b : positive) (ea eb : Z) :
  ea < eb \/ (ea = eb /\ Zpos a <= Zpos b) ->
  (S754_finite false a ea <=? S754_finite false b eb)%f64 = true.
Proof.
  intros H. unfold leb, SFleb, SFcompare.
  destruct (Z.compare_spec ea eb) as [E|E|E]; try reflexivity; try lia.
  fold (Pos.compare a b). destruct (Pos.compare_spec a b) as [E'|E'|E'];
    try reflexivity. lia.
Qed.

Lemma pow2_split (a b c : Z) : c <= b -> b <= a -> 2 ^ (a - c) = 2 ^ (a - b) * 2 ^ (b - c).
Proof. intros H1 H2. rewrite <- Z.pow_add_r by lia. f_equal. lia. Qed.

(** [shl_align] keeps the value and moves the exponent down to the target,
    if it is below. *)
Lemma shl_align_scaled (m : positive) (e e' G : Z) :
  G <= e -> G <= e' ->
  snd (shl_align m e e') = Z.min e e' /\
  Zpos (fst (shl_align m e e')) * 2 ^ (snd (shl_align m e e') - G)
  = Zpos m * 2 ^ (e - G).
Proof.
  intros He He'. destruct (Z_le_gt_dec e e') as [Hle|Hgt].
  - rewrite shl_align_id by lia. cbn [fst snd]. split; lia.
  - destruct (shl_align_fst m e e' ltac:(lia)) as [-> ->]. split; [lia|].
    rewrite (pow2_split e e' G) by lia. lia.
Qed.

Lemma scaled_digits (a b : positive) (ea eb G : Z) :
  G <= ea -> G <= eb ->
  Zpos a * 2 ^ (ea - G) <= Zpos b * 2 ^ (eb - G) ->
  Zdigits2 (Zpos a) + ea <= Zdigits2 (Zpos b) + eb.
Proof.
  intros Ha Hb Hle.
  pose proof (Zdigits2_mul_pow2 (Zpos a) (ea - G) ltac:(lia) ltac:(lia)) as E1.
  pose proof (Zdigits2_mul_pow2 (Zpos b) (eb - G) ltac:(lia) ltac:(lia)) as E2.
  assert (0 < 2 ^ (ea - G)) by (apply Z.pow_pos_nonneg; lia).
  pose proof (Zdigits2_mono (Zpos a * 2 ^ (ea - G)) (Zpos b * 2 ^ (eb - G))
                ltac:(nia)). lia.
Qed.

(** Rounding a number that is at least a representable [x] gives at least
    [x]. *)
Lemma binary_round_ge (mx S : positive) (ex ez G : Z) :
  bounded prec emax mx ex = true -> G <= ex -> G <= ez ->
  Zpos mx * 2 ^ (ex - G) <= Zpos S * 2 ^ (ez - G) ->
  (S754_finite false mx ex <=? binary_round prec emax false S ez)%f64 = true.
Proof.
  intros Hb HGx HGz Hle.
  destruct (bounded_facts mx ex Hb) as (HDx & Hmx & Hex & Hnorm).
  destruct (bounded_inv mx ex Hb) as [Hc _].
  pose proof (scaled_digits mx S ex ez G HGx HGz Hle) as Hmag.
  unfold binary_round. change (Zpos (digits2_pos S)) with (Zdigits2 (Zpos S)).
  set (F := fexp prec emax (Zdigits2 (Zpos S) + ez)).
  assert (HF : ex <= F) by (subst F; unfold fexp, emin, prec, emax in *; lia).
  pose proof (shl_align_spec S ez F) as Hal.
  set (G' := Z.min G (-1074)).
  destruct (shl_align_scaled S ez F G' ltac:(lia) ltac:(lia)) as [Hs Hv].
  destruct (shl_align S ez F) as [mz ez']. cbn [fst snd] in Hs, Hv.
  assert (Hle' : Zpos mx * 2 ^ (ex - G') <= Zpos mz * 2 ^ (ez' - G')).
  { rewrite Hv, (pow2_split ez G G'), (pow2_split ex G G') by lia.
    assert (0 < 2 ^ (G - G')) by (apply Z.pow_pos_nonneg; lia). nia. }
  destruct (binary_round_aux_cases false (Zpos mz) ez' loc_Exact ltac:(lia))
    as (m2 & Hm2 & E).
  cbv zeta in Hm2, E. rewrite Hal in Hm2, E. fold F in Hm2, E.
  set (n1 := F - ez') in *.
  set (m1 := if 0 <? n1 then Zpos mz / 2 ^ n1 else Zpos mz) in *.
  set (e1 := if 0 <? n1 then ez' + n1 else ez') in *.
  assert (He1 : e1 = F) by (subst e1 n1; destruct (0 <? F - ez') eqn:Hn;
                            [|apply Z.ltb_ge in Hn]; lia).
  assert (Hm1 : 0 < m1 /\ (F = ex -> Zpos mx <= m1)).
  { destruct (Zdigits2_bounds (Zpos mz) ltac:(lia)) as (HDS & _).
    assert (Hq : F = ex -> Zpos mx * 2 ^ n1 <= Zpos mz).
    { intros HFe. rewrite (pow2_split ex ez' G') in Hle' by lia.
      assert (0 < 2 ^ (ez' - G')) by (apply Z.pow_pos_nonneg; lia).
      subst n1. rewrite HFe. nia. }
    subst m1. destruct (0 <? n1) eqn:Hn;
      [apply Z.ltb_lt in Hn|apply Z.ltb_ge in Hn].
    - destruct (Z.eq_dec F ex) as [HFe|HFe].
      + assert (Zpos mx <= Zpos mz / 2 ^ n1).
        { apply Z.div_le_lower_bound; [apply Z.pow_pos_nonneg; lia|].
          specialize (Hq HFe). lia. }
        split; [lia|auto].
      + assert (En : n1 = Zdigits2 (Zpos mz) - 53)
          by (subst n1 F; unfold fexp, emin, prec, emax in *; lia).
        destruct (Zdigits2_shift (Zpos mz) n1 ltac:(lia) ltac:(lia)) as [Hq' _].
        split; [exact Hq'|intros; lia].
    - split; [lia|]. intros HFe. specialize (Hq HFe).
      replace n1 with 0 in Hq by (subst n1; lia). change (2 ^ 0) with 1 in Hq. lia. }
  rewrite He1 in E.
  destruct (second_shift m2 F ltac:(lia) ltac:(lia)) as (Hm3 & He3 & Heq).
  cbv zeta in Hm3, He3, Heq.
  set (n3 := fexp prec emax (Zdigits2 m2 + F) - F) in *.
  set (m3 := if 0 <? n3 then m2 / 2 ^ n3 else m2) in *.
  set (e3 := if 0 <? n3 then F + n3 else F) in *.
  rewrite E. destruct m3 as [|p|p]; try lia.
  destruct (e3 <=? emax - prec); [|reflexivity].
  apply leb_finite_pos.
  destruct (Z.eq_dec e3 ex) as [He|He]; [right|left; lia].
  assert (F = ex) by lia. split; [lia|].
  rewrite (Heq ltac:(lia)). lia.
Qed.

(** ** The round bit *)

Lemma shr_nat_m (j : nat) (mrs : shr_record) :
  0 <= shr_m mrs ->
  shr_m (nat_rect (fun _ => shr_record) mrs (fun _ => shr_1) j)
  = shr_m mrs / 2 ^ Z.of_nat j.
Proof.
  intros Hm. induction j as [|j IH].
  - cbn. now rewrite Z.div_1_r.
  - cbn [nat_rect]. rewrite shr_1_m.
    + rewrite IH, Z.div2_div, Nat2Z.inj_succ, Z.pow_succ_r by lia.
      rewrite Z.div_div by lia. f_equal. lia.
    + rewrite IH. apply Z_div_nonneg_nonneg; [lia|apply Z.pow_nonneg; lia].
Qed.

Lemma shr_1_r (mrs : shr_record) :
  0 <= shr_m mrs -> shr_r (shr_1 mrs) = Z.odd (shr_m mrs).
Proof.
  destruct mrs as [[|[p|p|]|p] r s]; cbn; intros H; try reflexivity; lia.
Qed.

(** The round bit after shifting [k] bits out of [m] is bit [k - 1] of [m]. *)
Lemma shr_r_iter (k : positive) (m : Z) :
  0 <= m ->
  shr_r (iter_pos shr_1 k (Build_shr_record m false false))
  = Z.odd (m / 2 ^ (Zpos k - 1)).
Proof.
  intros Hm. rewrite iter_pos_iter, Pos2Nat.inj_iter.
  destruct (Pos2Nat.is_succ k) as (j & Hj). rewrite Hj. cbn [nat_rect].
  rewrite shr_1_r.
  - rewrite shr_nat_m by (cbn; lia). cbn [shr_m].
    replace (Zpos k - 1) with (Z.of_nat j) by lia. reflexivity.
  - rewrite shr_nat_m by (cbn; lia). cbn [shr_m].
    apply Z_div_nonneg_nonneg; [lia|apply Z.pow_nonneg; lia].
Qed.

Lemma odd_div_pow2_low (m k : Z) :
  0 <= m -> 0 < k -> m mod 2 ^ k < 2 ^ (k - 1) -> Z.odd (m / 2 ^ (k - 1)) = false.
Proof.
  intros Hm Hk Hlow.
  assert (Hp : 0 < 2 ^ (k - 1)) by (apply Z.pow_pos_nonneg; lia).
  pose proof (Z.rem_mul_r m (2 ^ (k - 1)) 2 ltac:(lia) ltac:(lia)) as E.
  assert (Hk2 : 2 ^ k = 2 ^ (k - 1) * 2).
  { replace k with (Z.succ (k - 1)) at 1 by lia. rewrite Z.pow_succ_r by lia. lia. }
  rewrite <- Hk2 in E.
  pose proof (Z.mod_pos_bound m (2 ^ (k - 1)) Hp) as B1.
  pose proof (Z.mod_pos_bound (m / 2 ^ (k - 1)) 2 ltac:(lia)) as B2.
  assert (E0 : (m / 2 ^ (k - 1)) mod 2 = 0).
  { destruct (Z.eq_dec ((m / 2 ^ (k - 1)) mod 2) 0) as [|Hne]; [assumption|].
    assert (E1 : (m / 2 ^ (k - 1)) mod 2 = 1) by lia.
    rewrite E1 in E. lia. }
  rewrite Zodd_mod. rewrite E0. reflexivity.
Qed.

Lemma round_nearest_even_low (m : Z) (mrs : shr_record) :
  shr_r mrs = false -> round_nearest_even m (loc_of_shr_record mrs) = m.
Proof.
  destruct mrs as [m' r s]. cbn [shr_r]. intros ->. destruct s; reflexivity.
Qed.

(** Refinement of [binary_round_aux_cases] for an exact input: nothing is
    added by the rounding when no bit is shifted out, or when the bits
    shifted out are below half a unit. *)
Lemma binary_round_aux_cases_exact (sx : bool) (m e : Z) :
  0 <= m ->
  let n1 := fexp prec emax (Zdigits2 m + e) - e in
  let m1 := if 0 <? n1 then m / 2 ^ n1 else m in
  let e1 := if 0 <? n1 then e + n1 else e in
  exists m2,
    m1 <= m2 <= m1 + 1 /\
    (n1 <= 0 -> m2 = m1) /\
    (0 < n1 -> m mod 2 ^ n1 < 2 ^ (n1 - 1) -> m2 = m1) /\
    let n3 := fexp prec emax (Zdigits2 m2 + e1) - e1 in
    let m3 := if 0 <? n3 then m2 / 2 ^ n3 else m2 in
    let e3 := if 0 <? n3 then e1 + n3 else e1 in
    binary_round_aux prec emax sx m e loc_Exact =
      match m3 with
      | Z0 => S754_zero sx
      | Zpos p => if e3 <=? emax - prec then S754_finite sx p e3 else S754_infinity sx
      | Zneg _ => S754_nan
      end.
Proof.
  intros Hm n1 m1 e1. unfold binary_round_aux.
  destruct (shr_fexp_m m e loc_Exact Hm) as [E1 E1']. cbv zeta in E1, E1'.
  fold n1 in E1, E1'. fold m1 in E1. fold e1 in E1'.
  assert (Hr1 : (n1 <= 0 -> shr_r (fst (shr_fexp prec emax m e loc_Exact)) = false) /\
                (0 < n1 -> m mod 2 ^ n1 < 2 ^ (n1 - 1) ->
                 shr_r (fst (shr_fexp prec emax m e loc_Exact)) = false)).
  { unfold shr_fexp. fold n1. cbn [shr_record_of_loc].
    destruct n1 as [|k|k]; cbn [shr fst]; split; intros; try reflexivity; try lia.
    rewrite shr_r_iter by lia. apply odd_div_pow2_low; lia. }
  destruct (shr_fexp prec emax m e loc_Exact) as [mrs1 e1']. cbn [fst snd] in *. subst e1'.
  assert (Hm1 : 0 <= m1).
  { subst m1. destruct (0 <? n1); [|lia].
    apply Z_div_nonneg_nonneg; [lia|apply Z.pow_nonneg; lia]. }
  pose proof (round_nearest_even_bounds (shr_m mrs1) (loc_of_shr_record mrs1)) as Hr.
  assert (Hlow : shr_r mrs1 = false ->
                 round_nearest_even (shr_m mrs1) (loc_of_shr_record mrs1) = m1)
    by (intros H; rewrite round_nearest_even_low by exact H; exact E1).
  set (m2 := round_nearest_even (shr_m mrs1) (loc_of_shr_record mrs1)) in *.
  rewrite E1 in Hr. exists m2. split; [exact Hr|].
  split; [intros H; apply Hlow, (proj1 Hr1 H)|].
  split; [intros H H'; apply Hlow, (proj2 Hr1 H H')|]. cbv zeta.
  destruct (shr_fexp_m m2 e1 loc_Exact ltac:(lia)) as [E3 E3']. cbv zeta in E3, E3'.
  destruct (shr_fexp prec emax m2 e1 loc_Exact) as [mrs3 e3']. cbn [fst snd] in E3, E3'.
  rewrite E3, E3'. reflexivity.
Qed.

(** ** Rounding to at most a representable bound *)

Lemma Zdigits2_lt_pow (m d : Z) : 0 < m < 2 ^ d -> Zdigits2 m <= d.
Proof.
  intros [Hm Hd]. destruct (Zdigits2_bounds m Hm) as (HD & Hlo & _).
  destruct (Z_le_gt_dec (Zdigits2 m) d) as [|Hgt]; [assumption|].
  assert (0 <= d).
  { destruct (Z_lt_le_dec d 0) as [Hneg|]; [|assumption].
    rewrite (Z.pow_neg_r 2 d Hneg) in Hd. lia. }
  pose proof (Z.pow_le_mono_r 2 d (Zdigits2 m - 1) ltac:(lia) ltac:(lia)). lia.
Qed.

Lemma Zdigits2_ge_pow (m d : Z) : 0 <= d -> 2 ^ d <= m -> d + 1 <= Zdigits2 m.
Proof.
  intros Hd Hm. assert (Hp : 0 < 2 ^ d) by (apply Z.pow_pos_nonneg; lia).
  destruct (Zdigits2_bounds m ltac:(lia)) as (HD & _ & Hhi).
  destruct (Z_le_gt_dec (d + 1) (Zdigits2 m)) as [|Hgt]; [assumption|].
  pose proof (Z.pow_le_mono_r 2 (Zdigits2 m) d ltac:(lia) ltac:(lia)). lia.
Qed.

Lemma bounded_intro (m : positive) (e : Z) :
  fexp prec emax (Zdigits2 (Zpos m) + e) = e -> e <= 971 ->
  bounded prec emax m e = true.
Proof.
  intros Hc He. unfold bounded, canonical_mantissa.
  rewrite andb_true_iff, Z.eqb_eq, Z.leb_le. cbn [Zdigits2] in Hc.
  unfold emax, prec in *. split; [exact Hc|lia].
Qed.

(** The second shift of [binary_round_aux] on a mantissa [m2] of at least
    53 bits when the exponent [F] is above the least one: the result is
    canonical, and the exponent moves by one only when [m2] has 54 bits. *)
Lemma second_shift_canonical (m2 F : Z) :
  0 <= m2 <= 2 ^ 53 -> -1074 <= F -> (-1074 < F -> 2 ^ 52 <= m2) ->
  let n3 := fexp prec emax (Zdigits2 m2 + F) - F in
  let m3 := if 0 <? n3 then m2 / 2 ^ n3 else m2 in
  let e3 := if 0 <? n3 then F + n3 else F in
  0 <= m3 < 2 ^ 53 /\
  ((e3 = F /\ m3 = m2) \/ (e3 = F + 1 /\ m3 = 2 ^ 52 /\ m2 = 2 ^ 53)) /\
  (0 < m3 -> fexp prec emax (Zdigits2 m3 + e3) = e3).
Proof.
  intros Hm2 HF Hlo n3 m3 e3.
  destruct (Z.eq_dec m2 0) as [->|Hnz].
  { subst m3 e3 n3. cbn [Zdigits2].
    replace (0 <? fexp prec emax (0 + F) - F) with false
      by (symmetry; apply Z.ltb_ge; unfold fexp, emin, prec, emax; lia).
    split; [lia|]. split; [left; split; reflexivity|lia]. }
  destruct (Zdigits2_bounds m2 ltac:(lia)) as (HD2 & HD2lo & HD2hi).
  assert (HD54 : Zdigits2 m2 <= 54).
  { apply Zdigits2_lt_pow. change (2 ^ 54) with (2 * 2 ^ 53). lia. }
  assert (HD53 : -1074 < F -> 53 <= Zdigits2 m2).
  { intros H. apply (Zdigits2_ge_pow m2 52); [lia|auto]. }
  assert (Hn3 : 0 <= n3 <= 1 /\ (n3 = 1 -> Zdigits2 m2 = 54) /\
                (n3 = 0 -> Zdigits2 m2 <= 53))
    by (subst n3; unfold fexp, emin, prec, emax in *; lia).
  destruct Hn3 as (Hn3 & Hn31 & Hn30).
  subst m3 e3. destruct (0 <? n3) eqn:Hn;
    [apply Z.ltb_lt in Hn|apply Z.ltb_ge in Hn].
  - assert (E1 : n3 = 1) by lia. specialize (Hn31 E1).
    rewrite Hn31 in HD2lo. change (2 ^ (54 - 1)) with (2 ^ 53) in HD2lo.
    assert (E2 : m2 = 2 ^ 53) by lia.
    rewrite E1, E2. change (2 ^ 53 / 2 ^ 1) with (2 ^ 52).
    split; [change (2 ^ 52) with 4503599627370496;
            change (2 ^ 53) with 9007199254740992; lia|].
    split; [right; repeat split; lia|]. intros _.
    change (Zdigits2 (2 ^ 52)) with 53.
    subst n3. rewrite Hn31 in E1. unfold fexp, emin, prec, emax in *. lia.
  - assert (E0 : n3 = 0) by lia. specialize (Hn30 E0).
    split; [split; [lia|]|].
    + pose proof (Z.pow_le_mono_r 2 (Zdigits2 m2) 53 ltac:(lia) Hn30). lia.
    + split; [left; split; reflexivity|]. intros _. subst n3. lia.
Qed.

(** Rounding an exact number below the midpoint between a representable
    [x] and the next multiple of its unit gives at most [x]. *)
Lemma round_aux_le_mid (mx m : positive) (ex e : Z) :
  bounded prec emax mx ex = true -> e <= ex ->
  e <= fexp prec emax (Zdigits2 (Zpos m) + e) ->
  2 * Zpos m < (2 * Zpos mx + 1) * 2 ^ (ex - e) ->
  atMost (binary_round_aux prec emax false (Zpos m) e loc_Exact) mx ex.
Proof.
  intros Hb Hez HeF Hlt.
  destruct (bounded_facts mx ex Hb) as (HDx & Hmx & Hex & Hnorm).
  destruct (bounded_inv mx ex Hb) as [Hc _].
  destruct (Zdigits2_bounds (Zpos mx) ltac:(lia)) as (HDx0 & _ & HDxhi).
  assert (Hpk : 0 < 2 ^ (ex - e)) by (apply Z.pow_pos_nonneg; lia).
  assert (Hlt' : Zpos m < (Zpos mx + 1) * 2 ^ (ex - e)) by nia.
  assert (Hmag : Zdigits2 (Zpos m) + e <= Zdigits2 (Zpos mx) + ex).
  { assert (Zdigits2 (Zpos m) <= Zdigits2 (Zpos mx) + (ex - e)); [|lia].
    apply Zdigits2_lt_pow. split; [lia|]. rewrite Z.pow_add_r by lia. nia. }
  destruct (binary_round_aux_cases_exact false (Zpos m) e ltac:(lia))
    as (m2 & Hm2 & Hex0 & Hlow & E).
  cbv zeta in Hm2, Hex0, Hlow, E.
  set (F := fexp prec emax (Zdigits2 (Zpos m) + e)) in *.
  assert (HF : -1074 <= F <= ex) by (subst F; unfold fexp, emin, prec, emax in *; lia).
  set (n1 := F - e) in *.
  set (m1 := if 0 <? n1 then Zpos m / 2 ^ n1 else Zpos m) in *.
  set (e1 := if 0 <? n1 then e + n1 else e) in *.
  assert (He1 : e1 = F) by (subst e1 n1; destruct (0 <? F - e) eqn:Hn;
                            [|apply Z.ltb_ge in Hn]; lia).
  destruct (Zdigits2_bounds (Zpos m) ltac:(lia)) as (HDz & HDzlo & HDzhi).
  assert (Hn1 : Zdigits2 (Zpos m) <= n1 + 53 /\
                (-1074 < F -> Zdigits2 (Zpos m) = n1 + 53))
    by (subst n1 F; unfold fexp, emin, prec, emax in *; lia).
  destruct Hn1 as [Hn1 Hn1'].
  assert (Hm1 : 0 <= m1 < 2 ^ 53 /\ (-1074 < F -> 2 ^ 52 <= m1)).
  { pose proof (Z.pow_le_mono_r 2 (Zdigits2 (Zpos m)) (n1 + 53) ltac:(lia) Hn1) as Hp.
    subst m1. destruct (0 <? n1) eqn:Hn;
      [apply Z.ltb_lt in Hn|apply Z.ltb_ge in Hn].
    - assert (Hpn : 0 < 2 ^ n1) by (apply Z.pow_pos_nonneg; lia).
      split; [split; [apply Z.div_pos; lia|]|].
      + apply Z.div_lt_upper_bound; [exact Hpn|].
        rewrite <- Z.pow_add_r by lia. lia.
      + intros HFl. apply Z.div_le_lower_bound; [exact Hpn|].
        rewrite <- Z.pow_add_r by lia. rewrite (Hn1' HFl) in HDzlo.
        replace (n1 + 52) with (n1 + 53 - 1) by lia. exact HDzlo.
    - assert (En : n1 = 0) by (subst n1; lia).
      replace (n1 + 53) with 53 in Hp by lia. split; [lia|].
      intros HFl. rewrite (Hn1' HFl), En in HDzlo. exact HDzlo. }
  destruct Hm1 as [Hm1 Hm1lo].
  assert (Hm2x : F = ex -> m2 <= Zpos mx).
  { intros HFe. assert (En : n1 = ex - e) by (subst n1; lia).
    destruct (Z_le_gt_dec n1 0) as [Hn0|Hn0].
    - rewrite (Hex0 Hn0). subst m1.
      replace (0 <? n1) with false by (symmetry; apply Z.ltb_ge; lia).
      replace (ex - e) with 0 in Hlt by lia. change (2 ^ 0) with 1 in Hlt. lia.
    - assert (Em1 : m1 = Zpos m / 2 ^ n1)
        by (subst m1; replace (0 <? n1) with true
              by (symmetry; apply Z.ltb_lt; lia); reflexivity).
      assert (Hq : m1 <= Zpos mx).
      { rewrite Em1. apply Z.lt_succ_r, Z.div_lt_upper_bound; [rewrite En; lia|].
        rewrite En. lia. }
      destruct (Z.eq_dec m1 (Zpos mx)) as [Heq|Hne]; [|lia].
      rewrite Hlow; [lia|lia|].
      pose proof (Z.div_mod (Zpos m) (2 ^ n1) ltac:(rewrite En; lia)) as Hdm.
      rewrite <- Em1, Heq, En in Hdm.
      assert (Hk2 : 2 ^ (ex - e) = 2 * 2 ^ (ex - e - 1)).
      { rewrite <- Z.pow_succ_r by lia. f_equal. lia. }
      rewrite En. nia. }
  rewrite He1 in E.
  destruct (second_shift_canonical m2 F ltac:(lia) ltac:(lia) ltac:(intros; specialize (Hm1lo ltac:(assumption)); lia))
    as (Hm3 & Hcase & Hcan).
  cbv zeta in Hm3, Hcase, Hcan.
  set (n3 := fexp prec emax (Zdigits2 m2 + F) - F) in *.
  set (m3 := if 0 <? n3 then m2 / 2 ^ n3 else m2) in *.
  set (e3 := if 0 <? n3 then F + n3 else F) in *.
  assert (HFe3 : F = ex -> e3 = F).
  { intros HFe. destruct Hcase as [[? _]|(_ & _ & E2)]; [assumption|].
    specialize (Hm2x HFe). lia. }
  rewrite E. destruct m3 as [|p|p]; [left; reflexivity| |lia].
  assert (He3 : e3 <= 971).
  { destruct Hcase as [[-> _]|[-> _]];
      destruct (Z.eq_dec F ex); try lia; specialize (HFe3 ltac:(assumption)); lia. }
  replace (e3 <=? emax - prec) with true
    by (symmetry; apply Z.leb_le; unfold emax, prec; lia).
  right. exists p, e3. split; [reflexivity|].
  split; [apply bounded_intro; [apply Hcan; lia|exact He3]|].
  destruct (Z.eq_dec F ex) as [HFe|HFe].
  - right. specialize (HFe3 HFe). specialize (Hm2x HFe).
    destruct Hcase as [[_ ->]|[? _]]; lia.
  - destruct Hcase as [[-> _]|(-> & Hp & _)]; [left; lia|].
    destruct (Z.eq_dec (F + 1) ex) as [He|He]; [right|left; lia].
    destruct (Hnorm ltac:(lia)) as [_ Hmxlo]. lia.
Qed.

Lemma atMost_leb (res : float64) (mx : positive) (ex : Z) :
  atMost res mx ex -> (res <=? S754_finite false mx ex)%f64 = true.
Proof.
  intros [->|(m3 & e3 & -> & _ & H)]; [reflexivity|].
  apply leb_finite_pos. exact H.
Qed.

(** Rounding a number that is at most a representable [x] gives at most
    [x]: a zero or a representable number. *)
Lemma binary_round_le (mx S : positive) (ex ez G : Z) :
  bounded prec emax mx ex = true -> G <= ex -> G <= ez ->
  Zpos S * 2 ^ (ez - G) <= Zpos mx * 2 ^ (ex - G) ->
  atMost (binary_round prec emax false S ez) mx ex.
Proof.
  intros Hb HGx HGz Hle.
  destruct (bounded_inv mx ex Hb) as [Hc _].
  pose proof (scaled_digits S mx ez ex G HGz HGx Hle) as Hmag.
  unfold binary_round. change (Zpos (digits2_pos S)) with (Zdigits2 (Zpos S)).
  set (F := fexp prec emax (Zdigits2 (Zpos S) + ez)).
  assert (HF : -1074 <= F <= ex) by (subst F; unfold fexp, emin, prec, emax in *; lia).
  pose proof (shl_align_spec S ez F) as Hal.
  destruct (shl_align_scaled S ez F (Z.min G (-1074)) ltac:(lia) ltac:(lia)) as [Hs Hv].
  destruct (shl_align S ez F) as [mz ez']. cbn [fst snd] in Hs, Hv.
  apply round_aux_le_mid; [exact Hb|lia|rewrite Hal; fold F; lia|].
  set (G' := Z.min G (-1074)) in *.
  assert (Hle' : Zpos mz * 2 ^ (ez' - G') <= Zpos mx * 2 ^ (ex - G')).
  { rewrite Hv, (pow2_split ez G G'), (pow2_split ex G G') by lia.
    assert (0 < 2 ^ (G - G')) by (apply Z.pow_pos_nonneg; lia). nia. }
  rewrite (pow2_split ex ez' G') in Hle' by lia.
  assert (0 < 2 ^ (ez' - G')) by (apply Z.pow_pos_nonneg; lia).
  assert (0 < 2 ^ (ex - ez')) by (apply Z.pow_pos_nonneg; lia).
  nia.
Qed.

Lemma binary_round_opp (m : positive) (e : Z) :
  binary_round prec emax true m e = SFopp (binary_round prec emax false m e).
Proof.
  unfold binary_round. destruct (shl_align m e _) as [mz ez].
  unfold binary_round_aux.
  destruct (shr_fexp prec emax (Zpos mz) ez loc_Exact) as [mrs1 e1].
  destruct (shr_fexp prec emax _ e1 loc_Exact) as [mrs3 e3].
  destruct (shr_m mrs3); try reflexivity. destruct (e3 <=? emax - prec); reflexivity.
Qed.

Lemma SFcompare_opp (x y : float64) :
  SFcompare (SFopp x) (SFopp y) = SFcompare y x.
Proof.
  rewrite (SFcompare_antisym x y).
  destruct x as [sx|sx| |sx mx ex], y as [sy|sy| |sy my ey]; cbn [SFopp];
    try reflexivity;
    try (destruct sx; try destruct sy; reflexivity);
    try (destruct sy; reflexivity).
  destruct sx, sy; cbn [negb SFcompare option_map]; try reflexivity;
    fold (Pos.compare mx my); destruct (ex ?= ey); cbn [CompOpp]; try reflexivity;
    destruct (mx ?= my)%positive; reflexivity.
Qed.

Lemma leb_opp (x y : float64) : (- x <=? - y)%f64 = (y <=? x)%f64.
Proof. unfold leb, neg, SFleb. now rewrite SFcompare_opp. Qed.

Lemma binary_normalize_pos_signed (z e : Z) :
  0 < z -> signed false (binary_normalize prec emax z e false).
Proof.
  destruct z as [|p|p]; try lia. intros _. apply binary_round_signed.
Qed.

(** The order of two representable positive numbers, given by exponent
    then mantissa, is the order of their values on a common exponent. *)
Lemma bounded_lt_aligned (mx my : positive) (ex ey ez : Z) :
  bounded prec emax mx ex = true -> bounded prec emax my ey = true ->
  ez <= ex -> ez <= ey ->
  ex < ey \/ (ex = ey /\ Zpos mx < Zpos my) ->
  Zpos mx * 2 ^ (ex - ez) < Zpos my * 2 ^ (ey - ez).
Proof.
  intros Hbx Hby Hzx Hzy Hlt.
  destruct (bounded_facts mx ex Hbx) as (_ & Hmx & Hex & _).
  destruct (bounded_facts my ey Hby) as (_ & _ & Hey & Hny).
  assert (Hpx : 0 < 2 ^ (ex - ez)) by (apply Z.pow_pos_nonneg; lia).
  destruct Hlt as [Hlt|[-> Hlt]]; [|nia].
  destruct (Hny ltac:(lia)) as [_ Hmy].
  assert (Hp : 2 * 2 ^ (ex - ez) <= 2 ^ (ey - ez)).
  { rewrite <- Z.pow_succ_r by lia. apply Z.pow_le_mono_r; lia. }
  change (2 ^ 53) with (2 * 2 ^ 52) in Hmx. nia.
Qed.

(** The difference of two ordered finite values is a number of
    non-negative sign. *)
Lemma sub_ordered_signed (minV maxV : float64) :
  finite minV -> finite maxV -> (minV <? maxV)%f64 = true ->
  signed false (maxV - minV)%f64.
Proof.
  intros (Vn & Nn & In) (Vx & Nx & Ix) Hlt.
  apply ltb_true_key in Hlt. destruct Hlt as (_ & _ & Hlt).
  destruct maxV as [s1|s1| |s1 m1 e1]; try discriminate;
    destruct minV as [s2|s2| |s2 m2 e2]; try discriminate;
    cbn [key] in Hlt; unfold lexlt in Hlt.
  - exfalso. lia.
  - destruct s2; [|exfalso; lia]. unfold signed. cbn. eauto.
  - destruct s1; [exfalso; lia|]. unfold signed. cbn. eauto.
  - cbn [valid_binary] in Vn, Vx.
    unfold sub, SFsub. cbv zeta. apply binary_normalize_pos_signed.
    set (ez := Z.min e1 e2).
    destruct (shl_align_fst m1 e1 ez ltac:(lia)) as [E1 _].
    destruct (shl_align_fst m2 e2 ez ltac:(lia)) as [E2 _].
    assert (P1 : 0 < Zpos (fst (shl_align m1 e1 ez))) by lia.
    assert (P2 : 0 < Zpos (fst (shl_align m2 e2 ez))) by lia.
    destruct s1, s2; cbn [cond_Zopp key] in *; try lia.
    + pose proof (bounded_lt_aligned m1 m2 e1 e2 ez Vx Vn ltac:(lia) ltac:(lia)
                    ltac:(lia)). lia.
    + pose proof (bounded_lt_aligned m2 m1 e2 e1 ez Vn Vx ltac:(lia) ltac:(lia)
                    ltac:(lia)). lia.
Qed.

(** A draw of [rand.Float64] is a zero or a positive finite number. *)
Lemma unitInterval_cases (r : float64) :
  unitInterval r -> (exists s, r = S754_zero s) \/ (exists m e, r = S754_finite false m e).
Proof.
  intros (_ & H0 & H1). destruct r as [s|[]| |[] m e]; try discriminate; eauto.
Qed.

Lemma mul_unit_signed (r d : float64) :
  unitInterval r -> signed false d -> IsInf d = false ->
  (exists s, (r * d)%f64 = S754_zero s) \/ signed false (r * d)%f64.
Proof.
  intros Hr Hd Hi.
  destruct Hd as [->|[->|(md & ed & ->)]]; try discriminate;
    destruct (unitInterval_cases r Hr) as [(s & ->)|(mr & er & ->)];
    try (left; cbn; eauto; fail).
  right. unfold mul, SFmul. cbn [xorb]. apply binary_round_aux_signed. lia.
Qed.

(** Adding a zero or a number of non-negative sign to a finite value does
    not go below that value. *)
Lemma add_nonneg_ge (x p : float64) :
  finite x ->
  (exists s, p = S754_zero s) \/ signed false p ->
  (x <=? x + p)%f64 = true.
Proof.
  intros (Vx & Hn & Hi) Hp.
  assert (Hp' : (exists s, p = S754_zero s) \/ p = S754_infinity false \/
                exists mp ep, p = S754_finite false mp ep).
  { destruct Hp as [Hp|[->|[->|Hp]]]; eauto. }
  clear Hp. destruct x as [sx|sx| |sx mx ex]; try discriminate.
  - destruct Hp' as [(s & ->)|[->|(mp & ep & ->)]]; try reflexivity.
    destruct sx, s; reflexivity.
  - cbn [valid_binary] in Vx.
    destruct Hp' as [(s & ->)|[->|(mp & ep & ->)]].
    + change (S754_finite sx mx ex + S754_zero s)%f64 with (S754_finite sx mx ex).
      unfold leb, SFleb. rewrite SFcompare_refl by reflexivity. reflexivity.
    + destruct sx; reflexivity.
    + unfold add, SFadd. cbv zeta. set (ez := Z.min ex ep).
      destruct (shl_align_fst mx ex ez ltac:(lia)) as [E1 _].
      destruct (shl_align_fst mp ep ez ltac:(lia)) as [E2 _].
      set (X := fst (shl_align mx ex ez)) in *.
      set (P := fst (shl_align mp ep ez)) in *.
      destruct sx; cbn [cond_Zopp].
      * destruct (- Zpos X + Zpos P) as [|q|q] eqn:Eq; cbn [binary_normalize].
        -- reflexivity.
        -- destruct (binary_round_signed false q ez) as [->|[->|(m & e & ->)]]; reflexivity.
        -- rewrite binary_round_opp.
           change (S754_finite true mx ex) with (- S754_finite false mx ex)%f64.
           fold (neg (binary_round prec emax false q ez)).
           rewrite leb_opp.
           apply atMost_leb, (binary_round_le mx q ex ez ez); [exact Vx|lia|lia|].
           rewrite Z.sub_diag, Z.mul_1_r. lia.
      * change (Zpos X + Zpos P) with (Zpos (X + P)). cbn [binary_normalize].
        apply (binary_round_ge mx (X + P) ex ez ez); [exact Vx|lia|lia|].
        rewrite Z.sub_diag, Z.mul_1_r. lia.
Qed.

(** ** The running minimum and maximum *)

Lemma leb_true_key (x y : float64) :
  (x <=? y)%f64 = true <->
  IsNaN x = false /\ IsNaN y = false /\ (lexlt (key x) (key y) \/ key x = key y).
Proof.
  unfold leb, SFleb. split.
  - intros H.
    assert (Hx : IsNaN x = false) by (destruct x; trivial; discriminate).
    assert (Hy : IsNaN y = false)
      by (destruct y; trivial; destruct x; discriminate).
    rewrite (SFcompare_key x y Hx Hy) in H.
    destruct (lexcmp_spec (key x) (key y)); try discriminate; auto.
  - intros (Hx & Hy & Hle). rewrite (SFcompare_key x y Hx Hy).
    destruct (lexcmp_spec (key x) (key y)) as [E|_|Hgt]; trivial.
    exfalso. destruct Hle as [Hlt|E].
    + destruct (key x) as [[? ?] ?], (key y) as [[? ?] ?]. unfold lexlt in *. lia.
    + rewrite E in Hgt. destruct (key y) as [[? ?] ?]. unfold lexlt in *. lia.
Qed.

Lemma leb_trans (x y z : float64) :
  (x <=? y)%f64 = true -> (y <=? z)%f64 = true -> (x <=? z)%f64 = true.
Proof.
  rewrite !leb_true_key. intros (Hx & Hy & H1) (_ & Hz & H2).
  repeat split; trivial.
  destruct (key x) as [[? ?] ?], (key y) as [[? ?] ?], (key z) as [[? ?] ?].
  unfold lexlt in *.
  destruct H1 as [H1|H1], H2 as [H2|H2];
    try (inversion H1; subst); try (inversion H2; subst); auto; left; lia.
Qed.

Lemma ltb_leb (x y : float64) : (x <? y)%f64 = true -> (x <=? y)%f64 = true.
Proof.
  unfold ltb, leb, SFltb, SFleb. destruct (SFcompare x y) as [[]|]; congruence.
Qed.

Lemma leb_neq_ltb (x y : float64) :
  (x <=? y)%f64 = true -> (x =? y)%f64 = false -> (x <? y)%f64 = true.
Proof.
  unfold ltb, leb, eqb, SFltb, SFleb, SFeqb.
  destruct (SFcompare x y) as [[]|]; congruence.
Qed.

Lemma leb_refl (x : float64) : IsNaN x = false -> (x <=? x)%f64 = true.
Proof. intros H. unfold leb, SFleb. now rewrite SFcompare_refl. Qed.

(** On numbers, the loop keeps its minimum at or below, and its maximum at
    or above, the first element, and both among the elements seen. *)
Lemma minMax_fold_invariant (all : list float64) (d0 : float64) (l : list float64) :
  forall a b,
    Forall (fun v => IsNaN v = false) l ->
    In a all -> In b all -> incl l all ->
    (a <=? d0)%f64 = true -> (d0 <=? b)%f64 = true ->
    let r := fold_left minMaxStep l (a, b) in
    In (fst r) all /\ In (snd r) all /\
    (fst r <=? d0)%f64 = true /\ (d0 <=? snd r)%f64 = true.
Proof.
  induction l as [|v l IH]; intros a b Hl Ha Hb Hincl Had Hdb; cbn [fold_left].
  - cbn. auto.
  - inversion Hl as [|v' l' Hv Hl']; subst.
    assert (Hvin : In v all) by (apply Hincl; left; reflexivity).
    assert (Hincl' : incl l all) by (intros z Hz; apply Hincl; right; exact Hz).
    cbn [minMaxStep]. apply IH; trivial.
    + destruct (v <? a)%f64; assumption.
    + destruct (v >? b)%f64; assumption.
    + destruct (v <? a)%f64 eqn:E; [|assumption].
      eapply leb_trans; [apply ltb_leb, E|exact Had].
    + destruct (v >? b)%f64 eqn:E; [|assumption].
      eapply leb_trans; [exact Hdb|apply ltb_leb, E].
Qed.

Lemma minMax_spec (data : list float64) :
  data <> [] -> Forall (fun v => IsNaN v = false) data ->
  In (fst (minMax data)) data /\ In (snd (minMax data)) data /\
  (fst (minMax data) <=? snd (minMax data))%f64 = true.
Proof.
  intros Hne Hall. destruct data as [|d0 data]; [congruence|].
  unfold minMax. change (index zero (d0 :: data) 0) with d0.
  assert (Hd0 : IsNaN d0 = false) by (inversion Hall; assumption).
  destruct (minMax_fold_invariant (d0 :: data) d0 (d0 :: data) d0 d0 Hall
              (or_introl eq_refl) (or_introl eq_refl) (incl_refl _)
              (leb_refl d0 Hd0) (leb_refl d0 Hd0)) as (H1 & H2 & H3 & H4).
  split; [exact H1|]. split; [exact H2|]. eapply leb_trans; eassumption.
Qed.

(** ** The threshold is not below the minimum *)

Lemma splitPoint_ge_min (minV maxV r : float64) :
  finite minV -> finite maxV -> (minV <? maxV)%f64 = true ->
  IsInf (maxV - minV)%f64 = false -> unitInterval r ->
  (minV <=? splitPoint minV maxV r)%f64 = true.
Proof.
  intros Hn Hx Hlt Hinf Hr. unfold splitPoint.
  apply add_nonneg_ge; [exact Hn|].
  apply mul_unit_signed; [exact Hr| |exact Hinf].
  apply sub_ordered_signed; assumption.
Qed.

Lemma finite_number (v : float64) : finite v -> IsNaN v = false.
Proof. intros (_ & H & _). exact H. Qed.

(** ** Values and the order *)

(** The order of two representable positive numbers, given by exponent
    then mantissa, is the order of their values. *)
Lemma bounded_le_val (mx my : positive) (ex ey : Z) :
  bounded prec emax mx ex = true -> bounded prec emax my ey = true ->
  ex < ey \/ (ex = ey /\ Zpos mx <= Zpos my) ->
  Zpos mx * 2 ^ (ex + 1074) <= Zpos my * 2 ^ (ey + 1074).
Proof.
  intros Hbx Hby H.
  destruct (bounded_facts mx ex Hbx) as (_ & _ & Hex & _).
  destruct (bounded_facts my ey Hby) as (_ & _ & Hey & _).
  destruct H as [H|[-> H]].
  - pose proof (bounded_lt_aligned mx my ex ey (-1074) Hbx Hby ltac:(lia) ltac:(lia)
                  (or_introl H)) as Hlt.
    replace (ex - -1074) with (ex + 1074) in Hlt by lia.
    replace (ey - -1074) with (ey + 1074) in Hlt by lia. lia.
  - assert (0 < 2 ^ (ey + 1074)) by (apply Z.pow_pos_nonneg; lia). nia.
Qed.

Lemma atMost_val (res : float64) (mx : positive) (ex : Z) :
  bounded prec emax mx ex = true -> atMost res mx ex ->
  finite res /\ 0 <= val res <= Zpos mx * 2 ^ (ex + 1074).
Proof.
  intros Hb [->|(m3 & e3 & -> & Hb3 & H)].
  - split; [repeat split|]. cbn [val].
    destruct (bounded_facts mx ex Hb) as (_ & _ & Hex & _).
    assert (0 < 2 ^ (ex + 1074)) by (apply Z.pow_pos_nonneg; lia). nia.
  - split; [repeat split; exact Hb3|]. cbn [val cond_Zopp].
    destruct (bounded_facts m3 e3 Hb3) as (_ & _ & He3 & _).
    assert (0 < 2 ^ (e3 + 1074)) by (apply Z.pow_pos_nonneg; lia).
    split; [nia|]. apply bounded_le_val; assumption.
Qed.

Lemma val_finite_pos (m : positive) (e : Z) :
  -1074 <= e -> 0 < val (S754_finite false m e).
Proof.
  intros He. cbn [val cond_Zopp].
  assert (0 < 2 ^ (e + 1074)) by (apply Z.pow_pos_nonneg; lia). nia.
Qed.

Lemma val_finite_neg (m : positive) (e : Z) :
  -1074 <= e -> val (S754_finite true m e) < 0.
Proof.
  intros He. cbn [val cond_Zopp].
  assert (0 < 2 ^ (e + 1074)) by (apply Z.pow_pos_nonneg; lia). nia.
Qed.

Lemma bounded_lt_val (mx my : positive) (ex ey : Z) :
  bounded prec emax mx ex = true -> bounded prec emax my ey = true ->
  ex < ey \/ (ex = ey /\ Zpos mx < Zpos my) ->
  Zpos mx * 2 ^ (ex + 1074) < Zpos my * 2 ^ (ey + 1074).
Proof.
  intros Hbx Hby H.
  destruct (bounded_facts mx ex Hbx) as (_ & _ & Hex & _).
  destruct (bounded_facts my ey Hby) as (_ & _ & Hey & _).
  pose proof (bounded_lt_aligned mx my ex ey (-1074) Hbx Hby ltac:(lia) ltac:(lia) H)
    as Hlt.
  replace (ex - -1074) with (ex + 1074) in Hlt by lia.
  replace (ey - -1074) with (ey + 1074) in Hlt by lia. exact Hlt.
Qed.

(** On finite values the order of [SFcompare] is the order of the values. *)
Lemma lexlt_val (x y : float64) :
  finite x -> finite y -> lexlt (key x) (key y) -> val x < val y.
Proof.
  intros (Vx & Nx & Ix) (Vy & Ny & Iy) H.
  destruct x as [sx|sx| |sx mx ex]; try discriminate;
    destruct y as [sy|sy| |sy my ey]; try discriminate;
    cbn [valid_binary] in Vx, Vy.
  - cbn in H. lia.
  - destruct (bounded_facts my ey Vy) as (_ & _ & Hey & _).
    destruct sy; [cbn in H; lia|]. apply val_finite_pos. lia.
  - destruct (bounded_facts mx ex Vx) as (_ & _ & Hex & _).
    destruct sx; [|cbn in H; lia]. apply val_finite_neg. lia.
  - destruct (bounded_facts mx ex Vx) as (_ & _ & Hex & _).
    destruct (bounded_facts my ey Vy) as (_ & _ & Hey & _).
    destruct sx, sy; cbn [key] in H; unfold lexlt in H.
    + pose proof (bounded_lt_val my mx ey ex Vy Vx ltac:(lia)).
      cbn [val cond_Zopp]. lia.
    + pose proof (val_finite_neg mx ex ltac:(lia)).
      pose proof (val_finite_pos my ey ltac:(lia)). lia.
    + lia.
    + pose proof (bounded_lt_val mx my ex ey Vx Vy ltac:(lia)).
      cbn [val cond_Zopp]. lia.
Qed.

Lemma key_eq_val (x y : float64) :
  IsNaN x = false -> IsNaN y = false -> IsInf x = false -> IsInf y = false ->
  key x = key y -> val x = val y.
Proof.
  intros Nx Ny Ix Iy H.
  destruct x as [sx|sx| |sx mx ex]; try discriminate;
    destruct y as [sy|sy| |sy my ey]; try discriminate; try reflexivity;
    try (destruct sx; discriminate); try (destruct sy; discriminate).
  destruct sx, sy; cbn [key] in H; inversion H; try reflexivity.
  replace ex with ey by lia. cbn [val cond_Zopp]. lia.
Qed.

Lemma ltb_val (x y : float64) :
  finite x -> finite y -> (x <? y)%f64 = true -> val x < val y.
Proof.
  intros Hx Hy H. apply ltb_true_key in H. apply lexlt_val; tauto.
Qed.

Lemma leb_val (x y : float64) :
  finite x -> finite y -> (x <=? y)%f64 = true -> val x <= val y.
Proof.
  intros Hx Hy H. apply leb_true_key in H. destruct H as (_ & _ & [H|H]).
  - pose proof (lexlt_val x y Hx Hy H). lia.
  - destruct Hx as (_ & Nx & Ix), Hy as (_ & Ny & Iy).
    rewrite (key_eq_val x y); trivial. lia.
Qed.

Lemma val_leb (x y : float64) :
  finite x -> finite y -> val x <= val y -> (x <=? y)%f64 = true.
Proof.
  intros Hx Hy H. destruct (y <? x)%f64 eqn:E.
  - pose proof (ltb_val y x Hy Hx E). lia.
  - apply (ltb_false_geb y x); [apply finite_number, Hy|apply finite_number, Hx|exact E].
Qed.

(** ** Rounding against a finite bound, on values *)

Lemma binary_normalize_le (M ez : Z) (b : float64) :
  -1074 <= ez -> finite b -> M * 2 ^ (ez + 1074) <= val b ->
  (binary_normalize prec emax M ez false <=? b)%f64 = true.
Proof.
  intros Hez Hb Hle.
  assert (Hp : 0 < 2 ^ (ez + 1074)) by (apply Z.pow_pos_nonneg; lia).
  destruct M as [|S|S]; cbn [binary_normalize].
  - apply val_leb; [repeat split|exact Hb|cbn [val]; lia].
  - destruct Hb as (Vb & Nb & Ib).
    destruct b as [sb|sb| |sb mb eb]; try discriminate; cbn [val] in Hle; try lia.
    cbn [valid_binary] in Vb.
    destruct (bounded_facts mb eb Vb) as (_ & _ & Heb & _).
    destruct sb; [pose proof (val_finite_neg mb eb ltac:(lia)) as Hv;
                  cbn [val] in Hv; lia|].
    cbn [cond_Zopp] in Hle. apply atMost_leb.
    apply (binary_round_le mb S eb ez (-1074)); trivial; lia.
  - rewrite binary_round_opp.
    destruct Hb as (Vb & Nb & Ib).
    destruct b as [sb|sb| |[] mb eb]; try discriminate.
    + destruct (binary_round_signed false S ez) as [->|[->|(m & e & ->)]]; reflexivity.
    + cbn [valid_binary] in Vb.
      destruct (bounded_facts mb eb Vb) as (_ & _ & Heb & _).
      change (S754_finite true mb eb) with (- S754_finite false mb eb)%f64.
      fold (neg (binary_round prec emax false S ez)). rewrite leb_opp.
      cbn [val cond_Zopp] in Hle.
      change (Zneg S) with (- Zpos S) in Hle. rewrite !Z.mul_opp_l in Hle.
      apply (binary_round_ge mb S eb ez (-1074)); trivial; try lia.
      replace (ez - -1074) with (ez + 1074) by lia.
      replace (eb - -1074) with (eb + 1074) by lia. lia.
    + destruct (binary_round_signed false S ez) as [->|[->|(m & e & ->)]]; reflexivity.
Qed.

(** The sum and the difference of two finite non-zero numbers round the
    exact sum and difference of their values. *)
Lemma add_finite_val (sx sy : bool) (mx my : positive) (ex ey : Z) :
  -1074 <= ex -> -1074 <= ey ->
  exists M ez,
    (S754_finite sx mx ex + S754_finite sy my ey)%f64
    = binary_normalize prec emax M ez false /\
    -1074 <= ez /\
    M * 2 ^ (ez + 1074) = val (S754_finite sx mx ex) + val (S754_finite sy my ey).
Proof.
  intros Hx Hy. unfold add, SFadd. cbv zeta. set (ez := Z.min ex ey).
  destruct (shl_align_fst mx ex ez ltac:(lia)) as [E1 _].
  destruct (shl_align_fst my ey ez ltac:(lia)) as [E2 _].
  set (X := fst (shl_align mx ex ez)) in *.
  set (Y := fst (shl_align my ey ez)) in *.
  exists (cond_Zopp sx (Zpos X) + cond_Zopp sy (Zpos Y)), ez.
  split; [reflexivity|]. split; [lia|]. cbn [val].
  replace (ex + 1074) with (ex - ez + (ez + 1074)) by lia.
  replace (ey + 1074) with (ey - ez + (ez + 1074)) by lia.
  rewrite (Z.pow_add_r 2 (ex - ez)), (Z.pow_add_r 2 (ey - ez)) by lia.
  destruct sx, sy; cbn [cond_Zopp]; rewrite E1, E2; ring.
Qed.

Lemma sub_finite_val (sx sy : bool) (mx my : positive) (ex ey : Z) :
  -1074 <= ex -> -1074 <= ey ->
  exists M ez,
    (S754_finite sx mx ex - S754_finite sy my ey)%f64
    = binary_normalize prec emax M ez false /\
    -1074 <= ez /\
    M * 2 ^ (ez + 1074) = val (S754_finite sx mx ex) - val (S754_finite sy my ey).
Proof.
  intros Hx Hy. unfold sub, SFsub. cbv zeta. set (ez := Z.min ex ey).
  destruct (shl_align_fst mx ex ez ltac:(lia)) as [E1 _].
  destruct (shl_align_fst my ey ez ltac:(lia)) as [E2 _].
  set (X := fst (shl_align mx ex ez)) in *.
  set (Y := fst (shl_align my ey ez)) in *.
  exists (cond_Zopp sx (Zpos X) - cond_Zopp sy (Zpos Y)), ez.
  split; [reflexivity|]. split; [lia|]. cbn [val].
  replace (ex + 1074) with (ex - ez + (ez + 1074)) by lia.
  replace (ey + 1074) with (ey - ez + (ez + 1074)) by lia.
  rewrite (Z.pow_add_r 2 (ex - ez)), (Z.pow_add_r 2 (ey - ez)) by lia.
  destruct sx, sy; cbn [cond_Zopp]; rewrite E1, E2; ring.
Qed.

(** A sum of finite values whose exact value is at most a finite bound is
    at most that bound. *)
Lemma add_le_bound (x p b : float64) :
  finite x -> finite p -> finite b -> val x + val p <= val b ->
  (x + p <=? b)%f64 = true.
Proof.
  intros Hx Hp Hb Hle.
  destruct x as [sx|sx| |sx mx ex]; try (destruct Hx as (_ & ? & ?); discriminate);
    destruct p as [sp|sp| |sp mp ep]; try (destruct Hp as (_ & ? & ?); discriminate).
  - assert (E : exists s, (S754_zero sx + S754_zero sp)%f64 = S754_zero s)
      by (destruct sx, sp; cbn; eauto).
    destruct E as (s & ->). apply val_leb; [repeat split|exact Hb|exact Hle].
  - change (S754_zero sx + S754_finite sp mp ep)%f64 with (S754_finite sp mp ep).
    apply val_leb; trivial.
  - change (S754_finite sx mx ex + S754_zero sp)%f64 with (S754_finite sx mx ex).
    apply val_leb; trivial. cbn [val] in *. lia.
  - destruct Hx as (Vx & _), Hp as (Vp & _). cbn [valid_binary] in Vx, Vp.
    destruct (bounded_facts mx ex Vx) as (_ & _ & Hex & _).
    destruct (bounded_facts mp ep Vp) as (_ & _ & Hep & _).
    destruct (add_finite_val sx sp mx mp ex ep ltac:(lia) ltac:(lia))
      as (M & ez & -> & Hez & HM).
    apply binary_normalize_le; trivial. lia.
Qed.

(** ** The rounded difference and its predecessor *)

(** A finite rounding of a positive number is a representable [d] that is
    at most the number, or the successor of a representable normal [q]
    that is. *)
Lemma binary_round_pred (S : positive) (ez : Z) :
  -1074 <= ez ->
  IsInf (binary_round prec emax false S ez) = false ->
  exists md ed,
    binary_round prec emax false S ez = S754_finite false md ed /\
    bounded prec emax md ed = true /\
    (Zpos md * 2 ^ (ed + 1074) <= Zpos S * 2 ^ (ez + 1074) \/
     exists mq eq,
       bounded prec emax mq eq = true /\
       Zpos mq * 2 ^ (eq + 1074) <= Zpos S * 2 ^ (ez + 1074) /\
       2 ^ 52 <= Zpos mq /\
       ((eq = ed /\ Zpos md = Zpos mq + 1) \/
        (ed = eq + 1 /\ Zpos md = 2 ^ 52 /\ Zpos mq = 2 ^ 53 - 1))).
Proof.
  intros Hez. unfold binary_round.
  change (Zpos (digits2_pos S)) with (Zdigits2 (Zpos S)).
  set (F := fexp prec emax (Zdigits2 (Zpos S) + ez)).
  assert (HF : -1074 <= F) by (subst F; unfold fexp, emin, prec, emax in *; lia).
  pose proof (shl_align_spec S ez F) as Hal.
  destruct (shl_align_scaled S ez F (-1074) ltac:(lia) ltac:(lia)) as [Hs Hv].
  destruct (shl_align S ez F) as [mz ez']. cbn [fst snd] in Hs, Hv.
  replace (ez' - -1074) with (ez' + 1074) in Hv by lia.
  replace (ez - -1074) with (ez + 1074) in Hv by lia. rewrite <- Hv.
  destruct (binary_round_aux_cases_exact false (Zpos mz) ez' ltac:(lia))
    as (m2 & Hm2 & Hex0 & _ & E).
  cbv zeta in Hm2, Hex0, E. rewrite Hal in Hm2, Hex0, E. fold F in Hm2, Hex0, E.
  set (n1 := F - ez') in *.
  set (m1 := if 0 <? n1 then Zpos mz / 2 ^ n1 else Zpos mz) in *.
  set (e1 := if 0 <? n1 then ez' + n1 else ez') in *.
  assert (He1 : e1 = F) by (subst e1 n1; destruct (0 <? F - ez') eqn:Hn;
                            [|apply Z.ltb_ge in Hn]; lia).
  destruct (Zdigits2_bounds (Zpos mz) ltac:(lia)) as (HDz & HDzlo & HDzhi).
  assert (Hn1 : 0 <= n1 /\ Zdigits2 (Zpos mz) <= n1 + 53 /\
                (-1074 < F -> Zdigits2 (Zpos mz) = n1 + 53))
    by (subst n1 F; unfold fexp, emin, prec, emax in *; lia).
  destruct Hn1 as (Hn0 & Hn1 & Hn1').
  assert (Hpn : 0 < 2 ^ n1) by (apply Z.pow_pos_nonneg; lia).
  assert (Hm1 : 0 < m1 < 2 ^ 53 /\ (-1074 < F -> 2 ^ 52 <= m1) /\
                m1 * 2 ^ n1 <= Zpos mz).
  { pose proof (Z.pow_le_mono_r 2 (Zdigits2 (Zpos mz)) (n1 + 53) ltac:(lia) Hn1) as Hp.
    subst m1. destruct (0 <? n1) eqn:Hn;
      [apply Z.ltb_lt in Hn|apply Z.ltb_ge in Hn].
    - assert (HFl : -1074 < F) by (subst n1; lia).
      assert (Hlo : 2 ^ 52 <= Zpos mz / 2 ^ n1).
      { apply Z.div_le_lower_bound; [exact Hpn|].
        rewrite <- Z.pow_add_r by lia. rewrite (Hn1' HFl) in HDzlo.
        replace (n1 + 52) with (n1 + 53 - 1) by lia. exact HDzlo. }
      split; [split; [lia|]|split; [intros _; exact Hlo|]].
      + apply Z.div_lt_upper_bound; [exact Hpn|].
        rewrite <- Z.pow_add_r by lia. lia.
      + rewrite Z.mul_comm. apply Z.mul_div_le. exact Hpn.
    - assert (En : n1 = 0) by lia.
      replace (n1 + 53) with 53 in Hp by lia. split; [lia|]. split.
      + intros HFl. rewrite (Hn1' HFl), En in HDzlo. exact HDzlo.
      + rewrite En. change (2 ^ 0) with 1. lia. }
  destruct Hm1 as (Hm1 & Hm1lo & Htr).
  assert (Hval1 : m1 * 2 ^ (F + 1074) <= Zpos mz * 2 ^ (ez' + 1074)).
  { replace (F + 1074) with (n1 + (ez' + 1074)) by (subst n1; lia).
    rewrite Z.pow_add_r by lia.
    assert (0 < 2 ^ (ez' + 1074)) by (apply Z.pow_pos_nonneg; lia). nia. }
  rewrite He1 in E.
  destruct (second_shift_canonical m2 F ltac:(lia) ltac:(lia)
              ltac:(intros HFl; specialize (Hm1lo HFl); lia))
    as (Hm3 & Hcase & Hcan).
  cbv zeta in Hm3, Hcase, Hcan.
  set (n3 := fexp prec emax (Zdigits2 m2 + F) - F) in *.
  set (m3 := if 0 <? n3 then m2 / 2 ^ n3 else m2) in *.
  set (e3 := if 0 <? n3 then F + n3 else F) in *.
  assert (Hm3pos : 0 < m3).
  { destruct Hcase as [[_ ->]|(_ & -> & _)]; [lia|reflexivity]. }
  rewrite E. destruct m3 as [|p|p] eqn:Ep; try lia.
  destruct (e3 <=? emax - prec) eqn:He3; [|discriminate].
  apply Z.leb_le in He3. unfold emax, prec in He3. intros _.
  exists p, e3. split; [reflexivity|].
  split; [apply bounded_intro; [apply Hcan; lia|lia]|].
  destruct (Z.eq_dec m2 m1) as [Heq|Hne].
  - left. destruct Hcase as [[-> ->]|(_ & _ & ?)]; [|lia].
    rewrite Heq. exact Hval1.
  - right. assert (Hup : m2 = m1 + 1) by lia.
    assert (HFl : -1074 < F).
    { destruct (Z.eq_dec F (-1074)) as [HFe|]; [|lia].
      exfalso. apply Hne, Hex0. subst n1. lia. }
    specialize (Hm1lo HFl).
    destruct m1 as [|q|q] eqn:Eq; try lia.
    assert (HDq : Zdigits2 (Zpos q) = 53).
    { apply Zdigits2_unique; [|lia]. change (2 ^ (53 - 1)) with (2 ^ 52). lia. }
    assert (HeF : F <= e3) by (destruct Hcase as [[-> _]|(-> & _)]; lia).
    exists q, F. split.
    { apply bounded_intro; [|lia]. rewrite HDq. unfold fexp, emin, prec, emax. lia. }
    split; [exact Hval1|]. split; [exact Hm1lo|].
    destruct Hcase as [[-> ->]|(-> & -> & Hm2')].
    + left. split; [reflexivity|lia].
    + right. split; [reflexivity|]. split; [reflexivity|lia].
Qed.

(** The difference of two ordered finite values, when it does not
    overflow, is such a [d] for the exact difference of the values. *)
Lemma sub_ordered_pred (minV maxV : float64) :
  finite minV -> finite maxV -> val minV < val maxV ->
  IsInf (maxV - minV)%f64 = false ->
  exists md ed,
    (maxV - minV)%f64 = S754_finite false md ed /\
    bounded prec emax md ed = true /\
    (Zpos md * 2 ^ (ed + 1074) <= val maxV - val minV \/
     exists mq eq,
       bounded prec emax mq eq = true /\
       Zpos mq * 2 ^ (eq + 1074) <= val maxV - val minV /\
       2 ^ 52 <= Zpos mq /\
       ((eq = ed /\ Zpos md = Zpos mq + 1) \/
        (ed = eq + 1 /\ Zpos md = 2 ^ 52 /\ Zpos mq = 2 ^ 53 - 1))).
Proof.
  intros (Vn & Nn & In) (Vx & Nx & Ix) Hv Hinf.
  destruct maxV as [s1|s1| |s1 m1 e1]; try discriminate;
    destruct minV as [s2|s2| |s2 m2 e2]; try discriminate;
    cbn [valid_binary] in Vn, Vx.
  - destruct (bounded_facts m2 e2 Vn) as (_ & _ & He2 & _).
    destruct s2; [|pose proof (val_finite_pos m2 e2 ltac:(lia)); cbn [val] in *; lia].
    exists m2, e2. split; [reflexivity|]. split; [exact Vn|].
    left. cbn [val cond_Zopp]. lia.
  - destruct (bounded_facts m1 e1 Vx) as (_ & _ & He1 & _).
    destruct s1; [pose proof (val_finite_neg m1 e1 ltac:(lia)); cbn [val] in *; lia|].
    exists m1, e1. split; [reflexivity|]. split; [exact Vx|].
    left. cbn [val cond_Zopp]. lia.
  - destruct (bounded_facts m1 e1 Vx) as (_ & _ & He1 & _).
    destruct (bounded_facts m2 e2 Vn) as (_ & _ & He2 & _).
    destruct (sub_finite_val s1 s2 m1 m2 e1 e2 ltac:(lia) ltac:(lia))
      as (M & ez & E & Hez & HM).
    rewrite E in Hinf |- *. rewrite <- HM.
    assert (Hp : 0 < 2 ^ (ez + 1074)) by (apply Z.pow_pos_nonneg; lia).
    destruct M as [|S|S]; try lia. cbn [binary_normalize] in Hinf |- *.
    apply binary_round_pred; assumption.
Qed.

(** ** The scaled difference *)

(** A representable number below 1 has an exponent of at most -53. *)
Lemma below_one_exponent (mr : positive) (er : Z) :
  bounded prec emax mr er = true ->
  (S754_finite false mr er <? one)%f64 = true -> er <= -53.
Proof.
  intros Hb H. apply ltb_true_key in H. destruct H as (_ & _ & H).
  destruct (bounded_facts mr er Hb) as (_ & _ & _ & Hn).
  cbn [key one] in H. unfold lexlt in H.
  destruct (Z_le_gt_dec er (-53)) as [|Hgt]; [assumption|].
  destruct (Hn ltac:(lia)) as [_ Hlo].
  change (2 ^ 52) with 4503599627370496 in Hlo. lia.
Qed.

Lemma mul_canonical_input (mr md : positive) (er ed : Z) :
  bounded prec emax md ed = true -> er <= 0 ->
  er + ed <= fexp prec emax (Zdigits2 (Zpos (mr * md)) + (er + ed)).
Proof.
  intros Hd Her. destruct (bounded_facts md ed Hd) as (_ & _ & Hed & Hn).
  destruct (Z.eq_dec ed (-1074)) as [->|Hne];
    [unfold fexp, emin, prec, emax; lia|].
  destruct (Hn ltac:(lia)) as [_ Hlo].
  pose proof (Zdigits2_ge_pow (Zpos (mr * md)) 52 ltac:(lia)
                ltac:(rewrite Pos2Z.inj_mul; nia)).
  unfold fexp, emin, prec, emax. lia.
Qed.

(** The product of a number below 1 and a representable [d] is at most
    [d]. *)
Lemma mul_le_self (mr md : positive) (er ed : Z) :
  bounded prec emax mr er = true -> bounded prec emax md ed = true ->
  er <= -53 ->
  atMost (S754_finite false mr er * S754_finite false md ed)%f64 md ed.
Proof.
  intros Hr Hd Her. unfold mul, SFmul. cbn [xorb].
  destruct (bounded_facts mr er Hr) as (_ & Hmr & _ & _).
  apply round_aux_le_mid; [exact Hd|lia|apply mul_canonical_input; [exact Hd|lia]|].
  replace (ed - (er + ed)) with (- er) by lia.
  pose proof (Z.pow_le_mono_r 2 53 (- er) ltac:(lia) ltac:(lia)) as HK.
  rewrite Pos2Z.inj_mul. nia.
Qed.

(** When [d] is the successor of a normal [q], the product of a number
    below 1 and [d] is at most [q]. *)
Lemma mul_le_pred (mr md mq : positive) (er ed eq : Z) :
  bounded prec emax mr er = true -> bounded prec emax md ed = true ->
  bounded prec emax mq eq = true -> er <= -53 -> 2 ^ 52 <= Zpos mq ->
  (eq = ed /\ Zpos md = Zpos mq + 1) \/
  (ed = eq + 1 /\ Zpos md = 2 ^ 52 /\ Zpos mq = 2 ^ 53 - 1) ->
  atMost (S754_finite false mr er * S754_finite false md ed)%f64 mq eq.
Proof.
  intros Hr Hd Hq Her Hlo Hrel. unfold mul, SFmul. cbn [xorb].
  destruct (bounded_facts mr er Hr) as (_ & Hmr & _ & _).
  destruct (bounded_facts mq eq Hq) as (_ & Hmq & _ & _).
  apply round_aux_le_mid; [exact Hq|lia|apply mul_canonical_input; [exact Hd|lia]|].
  rewrite Pos2Z.inj_mul.
  change (2 ^ 53) with 9007199254740992 in *.
  change (2 ^ 52) with 4503599627370496 in *.
  destruct Hrel as [[-> Hm]|(-> & Hm & Hm')].
  - replace (ed - (er + ed)) with (- er) by lia.
    pose proof (Z.pow_le_mono_r 2 53 (- er) ltac:(lia) ltac:(lia)) as HK.
    change (2 ^ 53) with 9007199254740992 in HK.
    rewrite Hm. nia.
  - replace (eq - (er + (eq + 1))) with (- er - 1) by lia.
    pose proof (Z.pow_le_mono_r 2 52 (- er - 1) ltac:(lia) ltac:(lia)) as HK.
    change (2 ^ 52) with 4503599627370496 in HK.
    rewrite Hm, Hm'. nia.
Qed.

(** ** The threshold is not above the maximum *)

Lemma splitPoint_le_max (minV maxV r : float64) :
  finite minV -> finite maxV -> (minV <? maxV)%f64 = true ->
  IsInf (maxV - minV)%f64 = false -> unitInterval r ->
  (splitPoint minV maxV r <=? maxV)%f64 = true.
Proof.
  intros Hn Hx Hlt Hinf Hr. pose proof (proj1 Hr) as Vr. unfold splitPoint.
  pose proof (ltb_val minV maxV Hn Hx Hlt) as Hv.
  destruct (sub_ordered_pred minV maxV Hn Hx Hv Hinf) as (md & ed & -> & Hd & Hcase).
  assert (Hp : finite (r * S754_finite false md ed)%f64 /\
               val (r * S754_finite false md ed)%f64 <= val maxV - val minV).
  { destruct (unitInterval_cases r Hr) as [(s & ->)|(mr & er & ->)].
    - change (S754_zero s * S754_finite false md ed)%f64 with (S754_zero (xorb s false)).
      split; [repeat split|cbn [val]; lia].
    - cbn [valid_binary] in Vr.
      pose proof (below_one_exponent mr er Vr (proj2 (proj2 Hr))) as Her.
      destruct Hcase as [Hle|(mq & eq & Hq & Hle & Hlo & Hrel)].
      + destruct (atMost_val _ md ed Hd (mul_le_self mr md er ed Vr Hd Her)) as [Hf Hb].
        split; [exact Hf|lia].
      + destruct (atMost_val _ mq eq Hq
                    (mul_le_pred mr md mq er ed eq Vr Hd Hq Her Hlo Hrel)) as [Hf Hb].
        split; [exact Hf|lia]. }
  destruct Hp as [Hf Hb]. apply add_le_bound; trivial. lia.
Qed.

(** ** Thresholds of the nodes of a tree *)

Lemma splitData_Forall (P : float64 -> Prop) (sp : float64) (data : list float64) :
  Forall P data ->
  Forall P (fst (splitData sp data)) /\ Forall P (snd (splitData sp data)).
Proof.
  unfold splitData. intros Hall.
  enough (G : forall lft rgt, Forall P lft -> Forall P rgt ->
            Forall P (fst (fold_left (splitStep sp) data (lft, rgt))) /\
            Forall P (snd (fold_left (splitStep sp) data (lft, rgt))))
    by (apply G; constructor).
  induction Hall as [|v data Hv Hall IH]; intros lft rgt Hl Hr; cbn [fold_left].
  - cbn. auto.
  - unfold splitStep at 2 4. destruct (v <? sp)%f64; apply IH; trivial;
      apply Forall_app; auto.
Qed.

Lemma fitTreeFuel_floatAt (fuel : nat) :
  forall data depth maxDepth g t g',
    fitTreeFuel fuel data depth maxDepth g = Ok (t, g') -> floatAt g' = floatAt g.
Proof.
  induction fuel as [|fuel IH]; intros data depth maxDepth g t g' E;
    destruct (fitTreeFuel_inv _ _ _ _ _ _ _ E)
      as [(_ & _ & ->)|(f0 & l & r & g1 & Hf & _ & _ & _ & El & Er & _)];
    try reflexivity; try discriminate.
  inversion Hf; subst f0.
  rewrite (IH _ _ _ _ _ _ Er), (IH _ _ _ _ _ _ El). reflexivity.
Qed.

(** The node a call of [fitTree] builds on finite data. *)
Lemma fitTreeFuel_splits (fuel : nat) :
  forall data depth maxDepth g t g',
    Forall finite data -> wfRand g ->
    fitTreeFuel fuel data depth maxDepth g = Ok (t, g') ->
    splitsInRange data t.
Proof.
  induction fuel as [|fuel IH]; intros data depth maxDepth g t g' Hfin Hg E;
    destruct (fitTreeFuel_inv _ _ _ _ _ _ _ E)
      as [(_ & -> & _)|(f0 & l & r & g1 & Hf & Hd & Hl & He & El & Er & ->)];
    try exact I; try discriminate.
  inversion Hf; subst f0. cbn [splitsInRange].
  assert (Hne : data <> []) by (intros ->; cbn in Hl; lia).
  destruct (minMax_spec data Hne) as (Imin & Imax & Hle).
  { eapply Forall_impl; [|exact Hfin]. apply finite_number. }
  rewrite Forall_forall in Hfin.
  pose proof (leb_neq_ltb _ _ Hle He) as Hlt.
  destruct (splitData_Forall finite (splitOf data g) data
              (proj2 (Forall_forall _ _) Hfin)) as [Fl Fr].
  split; [|split].
  - split; [exact Hlt|]. intros Hinf. unfold splitOf. split.
    + apply splitPoint_ge_min; auto. apply Hg.
    + apply splitPoint_le_max; auto. apply Hg.
  - eapply IH; [exact Fl| |exact El]. intros i. apply Hg.
  - eapply IH; [exact Fr| |exact Er]. intros i.
    unfold wfRand in Hg. rewrite (fitTreeFuel_floatAt _ _ _ _ _ _ _ El). apply Hg.
Qed.

(** C3 (amended). On finite data and for every draw [r] of the random
    source in [0, 1), the threshold [min + r * (max - min)] of a subsample
    with [min < max] lies in the closed interval from [min] to [max] when
    [max - min] does not overflow, and it is [min] itself when [r = 0];
    every internal node of every tree built by [fitTree] satisfies
    [min <= Split <= max] for the subsample it split.  Both ends of the
    interval are reached: [min] on [0, 1] with the draw 0, [max] on [1, 2]
    with the draw [1 - 2^-53].  When [max - min] overflows the threshold
    leaves the interval: on [-MaxFloat64, MaxFloat64] with the draw 0.5 it
    is [+Inf]. *)
Theorem split_threshold_range :
  (forall minV maxV r,
      finite minV -> finite maxV -> (minV <? maxV)%f64 = true ->
      IsInf (maxV - minV)%f64 = false -> unitInterval r ->
      (minV <=? splitPoint minV maxV r)%f64 = true /\
      (splitPoint minV maxV r <=? maxV)%f64 = true) /\
  (forall minV maxV r,
      (minV <? maxV)%f64 = true -> IsInf (maxV - minV)%f64 = false ->
      (r =? zero)%f64 = true ->
      (splitPoint minV maxV r =? minV)%f64 = true) /\
  (forall data depth maxDepth g t g',
      Forall finite data -> wfRand g ->
      fitTree data depth maxDepth g = Ok (t, g') ->
      splitsInRange data t /\
      (Leaf t = false -> Split t = splitOf data g)) /\
  splitOf [zero; one] (constRand zero) = fst (minMax [zero; one]) /\
  splitOf [one; two] (constRand Const.pred_one) = snd (minMax [one; two]) /\
  splitPoint (- Const.MaxFloat64)%f64 Const.MaxFloat64 Const.c0_5 = pinf.
Proof.
  split; [|split; [exact splitPoint_zero_draw|]].
  - intros minV maxV r Hn Hx Hlt Hinf Hr. split.
    + apply splitPoint_ge_min; assumption.
    + apply splitPoint_le_max; assumption.
  - split; [|repeat split; vm_compute; reflexivity].
    intros data depth maxDepth g t g' Hfin Hg E. unfold fitTree in E. split.
    + eapply fitTreeFuel_splits; eassumption.
    + intros Hleaf.
      destruct (fitTreeFuel_inv _ _ _ _ _ _ _ E)
        as [(_ & -> & _)|(f0 & l & r & g1 & _ & _ & _ & _ & _ & _ & ->)];
        [discriminate|reflexivity].
Qed.

Lemma split_threshold_range_witness :
  ((zero <=? splitPoint zero one Const.c0_5)%f64 = true /\
   (splitPoint zero one Const.c0_5 <=? one)%f64 = true) /\
  (splitPoint zero one zero =? zero)%f64 = true /\
  (forall t g',
      fitTree [zero; one; two] 0 2 (constRand Const.c0_5) = Ok (t, g') ->
      splitsInRange [zero; one; two] t).
Proof.
  split; [|split].
  - apply (proj1 split_threshold_range); repeat split.
  - apply (proj1 (proj2 split_threshold_range)); reflexivity.
  - intros t g' E.
    apply (proj1 (proj2 (proj2 split_threshold_range)) [zero; one; two] 0 2
             (constRand Const.c0_5) t g');
      [repeat constructor|intros i; repeat split|exact E].
Defined.

(** * Further properties of the isolation trees *)

(** ** The partition of a subsample *)

Lemma splitData_fold (sp : float64) (data : list float64) :
  forall lft rgt,
    fold_left (splitStep sp) data (lft, rgt) =
      (lft ++ filter (fun v => (v <? sp)%f64) data,
       rgt ++ filter (fun v => negb (v <? sp)%f64) data).
Proof.
  induction data as [|v data IH]; intros lft rgt; cbn [fold_left filter].
  - now rewrite !app_nil_r.
  - unfold splitStep at 2. destruct (v <? sp)%f64; cbn [negb];
      rewrite IH, <- app_assoc; reflexivity.
Qed.

Lemma splitData_filter (sp : float64) (data : list float64) :
  splitData sp data =
    (filter (fun v => (v <? sp)%f64) data,
     filter (fun v => negb (v <? sp)%f64) data).
Proof. unfold splitData. now rewrite splitData_fold. Qed.

Lemma filter_split_perm {A : Type} (p : A -> bool) (l : list A) :
  Permutation l (filter p l ++ filter (fun v => negb (p v)) l).
Proof.
  induction l as [|a l IH]; cbn [filter]; [constructor|].
  destruct (p a); cbn [negb app].
  - now constructor.
  - now apply Permutation_cons_app.
Qed.

Lemma ltb_nan_r (v : float64) : (v <? nan)%f64 = false.
Proof. destruct v as [s|s| |s m e]; try reflexivity; destruct s; reflexivity. Qed.

Lemma ltb_nan_l (v : float64) : (nan <? v)%f64 = false.
Proof. destruct v as [s|s| |s m e]; reflexivity. Qed.

Lemma filter_nan_threshold (l : list float64) :
  filter (fun v => (v <? nan)%f64) l = [] /\
  filter (fun v => negb (v <? nan)%f64) l = l.
Proof.
  induction l as [|a l [IH1 IH2]]; cbn [filter]; [auto|].
  rewrite ltb_nan_r. cbn [negb]. rewrite IH1, IH2. auto.
Qed.

(** X1. The second loop of [fitTree] loses and duplicates nothing: the two
    partitions are the elements below the threshold and the others, each
    in slice order, so together they are a rearrangement of the subsample.
    A NaN element always goes right, and with a NaN threshold every
    element does. *)
Theorem partition_contract :
  forall sp data,
    let lft := fst (splitData sp data) in
    let rgt := snd (splitData sp data) in
    lft = filter (fun v => (v <? sp)%f64) data /\
    rgt = filter (fun v => negb (v <? sp)%f64) data /\
    Permutation data (lft ++ rgt) /\
    len lft + len rgt = len data /\
    Forall (fun v => (v <? sp)%f64 = true) lft /\
    Forall (fun v => (v <? sp)%f64 = false) rgt /\
    (forall v, In v data -> IsNaN v = true -> In v rgt) /\
    (IsNaN sp = true -> lft = [] /\ rgt = data).
Proof.
  intros sp data. cbv zeta. rewrite splitData_filter. cbn [fst snd].
  split; [reflexivity|]. split; [reflexivity|].
  split; [apply filter_split_perm|]. split.
  - pose proof (Permutation_length (filter_split_perm (fun v => (v <? sp)%f64) data)) as H.
    rewrite length_app in H. unfold len. lia.
  - split; [|split; [|split]].
    + apply Forall_forall. intros v Hv. apply filter_In in Hv. tauto.
    + apply Forall_forall. intros v Hv. apply filter_In in Hv.
      destruct Hv as [_ Hv]. now apply negb_true_iff in Hv.
    + intros v Hv Hn. apply filter_In. split; [exact Hv|].
      destruct v; try discriminate. rewrite ltb_nan_l. reflexivity.
    + intros Hn. destruct sp; try discriminate. apply filter_nan_threshold.
Qed.

(** ** The running minimum and maximum *)

Lemma minMax_fold_bounds (l : list float64) :
  forall a b,
    Forall (fun v => IsNaN v = false) l ->
    IsNaN a = false -> IsNaN b = false ->
    let r := fold_left minMaxStep l (a, b) in
    (fst r <=? a)%f64 = true /\ (b <=? snd r)%f64 = true /\
    Forall (fun v => (fst r <=? v)%f64 = true /\ (v <=? snd r)%f64 = true) l.
Proof.
  induction l as [|v l IH]; intros a b Hl Ha Hb; cbn [fold_left].
  - cbn. repeat split; try (apply leb_refl; assumption). constructor.
  - inversion Hl as [|v' l' Hv Hl']; subst. cbn [minMaxStep].
    set (a' := if (v <? a)%f64 then v else a).
    set (b' := if (v >? b)%f64 then v else b).
    assert (Ha' : IsNaN a' = false) by (subst a'; destruct (v <? a)%f64; assumption).
    assert (Hb' : IsNaN b' = false) by (subst b'; destruct (v >? b)%f64; assumption).
    assert (Haa : (a' <=? a)%f64 = true /\ (a' <=? v)%f64 = true).
    { subst a'. destruct (v <? a)%f64 eqn:E.
      - split; [apply ltb_leb, E|apply leb_refl, Hv].
      - split; [apply leb_refl, Ha|]. apply (ltb_false_geb v a); assumption. }
    assert (Hbb : (b <=? b')%f64 = true /\ (v <=? b')%f64 = true).
    { subst b'. unfold gtb. fold (ltb b v). destruct (b <? v)%f64 eqn:E.
      - split; [apply ltb_leb, E|apply leb_refl, Hv].
      - split; [apply leb_refl, Hb|]. apply (ltb_false_geb b v); assumption. }
    destruct (IH a' b' Hl' Ha' Hb') as (H1 & H2 & H3). cbv zeta in H1, H2, H3.
    split; [eapply leb_trans; [exact H1|tauto]|].
    split; [eapply leb_trans; [|exact H2]; tauto|].
    constructor; [|exact H3]. split.
    + eapply leb_trans; [exact H1|tauto].
    + eapply leb_trans; [|exact H2]; tauto.
Qed.

Lemma minMax_fold_nan (l : list float64) :
  fold_left minMaxStep l (nan, nan) = (nan, nan).
Proof.
  induction l as [|v l IH]; cbn [fold_left]; [reflexivity|].
  unfold minMaxStep at 2. unfold gtb. fold (ltb nan v).
  rewrite ltb_nan_r, ltb_nan_l. exact IH.
Qed.

Lemma minMax_elements_bounded (data : list float64) :
  data <> [] -> Forall (fun v => IsNaN v = false) data ->
  In (fst (minMax data)) data /\ In (snd (minMax data)) data /\
  Forall (fun v => (fst (minMax data) <=? v)%f64 = true /\
                   (v <=? snd (minMax data))%f64 = true) data.
Proof.
  intros Hne Hall. destruct (minMax_spec data Hne Hall) as (H1 & H2 & _).
  split; [exact H1|]. split; [exact H2|].
  destruct data as [|d0 data]; [congruence|].
  assert (Hd0 : IsNaN d0 = false) by (inversion Hall; assumption).
  unfold minMax. change (index zero (d0 :: data) 0) with d0.
  apply (minMax_fold_bounds (d0 :: data) d0 d0 Hall Hd0 Hd0).
Qed.

Lemma minMax_nan_head (data : list float64) : minMax (nan :: data) = (nan, nan).
Proof.
  unfold minMax. change (index zero (nan :: data) 0) with nan.
  cbn [fold_left]. change (minMaxStep (nan, nan) nan) with (nan, nan).
  apply minMax_fold_nan.
Qed.

(** X2. On a non-empty subsample without NaN the first loop of [fitTree]
    leaves in [minV] and [maxV] two elements of the subsample that bound
    every element.  When the first element is NaN, both stay NaN whatever
    follows. *)
Theorem minMax_bounds :
  (forall data,
      data <> [] -> Forall (fun v => IsNaN v = false) data ->
      In (fst (minMax data)) data /\ In (snd (minMax data)) data /\
      Forall (fun v => (fst (minMax data) <=? v)%f64 = true /\
                       (v <=? snd (minMax data))%f64 = true) data) /\
  (forall data, minMax (nan :: data) = (nan, nan)).
Proof.
  split.
  - intros data Hne Hall.
    destruct (minMax_elements_bounded data Hne Hall) as (Hmin & Hmax & Hall').
    split; [exact Hmin|]. split; [exact Hmax|exact Hall'].
  - intros data. unfold minMax. change (index zero (nan :: data) 0) with nan.
    cbn [fold_left]. change (minMaxStep (nan, nan) nan) with (nan, nan).
    apply minMax_fold_nan.
Qed.

Lemma minMax_bounds_witness :
  In (fst (minMax [one; zero; two])) [one; zero; two] /\
  In (snd (minMax [one; zero; two])) [one; zero; two] /\
  Forall (fun v => (fst (minMax [one; zero; two]) <=? v)%f64 = true /\
                   (v <=? snd (minMax [one; zero; two]))%f64 = true)
         [one; zero; two].
Proof.
  apply (proj1 minMax_bounds); [discriminate|repeat constructor].
Defined.

Lemma leb_not_ltb (x y : float64) :
  (x <=? y)%f64 = true -> (y <? x)%f64 = false.
Proof.
  intros H. destruct (y <? x)%f64 eqn:E; [|reflexivity].
  pose proof (ltb_not_geb y x E) as H'. unfold geb in H'. fold (leb x y) in H'.
  congruence.
Qed.

Lemma eqb_leb_ltb (x y v : float64) :
  (x =? y)%f64 = true -> (y <=? v)%f64 = true -> (v <? x)%f64 = false.
Proof.
  intros He Hle.
  assert (Hx : IsNaN x = false) by (destruct x; trivial; discriminate).
  assert (Hy : IsNaN y = false) by (destruct y; trivial; destruct x; discriminate).
  apply leb_true_key in Hle. destruct Hle as (_ & Hv & Hle).
  destruct (v <? x)%f64 eqn:E; [|reflexivity]. exfalso.
  apply ltb_true_key in E. destruct E as (_ & _ & Hlt).
  unfold eqb, SFeqb in He. rewrite (SFcompare_key x y Hx Hy) in He.
  destruct (lexcmp_spec (key x) (key y)) as [Ek|?|?]; try discriminate.
  rewrite Ek in Hlt.
  destruct (key y) as [[? ?] ?], (key v) as [[? ?] ?]. unfold lexlt in *.
  destruct Hle as [Hle|Hle]; [lia|]. inversion Hle; subst. lia.
Qed.

Lemma leb_not_ltb_eqb (x y : float64) :
  (x <=? y)%f64 = true -> (x <? y)%f64 = false -> (y =? x)%f64 = true.
Proof.
  unfold leb, ltb, eqb, SFleb, SFltb, SFeqb. rewrite (SFcompare_antisym x y).
  destruct (SFcompare x y) as [[]|]; cbn; congruence.
Qed.

(** The partitions at a threshold between the bounds of a subsample. *)
Lemma partition_at_threshold (data : list float64) (sp : float64) :
  data <> [] -> Forall (fun v => IsNaN v = false) data ->
  (fst (minMax data) <=? sp)%f64 = true ->
  (sp <=? snd (minMax data))%f64 = true ->
  In (snd (minMax data)) (snd (splitData sp data)) /\
  (fst (splitData sp data) = [] <-> (sp =? fst (minMax data))%f64 = true).
Proof.
  intros Hne Hall Hlo Hhi.
  destruct (minMax_elements_bounded data Hne Hall) as (Imin & Imax & Hb).
  rewrite splitData_filter. cbn [fst snd]. split.
  - apply filter_In. split; [exact Imax|].
    rewrite (leb_not_ltb _ _ Hhi). reflexivity.
  - split.
    + intros He. apply leb_not_ltb_eqb; [exact Hlo|].
      destruct (fst (minMax data) <? sp)%f64 eqn:E; [|reflexivity].
      assert (Hin : In (fst (minMax data))
                       (filter (fun v => (v <? sp)%f64) data))
        by (apply filter_In; split; assumption).
      rewrite He in Hin. destruct Hin.
    + intros He.
      destruct (filter (fun v => (v <? sp)%f64) data) as [|v l] eqn:Ef; [reflexivity|].
      assert (Hin : In v (filter (fun v => (v <? sp)%f64) data))
        by (rewrite Ef; left; reflexivity).
      apply filter_In in Hin. destruct Hin as [Hin Hlt].
      rewrite Forall_forall in Hb. destruct (Hb v Hin) as [Hmin _].
      rewrite (eqb_leb_ltb _ _ _ He Hmin) in Hlt. discriminate.
Qed.

(** X3. On a subsample of finite values with [min < max] whose range does
    not overflow, the right partition of [fitTree] is never empty, since
    it receives the maximum, whatever the draw; the left partition is
    empty exactly when the threshold equals the minimum, as it does for a
    draw of 0. *)
Theorem right_partition_nonempty :
  forall data g,
    Forall finite data -> wfRand g ->
    (fst (minMax data) <? snd (minMax data))%f64 = true ->
    IsInf (snd (minMax data) - fst (minMax data))%f64 = false ->
    let sp := splitOf data g in
    In (snd (minMax data)) (snd (splitData sp data)) /\
    snd (splitData sp data) <> [] /\
    (fst (splitData sp data) = [] <-> (sp =? fst (minMax data))%f64 = true) /\
    ((fst (Float64 g) =? zero)%f64 = true -> fst (splitData sp data) = []).
Proof.
  intros data g Hfin Hg Hlt Hinf sp.
  assert (Hne : data <> []).
  { intros ->. vm_compute in Hlt. discriminate. }
  assert (Hall : Forall (fun v => IsNaN v = false) data)
    by (eapply Forall_impl; [|exact Hfin]; apply finite_number).
  destruct (minMax_spec data Hne Hall) as (Imin & Imax & _).
  rewrite Forall_forall in Hfin.
  assert (Hr : unitInterval (fst (Float64 g))) by apply Hg.
  assert (Hlo : (fst (minMax data) <=? sp)%f64 = true)
    by (apply splitPoint_ge_min; auto).
  assert (Hhi : (sp <=? snd (minMax data))%f64 = true)
    by (apply splitPoint_le_max; auto).
  destruct (partition_at_threshold data sp Hne Hall Hlo Hhi) as [H1 H2].
  split; [exact H1|]. split; [intros E; rewrite E in H1; destruct H1|].
  split; [exact H2|]. intros Hz. apply H2.
  apply splitPoint_zero_draw; assumption.
Qed.

Lemma right_partition_nonempty_witness :
  snd (splitData (splitOf [zero; one; two] (constRand Const.c0_5)) [zero; one; two])
  <> [].
Proof.
  apply (right_partition_nonempty [zero; one; two] (constRand Const.c0_5));
    [repeat constructor|intros i; repeat split|reflexivity|reflexivity].
Defined.

(** * Further properties of the forest *)

(** ** Panics of [New] *)

Lemma New_not_OutOfFuel (data : list float64) (t psi : Z) (g : Rand) :
  New data t psi g <> OutOfFuel.
Proof.
  destruct (Z_lt_le_dec t 0) as [Hlt|Hle].
  - unfold New. replace (t <? 0) with true by (symmetry; apply Z.ltb_lt; lia).
    discriminate.
  - destruct (New_spec data t psi g Hle) as (trees & g' & -> & _). discriminate.
Qed.

(** X4. [New] panics exactly when the number of trees [t] is negative (the
    length given to [make]); for every other input, the empty series and
    any requested subsample size included, it returns a forest of [t]
    trees: [rand.Intn] is never called with a bound that is not positive. *)
Theorem New_panics_iff :
  forall data t psi g,
    (New data t psi g = Panic <-> t < 0) /\
    (0 <= t ->
     exists f g', New data t psi g = Ok (f, g') /\ len (Trees f) = t).
Proof.
  intros data t psi g. split; [split|].
  - intros E. destruct (Z_lt_le_dec t 0) as [Hlt|Hle]; [exact Hlt|].
    destruct (New_spec data t psi g Hle) as (trees & g' & E' & _). congruence.
  - intros Hlt. unfold New.
    replace (t <? 0) with true by (symmetry; apply Z.ltb_lt; lia). reflexivity.
  - intros Hle. destruct (New_spec data t psi g Hle) as (trees & g' & E & Hlen & _).
    eexists; eexists. split; [exact E|]. cbn [Trees]. unfold len. lia.
Qed.

Lemma New_panics_iff_witness :
  exists f g', New [] 3 7 (constRand zero) = Ok (f, g') /\ len (Trees f) = 3.
Proof.
  apply (proj2 (New_panics_iff [] 3 7 (constRand zero))). lia.
Defined.

(** ** Draws on the random source *)

Lemma fitTreeFuel_draws (fuel : nat) :
  forall data depth maxDepth g t g',
    fitTreeFuel fuel data depth maxDepth g = Ok (t, g') ->
    pos g' = (pos g + internalNodes t)%nat /\
    Z.of_nat (internalNodes t) <= 2 ^ Z.max 0 (maxDepth - depth) - 1.
Proof.
  induction fuel as [|fuel IH]; intros data depth maxDepth g t g' E;
    destruct (fitTreeFuel_inv _ _ _ _ _ _ _ E)
      as [(_ & -> & ->)|(f0 & l & r & g1 & Hf & Hd & _ & _ & El & Er & ->)];
    try discriminate.
  - cbn. split; [lia|].
    pose proof (Z.pow_pos_nonneg 2 (Z.max 0 (maxDepth - depth)) ltac:(lia) ltac:(lia)).
    lia.
  - cbn. split; [lia|].
    pose proof (Z.pow_pos_nonneg 2 (Z.max 0 (maxDepth - depth)) ltac:(lia) ltac:(lia)).
    lia.
  - inversion Hf; subst f0.
    destruct (IH _ _ _ _ _ _ El) as [Pl Bl].
    destruct (IH _ _ _ _ _ _ Er) as [Pr Br].
    cbn [internalNodes Leaf Left Right]. cbn [Float64 snd advance pos] in Pl.
    split; [lia|].
    replace (Z.max 0 (maxDepth - (depth + 1))) with (maxDepth - depth - 1) in Bl, Br by lia.
    replace (Z.max 0 (maxDepth - depth)) with (Z.succ (maxDepth - depth - 1)) by lia.
    rewrite Z.pow_succ_r by lia. lia.
Qed.

Lemma drawSubsample_pos (k : nat) :
  forall data sub g res g',
    drawSubsample k data sub g = Ok (res, g') -> pos g' = (pos g + k)%nat.
Proof.
  induction k as [|k IH]; intros data sub g res g' E; cbn [drawSubsample] in E.
  - inversion E. lia.
  - destruct (Intn (len data) g) as [[i g1]| |] eqn:Ei; cbn [bind] in E;
      try discriminate.
    apply Intn_range in Ei. destruct Ei as [_ ->].
    rewrite (IH _ _ _ _ _ E). cbn [advance pos]. lia.
Qed.

Lemma forestInternalNodes_app (a b : list Tree) :
  forestInternalNodes (a ++ b)
  = (forestInternalNodes a + forestInternalNodes b)%nat.
Proof.
  induction a as [|t a IH]; [reflexivity|].
  cbn [app forestInternalNodes fold_right]. fold (forestInternalNodes (a ++ b)).
  fold (forestInternalNodes a). lia.
Qed.

Lemma growTrees_draws (k : nat) :
  forall data psi maxDepth trees g trees' g',
    growTrees k data psi maxDepth trees g = Ok (trees', g') ->
    exists grown,
      trees' = trees ++ grown /\ length grown = k /\
      pos g' = (pos g + k * Z.to_nat psi + forestInternalNodes grown)%nat /\
      Forall (fun t => Z.of_nat (internalNodes t) <= 2 ^ Z.max 0 maxDepth - 1) grown.
Proof.
  induction k as [|k IH]; intros data psi maxDepth trees g trees' g' E;
    cbn [growTrees] in E.
  - inversion E. exists []. rewrite app_nil_r. cbn. repeat split; try lia. constructor.
  - destruct (drawSubsample (Z.to_nat psi) data [] g) as [[sub g1]| |] eqn:Es;
      cbn [bind] in E; try discriminate.
    destruct (fitTree sub 0 maxDepth g1) as [[tree g2]| |] eqn:Et;
      cbn [bind] in E; try discriminate.
    destruct (IH _ _ _ _ _ _ _ E) as (grown & -> & Hlen & Hpos & Hb).
    pose proof (drawSubsample_pos _ _ _ _ _ _ Es) as P1.
    destruct (fitTreeFuel_draws _ _ _ _ _ _ _ Et) as [P2 B2].
    rewrite Z.sub_0_r in B2.
    exists (tree :: grown). rewrite <- app_assoc. split; [reflexivity|].
    split; [cbn; lia|]. split; [|constructor; assumption].
    cbn [forestInternalNodes fold_right]. fold (forestInternalNodes grown). lia.
Qed.

(** The deepest level holds fewer than [2 * psi] nodes. *)
Lemma maxDepthOf_pow (psi : Z) :
  0 <= psi -> 2 ^ Z.max 0 (maxDepthOf psi) - 1 <= 2 * psi.
Proof.
  intros Hpsi. unfold maxDepthOf. destruct (psi <=? 0) eqn:E.
  - change (Z.max 0 (- 2 ^ 63)) with 0. change (2 ^ 0) with 1. lia.
  - apply Z.leb_gt in E.
    destruct (Z.eq_dec psi 1) as [->|Hne]; [vm_compute; discriminate|].
    pose proof (Z.log2_up_spec psi ltac:(lia)) as [Hlo _].
    pose proof (Z.log2_up_nonneg psi) as Hnn.
    replace (Z.max 0 (Z.log2_up psi)) with (Z.succ (Z.pred (Z.log2_up psi))) by lia.
    assert (0 < Z.log2_up psi) by (apply Z.log2_up_pos; lia).
    rewrite Z.pow_succ_r by lia. lia.
Qed.

Lemma forestInternalNodes_bound (trees : list Tree) (b : Z) :
  Forall (fun t => Z.of_nat (internalNodes t) <= b) trees ->
  Z.of_nat (forestInternalNodes trees) <= Z.of_nat (length trees) * b.
Proof.
  induction 1 as [|t trees Ht _ IH]; [cbn; lia|].
  cbn [forestInternalNodes fold_right length]. fold (forestInternalNodes trees). lia.
Qed.

(** X5. A call of [New] that returns has made exactly [t * psi] calls of
    [rand.Intn] and one call of [rand.Float64] per internal node of the
    forest, [psi] being the clamped subsample size; a tree has at most
    [2^maxDepth - 1] internal nodes, so that the call takes at most
    [3 * t * psi] draws in all. *)
Theorem New_random_draws :
  forall data t psi g f g',
    New data t psi g = Ok (f, g') ->
    let psi' := clampPsi data psi in
    Z.of_nat (pos g') =
      Z.of_nat (pos g) + t * psi' + Z.of_nat (forestInternalNodes (Trees f)) /\
    Forall (fun tr => Z.of_nat (internalNodes tr) <= 2 ^ Z.max 0 (maxDepthOf psi') - 1)
           (Trees f) /\
    Z.of_nat (pos g') - Z.of_nat (pos g) <= 3 * t * psi'.
Proof.
  intros data t psi g f g' E psi'. unfold New in E. fold psi' in E.
  destruct (t <? 0) eqn:Ht; [discriminate|]. apply Z.ltb_ge in Ht.
  destruct (growTrees (Z.to_nat t) data psi' (maxDepthOf psi') [] g)
    as [[trees g1]| |] eqn:Eg; cbn [bind] in E; try discriminate.
  inversion E; subst f g'. cbn [Trees].
  destruct (growTrees_draws _ _ _ _ _ _ _ _ Eg) as (grown & Etr & Hlen & Hpos & Hb).
  cbn [app] in Etr. subst trees.
  pose proof (clampPsi_range data psi) as [Hpsi _]. fold psi' in Hpsi.
  assert (Hp : Z.of_nat (pos g1) =
               Z.of_nat (pos g) + t * psi' + Z.of_nat (forestInternalNodes grown)).
  { rewrite Hpos, !Nat2Z.inj_add, Nat2Z.inj_mul, !Z2Nat.id by lia. reflexivity. }
  split; [exact Hp|]. split; [exact Hb|].
  pose proof (forestInternalNodes_bound grown _ Hb) as Hsum.
  rewrite Hlen, Z2Nat.id in Hsum by lia.
  pose proof (maxDepthOf_pow psi' ltac:(lia)) as Hm. nia.
Qed.

Lemma New_random_draws_witness :
  exists f g',
    New [zero; one; two] 2 3 (constRand Const.c0_5) = Ok (f, g') /\
    Z.of_nat (pos g') - Z.of_nat (pos (constRand Const.c0_5)) <= 3 * 2 * 3.
Proof.
  destruct (New [zero; one; two] 2 3 (constRand Const.c0_5)) as [[f g']| |] eqn:E;
    [|vm_compute in E; discriminate..].
  exists f, g'. split; [reflexivity|].
  apply (proj2 (proj2 (New_random_draws [zero; one; two] 2 3 (constRand Const.c0_5)
                         f g' E))).
Defined.

(** ** The range of the scores *)

(** [float64(n)] is a positive finite number for a positive [int]. *)
Lemma of_int_finitePos (n : Z) :
  0 < n < 2 ^ 63 -> finitePosb (of_int n) = true.
Proof.
  intros [Hlo Hhi]. destruct n as [|p|p]; try lia.
  destruct (of_int_positive (Zpos p) Hlo) as [E|(m & e & E)];
    [|rewrite E; reflexivity].
  exfalso. unfold of_int in E. cbn [binary_normalize] in E.
  assert (Hb : bounded prec emax 4503599627370496 11 = true) by reflexivity.
  pose proof (binary_round_le 4503599627370496 p 11 0 0 Hb ltac:(lia) ltac:(lia)) as H.
  rewrite E in H.
  destruct H as [H|(m3 & e3 & H & _)]; [| |discriminate H]; [|discriminate H].
  change (2 ^ (0 - 0)) with 1. change (2 ^ (11 - 0)) with 2048.
  change (2 ^ 63) with 9223372036854775808 in Hhi. lia.
Qed.

Lemma leb_zero_zero (s : bool) : (zero <=? S754_zero s)%f64 = true.
Proof. destruct s; reflexivity. Qed.

Section ScoreRange01.

Variable Pow : float64 -> float64 -> float64.

(** [math.Pow(2, y)] lies between 0 and 1 for every [y] that is a zero,
    a negative number or [-Inf]. *)
Hypothesis Pow_unit :
  forall y, signed true y ->
    (zero <=? Pow two y)%f64 = true /\ (Pow two y <=? one)%f64 = true.

Lemma Score_unit (trees : list Tree) (psi : Z) (x : float64) :
  0 < len trees < 2 ^ 63 ->
  Forall (allNodes (fun n => 0 <= Depth n)) trees ->
  psi <= 64 ->
  (zero <=? Score Pow (mkForest trees (averagePathLength psi)) x)%f64 = true /\
  (Score Pow (mkForest trees (averagePathLength psi)) x <=? one)%f64 = true.
Proof.
  intros Hlen Hd Hpsi. unfold Score. cbn [C].
  destruct (averagePathLength psi =? zero)%f64 eqn:HC; [split; reflexivity|].
  assert (Hfin : finitePosb (averagePathLength psi) = true).
  { destruct (Z_le_gt_dec psi 1) as [Hle|Hgt].
    - rewrite (averagePathLength_le1 psi Hle) in HC. discriminate.
    - apply averagePathLength_small. lia. }
  apply Pow_unit.
  apply div_signed; [|exact Hfin]. apply (neg_signed false).
  unfold pathLength. cbn [Trees].
  apply div_signed; [|apply of_int_finitePos; exact Hlen].
  apply pathLength_sum_signed; [exact Hd|]. left. reflexivity.
Qed.

(** X6. With at least one tree and a clamped subsample size of at most 64
    (the sizes for which the normalisation constant has been computed),
    every score of a forest built by [New] lies in [0, 1], for every point
    [x], NaN and the infinities included, and whatever the data. *)
Theorem Score_in_unit_interval :
  forall data t psi g f g' x,
    New data t psi g = Ok (f, g') ->
    1 <= t < 2 ^ 63 -> clampPsi data psi <= 64 ->
    (zero <=? Score Pow f x)%f64 = true /\ (Score Pow f x <=? one)%f64 = true.
Proof.
  intros data t psi g f g' x E Ht Hpsi.
  destruct (New_spec data t psi g ltac:(lia)) as (trees & g1 & E' & Hlen & Hall).
  rewrite E' in E. inversion E; subst f g'.
  apply Score_unit; [unfold len; lia| |exact Hpsi].
  eapply Forall_impl; [|exact Hall]. intros tr. apply grownFrom_depths.
Qed.

End ScoreRange01.

Lemma PowRef_unit :
  forall y, signed true y ->
    (zero <=? PowRef two y)%f64 = true /\ (PowRef two y <=? one)%f64 = true.
Proof.
  intros y [->|[->|(m & e & ->)]]; split; reflexivity.
Qed.

Lemma Score_in_unit_interval_witness :
  exists f g',
    New [zero; one; two] 2 3 (constRand Const.c0_5) = Ok (f, g') /\
    (zero <=? Score PowRef f Const.c3_5)%f64 = true /\
    (Score PowRef f Const.c3_5 <=? one)%f64 = true.
Proof.
  destruct (New [zero; one; two] 2 3 (constRand Const.c0_5)) as [[f g']| |] eqn:E;
    [|vm_compute in E; discriminate..].
  exists f, g'. split; [reflexivity|].
  apply (Score_in_unit_interval PowRef PowRef_unit [zero; one; two] 2 3
           (constRand Const.c0_5) f g' Const.c3_5 E);
    [lia|vm_compute; discriminate].
Defined.

(** * Further properties of the selector *)

Section DetectorProps.

Variable Pow : float64 -> float64 -> float64.
Variable sortSlice : (Z -> Z -> bool) -> list Z -> list Z.

Lemma detectAnomalies_forest (vals : list float64) (g : Rand) :
  exists trees g',
    New (normalize vals) 100 (min 64 (len (normalize vals))) g =
      Ok (mkForest trees
            (averagePathLength
               (clampPsi (normalize vals) (min 64 (len (normalize vals))))), g') /\
    length trees = 100%nat /\
    Forall (allNodes (fun n => 0 <= Depth n)) trees.
Proof.
  destruct (New_spec (normalize vals) 100 (min 64 (len (normalize vals))) g ltac:(lia))
    as (trees & g' & E & Hlen & Hall).
  exists trees, g'. split; [exact E|]. split; [exact Hlen|].
  eapply Forall_impl; [|exact Hall]. intros tr. apply grownFrom_depths.
Qed.

(** X7. [detectAnomalies] panics exactly when [k] is negative (the slice
    expression [idx[:k]]), after the forest has been built and the scores
    computed; for [k >= 0] it returns, and the score vector and the state
    of the random source it leaves are the same for every such [k]. *)
Theorem detectAnomalies_panics_iff :
  forall vals g,
    (forall k, detectAnomalies Pow sortSlice vals k g = Panic <-> k < 0) /\
    exists scores g',
      len scores = len vals /\
      forall k, 0 <= k ->
        exists idx,
          detectAnomalies Pow sortSlice vals k g = Ok ((idx, scores), g').
Proof.
  intros vals g. unfold detectAnomalies.
  destruct (detectAnomalies_forest vals g) as (trees & g' & -> & _ & _).
  cbn [bind].
  set (f := mkForest trees _).
  set (scores := map (Score Pow f) (normalize vals)).
  set (idx := sortSlice (byScoreDesc scores) (identityIdx (length (normalize vals)))).
  assert (Hk : forall k, ((if k >? len idx then len idx else k) <? 0) = (k <? 0)).
  { intros k. destruct (k >? len idx) eqn:E; [|reflexivity].
    rewrite Z.gtb_ltb in E. apply Z.ltb_lt in E.
    unfold len in *. symmetry.
    transitivity false; [apply Z.ltb_ge; lia|symmetry; apply Z.ltb_ge; lia]. }
  split.
  - intros k. rewrite Hk. destruct (k <? 0) eqn:E.
    + apply Z.ltb_lt in E. tauto.
    + apply Z.ltb_ge in E. split; [discriminate|lia].
  - exists scores, g'. split.
    + subst scores. unfold len, normalize. destruct (meanStd vals).
      now rewrite !length_map.
    + intros k Hk0. rewrite Hk.
      replace (k <? 0) with false by (symmetry; apply Z.ltb_ge; lia).
      eexists. reflexivity.
Qed.

(** [math.Pow(2, y)] lies between 0 and 1 for every [y] that is a zero,
    a negative number or [-Inf]. *)
Hypothesis Pow_unit :
  forall y, signed true y ->
    (zero <=? Pow two y)%f64 = true /\ (Pow two y <=? one)%f64 = true.

(** X8. Every score [detectAnomalies] returns lies in [0, 1]: the forest
    it builds has 100 trees and a subsample size of at most 64.  This holds
    for every input series, values that are NaN or infinite included. *)
Theorem detectAnomalies_scores_unit :
  forall vals k g idx scores g',
    detectAnomalies Pow sortSlice vals k g = Ok ((idx, scores), g') ->
    Forall (fun s => (zero <=? s)%f64 = true /\ (s <=? one)%f64 = true) scores.
Proof.
  intros vals k g idx scores g' E. unfold detectAnomalies in E.
  destruct (detectAnomalies_forest vals g) as (trees & g1 & E' & Hlen & Hd).
  rewrite E' in E. cbn [bind] in E.
  destruct (_ <? 0) in E; [discriminate|]. inversion E; subst.
  apply Forall_forall. intros s Hs. apply in_map_iff in Hs.
  destruct Hs as (x & <- & _).
  apply Score_unit; [exact Pow_unit|unfold len; rewrite Hlen; lia|exact Hd|].
  apply clampPsi_detector.
Qed.

End DetectorProps.

Lemma detectAnomalies_panics_iff_witness :
  exists scores g',
    len scores = len [zero; one; two] /\
    exists idx,
      detectAnomalies PowRef insertionSort [zero; one; two] 2 (constRand Const.c0_5)
      = Ok ((idx, scores), g').
Proof.
  destruct (proj2 (detectAnomalies_panics_iff PowRef insertionSort [zero; one; two] (constRand Const.c0_5)))
    as (scores & g' & Hlen & H).
  exists scores, g'. split; [exact Hlen|]. apply H. lia.
Defined.

Lemma detectAnomalies_scores_unit_witness :
  exists idx scores g',
    detectAnomalies PowRef insertionSort [zero; one; two] 3 (constRand Const.c0_5)
    = Ok ((idx, scores), g') /\
    Forall (fun s => (zero <=? s)%f64 = true /\ (s <=? one)%f64 = true) scores.
Proof.
  destruct (detectAnomalies PowRef insertionSort [zero; one; two] 3
              (constRand Const.c0_5)) as [[[idx scores] g']| |] eqn:E;
    [|vm_compute in E; discriminate..].
  exists idx, scores, g'. split; [reflexivity|].
  apply (detectAnomalies_scores_unit PowRef insertionSort PowRef_unit
           [zero; one; two] 3 (constRand Const.c0_5) idx scores g' E).
Defined.

(** * Further properties of the normalizer *)

Lemma add_comm (x y : float64) : (x + y)%f64 = (y + x)%f64.
Proof.
  destruct x as [sx|sx| |sx mx ex], y as [sy|sy| |sy my ey]; try reflexivity;
    try (destruct sx, sy; reflexivity).
  unfold add, SFadd. cbv zeta. rewrite (Z.min_comm ey ex), Z.add_comm. reflexivity.
Qed.

Lemma mul_self_nonneg (d : float64) :
  IsNaN (d * d)%f64 = true \/ signed false (d * d)%f64.
Proof.
  destruct d as [s|s| |s m e].
  - right. left. cbn. now rewrite xorb_nilpotent.
  - right. right. left. cbn. now rewrite xorb_nilpotent.
  - left. reflexivity.
  - right. unfold mul, SFmul. rewrite xorb_nilpotent.
    apply binary_round_aux_signed. lia.
Qed.

Lemma add_nonneg (x y : float64) :
  IsNaN x = true \/ signed false x ->
  IsNaN y = true \/ signed false y ->
  IsNaN (x + y)%f64 = true \/ signed false (x + y)%f64.
Proof.
  intros [Hx|Hx] [Hy|Hy].
  - destruct x; try discriminate. left. reflexivity.
  - destruct x; try discriminate. left. reflexivity.
  - destruct y; try discriminate. left. destruct x; reflexivity.
  - right. apply add_signed; assumption.
Qed.

Lemma div_nonneg (x y : float64) :
  IsNaN x = true \/ signed false x -> strictlyPos y ->
  IsNaN (x / y)%f64 = true \/ signed false (x / y)%f64.
Proof.
  intros [Hx|Hx] Hy.
  - destruct x; try discriminate. left. reflexivity.
  - destruct Hy as [->|(m & e & ->)].
    + destruct Hx as [->|[->|(mx & ex & ->)]]; cbn; unfold signed; auto.
    + right. apply div_signed; [exact Hx|reflexivity].
Qed.

Lemma sqrt_nonneg (x : float64) :
  IsNaN x = true \/ signed false x ->
  IsNaN (sqrt x) = true \/ signed false (sqrt x).
Proof.
  intros [Hx|[->|[->|(m & e & ->)]]].
  - destruct x; try discriminate. left. reflexivity.
  - right. left. reflexivity.
  - right. right. left. reflexivity.
  - right. unfold sqrt, SFsqrt, SFsqrt_core_binary. cbv zeta.
    set (e' := Z.min _ _).
    set (m' := match e - 2 * e' with 0 => Zpos m | Zpos _ => _ | Zneg _ => 0 end).
    assert (Hm' : 0 <= m').
    { subst m'. destruct (e - 2 * e'); try lia.
      rewrite Z.shiftl_mul_pow2 by lia.
      apply Z.mul_nonneg_nonneg; [lia|apply Z.pow_nonneg; lia]. }
    pose proof (Z.sqrtrem_spec m' Hm') as Hs.
    destruct (Z.sqrtrem m') as [q r].
    apply binary_round_aux_signed. lia.
Qed.

Lemma ss_loop_nonneg (mu : float64) (x : list float64) :
  forall acc,
    IsNaN acc = true \/ signed false acc ->
    let ss := fold_left (fun ss v => let d := (v - mu)%f64 in ss + d * d)%f64 x acc in
    IsNaN ss = true \/ signed false ss.
Proof.
  induction x as [|v x IH]; intros acc Hacc; cbn [fold_left]; [exact Hacc|].
  apply IH. cbv zeta. apply add_nonneg; [exact Hacc|apply mul_self_nonneg].
Qed.

Lemma meanStd_nonneg (x : list float64) :
  IsNaN (snd (meanStd x)) = true \/ signed false (snd (meanStd x)).
Proof.
  unfold meanStd. destruct (len x =? 0) eqn:E.
  - right. right. right. eexists; eexists; reflexivity.
  - cbn [snd]. apply sqrt_nonneg. apply div_nonneg.
    + apply ss_loop_nonneg. right. left. reflexivity.
    + apply of_int_positive. apply Z.eqb_neq in E. unfold len in *. lia.
Qed.

(** X9. The deviation [meanStd] returns is NaN or a number of non-negative
    sign (never [-0], never negative).  Hence the divisor [sd + 1e-9] of
    the normalizer is never zero, and is at least [1e-9] whenever the
    deviation is a number: the normalizer never divides by zero. *)
Theorem normalizer_divisor_nonzero :
  forall x,
    let sd := snd (meanStd x) in
    (IsNaN sd = true \/ signed false sd) /\
    (sd + Const.c1e_9 =? zero)%f64 = false /\
    (IsNaN sd = false -> (Const.c1e_9 <=? sd + Const.c1e_9)%f64 = true).
Proof.
  intros x sd. pose proof (meanStd_nonneg x) as H. fold sd in H.
  split; [exact H|].
  assert (Hge : IsNaN sd = false -> (Const.c1e_9 <=? sd + Const.c1e_9)%f64 = true).
  { intros Hn. destruct H as [H|H]; [congruence|].
    rewrite add_comm. apply add_nonneg_ge; [repeat split|right; exact H]. }
  split; [|exact Hge].
  destruct (IsNaN sd) eqn:Hn.
  - destruct sd; try discriminate. reflexivity.
  - specialize (Hge eq_refl).
    destruct (sd + Const.c1e_9)%f64 as [[]|[]| |[] m e]; try reflexivity;
      discriminate.
Qed.

(** * Further properties of the extraction *)

Section StrictExtractionProps.

Variable Sscan : string -> float64.

Lemma extractStrict_fold (values : list (list jvalue)) :
  forall vals ts,
    extractStrict Sscan values vals ts =
      if forallb (fun v => negb (wellFormed v) || stringSecond v) values
      then Ok (fold_left (extractStep Sscan) values (vals, ts))
      else Panic.
Proof.
  induction values as [|v values IH]; intros vals ts;
    cbn [extractStrict forallb fold_left]; [reflexivity|].
  unfold wellFormed at 1. unfold extractStep at 2.
  destruct (len v =? 2) eqn:E; cbn [negb orb andb]; [|apply IH].
  unfold stringSecond at 1, assert_string_strict, assert_string.
  destruct (index JNull v 1); cbn [bind andb]; try reflexivity. apply IH.
Qed.

(** X10. The deprecated single-series fetchers read the value of a pair
    with a one-result type assertion: their loop panics as soon as a pair
    of two elements holds a value that is not a JSON string, where
    [fetchAllRPS] stores 0.  On every other input it returns what the loop
    of [fetchAllRPS] returns for the series; only the first series of the
    response is read, and a response without series is the error
    ["no data"], not a panic. *)
Theorem strict_extraction :
  (forall values,
      forallb (fun v => negb (wellFormed v) || stringSecond v) values = true ->
      extractStrict Sscan values [] [] = Ok (extractSeries Sscan values)) /\
  (forall values,
      forallb (fun v => negb (wellFormed v) || stringSecond v) values = false ->
      extractStrict Sscan values [] [] = Panic) /\
  fetchRPSFrom Sscan [] = Ok (inr "no data"%string) /\
  (forall s rest,
      fetchRPSFrom Sscan (s :: rest) =
        if forallb (fun v => negb (wellFormed v) || stringSecond v) (Values s)
        then Ok (inl (extractSeries Sscan (Values s)))
        else Panic).
Proof.
  split; [|split; [|split]].
  - intros values H. rewrite extractStrict_fold, H. reflexivity.
  - intros values H. rewrite extractStrict_fold, H. reflexivity.
  - reflexivity.
  - intros s rest. unfold fetchRPSFrom.
    replace (len (s :: rest) =? 0) with false
      by (symmetry; apply Z.eqb_neq; unfold len; cbn [length]; lia).
    change (index (mkPromSeries [] []) (s :: rest) 0) with s.
    rewrite extractStrict_fold.
    destruct (forallb _ (Values s)); reflexivity.
Qed.

End StrictExtractionProps.

Lemma strict_extraction_witness :
  extractStrict (fun _ => one) [[JNumber one; JString "1"]; [JNull]] [] []
  = Ok (extractSeries (fun _ => one) [[JNumber one; JString "1"]; [JNull]]) /\
  extractStrict (fun _ => one) [[JNumber one; JNumber one]] [] [] = Panic.
Proof.
  split.
  - apply (proj1 (strict_extraction (fun _ => one))). reflexivity.
  - apply (proj1 (proj2 (strict_extraction (fun _ => one)))). reflexivity.
Defined.

(** * Further properties of the service discovery *)

(** ** The order on strings *)

Lemma ascii_compare_lt_trans (a b c : Ascii.ascii) :
  Ascii.compare a b = Lt -> Ascii.compare b c = Lt -> Ascii.compare a c = Lt.
Proof.
  unfold Ascii.compare. rewrite !N.compare_lt_iff. apply N.lt_trans.
Qed.

Lemma string_compare_lt_trans (a : string) :
  forall b c,
    String.compare a b = Lt -> String.compare b c = Lt -> String.compare a c = Lt.
Proof.
  induction a as [|c1 a IH]; intros [|c2 b] [|c3 c]; cbn [String.compare];
    try discriminate; try reflexivity.
  destruct (Ascii.compare c1 c2) eqn:E12; try discriminate;
    destruct (Ascii.compare c2 c3) eqn:E23; try discriminate; intros H1 H2.
  - apply Ascii.compare_eq_iff in E12, E23. subst c2 c3.
    replace (Ascii.compare c1 c1) with Eq
      by (symmetry; unfold Ascii.compare; apply N.compare_refl).
    eapply IH; eassumption.
  - apply Ascii.compare_eq_iff in E12. subst c2. rewrite E23. reflexivity.
  - apply Ascii.compare_eq_iff in E23. subst c3. rewrite E12. reflexivity.
  - rewrite (ascii_compare_lt_trans _ _ _ E12 E23). reflexivity.
Qed.

Lemma string_compare_refl (a : string) : String.compare a a = Eq.
Proof.
  induction a as [|c a IH]; cbn [String.compare]; [reflexivity|].
  replace (Ascii.compare c c) with Eq
    by (symmetry; unfold Ascii.compare; apply N.compare_refl).
  exact IH.
Qed.

Lemma string_leb_cases (a b : string) :
  String.leb a b = true <-> a = b \/ String.ltb a b = true.
Proof.
  unfold String.leb, String.ltb. split.
  - destruct (String.compare a b) eqn:E; try discriminate; intros _.
    + left. apply String.compare_eq_iff, E.
    + right. reflexivity.
  - intros [->|H]; [rewrite string_compare_refl; reflexivity|].
    destruct (String.compare a b); try discriminate; reflexivity.
Qed.

Lemma string_ltb_trans (a b c : string) :
  String.ltb a b = true -> String.ltb b c = true -> String.ltb a c = true.
Proof.
  unfold String.ltb. intros H1 H2.
  destruct (String.compare a b) eqn:E1; try discriminate.
  destruct (String.compare b c) eqn:E2; try discriminate.
  rewrite (string_compare_lt_trans _ _ _ E1 E2). reflexivity.
Qed.

Lemma string_leb_trans (a b c : string) :
  String.leb a b = true -> String.leb b c = true -> String.leb a c = true.
Proof.
  rewrite !string_leb_cases. intros [->|H1] [->|H2]; auto.
  right. eapply string_ltb_trans; eassumption.
Qed.

Lemma string_ltb_irrefl (a : string) : String.ltb a a = false.
Proof. unfold String.ltb. now rewrite string_compare_refl. Qed.

(** ** Sorted lists of distinct strings *)

Lemma sorted_perm_unique (l1 : list string) :
  forall l2,
    StronglySorted (fun a b => String.leb a b = true) l1 ->
    StronglySorted (fun a b => String.leb a b = true) l2 ->
    Permutation l1 l2 -> l1 = l2.
Proof.
  induction l1 as [|a l1 IH]; intros l2 S1 S2 P.
  - apply Permutation_nil in P. congruence.
  - destruct l2 as [|b l2]; [apply Permutation_sym, Permutation_nil in P; discriminate|].
    inversion S1 as [|? ? S1' F1]; subst. inversion S2 as [|? ? S2' F2]; subst.
    assert (E : a = b).
    { assert (Ia : In a (b :: l2)) by (eapply Permutation_in; [exact P|left; reflexivity]).
      assert (Ib : In b (a :: l1))
        by (eapply Permutation_in; [apply Permutation_sym, P|left; reflexivity]).
      destruct Ia as [->|Ia]; [reflexivity|].
      destruct Ib as [->|Ib]; [reflexivity|].
      rewrite Forall_forall in F1, F2.
      apply String.leb_antisym; auto. }
    subst b. f_equal. apply IH; trivial.
    eapply Permutation_cons_inv, P.
Qed.

Lemma sorted_nodup_strict (l : list string) :
  StronglySorted (fun a b => String.leb a b = true) l -> NoDup l ->
  StronglySorted (fun a b => String.ltb a b = true) l.
Proof.
  induction 1 as [|a l S IH F]; intros N; constructor.
  - apply IH. inversion N; assumption.
  - inversion N as [|? ? Hn _]; subst.
    rewrite Forall_forall in *. intros b Hb.
    destruct (proj1 (string_leb_cases a b) (F b Hb)) as [->|H]; [contradiction|exact H].
Qed.

(** ** The set of names *)

Lemma existsb_eqb_In (x : string) (l : list string) :
  existsb (String.eqb x) l = true <-> In x l.
Proof.
  rewrite existsb_exists. split.
  - intros (y & Hy & E). apply String.eqb_eq in E. now subst.
  - intros H. exists x. split; [exact H|apply String.eqb_refl].
Qed.

Lemma seenNames_fold (data : list labelMap) :
  forall seen,
    NoDup seen -> ~ In EmptyString seen ->
    let out := fold_left seenStep data seen in
    NoDup out /\
    (forall name,
        In name out <->
        In name seen \/
        (name <> EmptyString /\
         exists lbls, In lbls data /\ mapGet lbls "service_name" = name)) /\
    (length out <= length seen + length data)%nat.
Proof.
  induction data as [|lbls data IH]; intros seen Hn He; cbn [fold_left].
  - cbv zeta. split; [exact Hn|]. split; [|lia].
    intros name. split; [auto|]. intros [H|(_ & l & [] & _)]. exact H.
  - set (name0 := mapGet lbls "service_name").
    assert (Hstep : NoDup (seenStep seen lbls) /\ ~ In EmptyString (seenStep seen lbls) /\
                    (forall name, In name (seenStep seen lbls) <->
                                  In name seen \/ (name <> EmptyString /\ name0 = name)) /\
                    (length (seenStep seen lbls) <= S (length seen))%nat).
    { unfold seenStep. fold name0.
      destruct (String.eqb name0 "") eqn:E0.
      - apply String.eqb_eq in E0. repeat split; auto.
        intros [H|[H1 H2]]; [exact H|congruence].
      - apply String.eqb_neq in E0.
        destruct (existsb (String.eqb name0) seen) eqn:Ex.
        + apply existsb_eqb_In in Ex. repeat split; auto.
          intros [H|[_ <-]]; assumption.
        + assert (Hni : ~ In name0 seen).
          { intros H. apply existsb_eqb_In in H. congruence. }
          split; [|split; [|split]].
          * apply NoDup_app; [exact Hn|repeat constructor; intros []|].
            intros x Hx [<-|[]]. exact (Hni Hx).
          * rewrite in_app_iff. intros [H|[H|[]]]; [exact (He H)|congruence].
          * intros name. rewrite in_app_iff. cbn [In]. split.
            -- intros [H|[<-|[]]]; [left; exact H|right; split; [exact E0|reflexivity]].
            -- intros [H|[_ <-]]; [left; exact H|right; left; reflexivity].
          * rewrite length_app. cbn. lia. }
    destruct Hstep as (Hn' & He' & Hin & Hlen).
    destruct (IH (seenStep seen lbls) Hn' He') as (N & I & L). cbv zeta in N, I, L.
    cbv zeta. split; [exact N|]. split; [|cbn [length]; lia].
    intros name. rewrite I, Hin. cbn [In]. split.
    + intros [[H|[H1 H2]]|(H1 & l & H2 & H3)].
      * left. exact H.
      * right. split; [exact H1|]. exists lbls. split; [left; reflexivity|exact H2].
      * right. split; [exact H1|]. exists l. split; [right; exact H2|exact H3].
    + intros [H|(H1 & l & [<-|H2] & H3)].
      * left. left. exact H.
      * left. right. split; [exact H1|exact H3].
      * right. split; [exact H1|]. exists l. split; assumption.
Qed.

Section ServicesProps.

Variable rangeOrder : list string -> list string.
Variable sortStrings : list string -> list string.
Variable unmarshalList : string -> option (list labelMap).
Variable unmarshalPayload : string -> list labelMap.

(** The [range] over a map visits every key exactly once. *)
Hypothesis rangeOrder_perm : forall l, Permutation (rangeOrder l) l.

(** [sort.Strings] reorders the slice into increasing order. *)
Hypothesis sortStrings_perm : forall l, Permutation l (sortStrings l).
Hypothesis sortStrings_sorted :
  forall l, StronglySorted (fun a b => String.leb a b = true) (sortStrings l).

(** X11. The names [fetchServices] returns are exactly the non-empty
    [service_name] values of the label sets of the payload, each once, in
    strictly increasing order; there is at most one per label set, and the
    result does not depend on the order in which Go iterates over the map
    [seen].  The function returns an error only when [c.Series] did: a
    body that cannot be decoded is not reported. *)
Theorem fetchServices_names :
  (forall data,
      let out := fetchServicesFrom rangeOrder sortStrings data in
      StronglySorted (fun a b => String.ltb a b = true) out /\
      NoDup out /\
      (forall name,
          In name out <->
          name <> EmptyString /\
          exists lbls, In lbls data /\ mapGet lbls "service_name" = name) /\
      (forall keys, Permutation keys (seenNames data) -> sortStrings keys = out) /\
      len out <= len data) /\
  (forall err,
      fetchServices rangeOrder sortStrings unmarshalList unmarshalPayload (inr err)
      = ([], Some err)) /\
  (forall raw,
      snd (fetchServices rangeOrder sortStrings unmarshalList unmarshalPayload (inl raw))
      = None).
Proof.
  split; [|split; reflexivity].
  intros data out.
  destruct (seenNames_fold data [] (NoDup_nil _) (fun H => H)) as (N & I & L).
  cbv zeta in N, I, L. fold (seenNames data) in N, I, L.
  assert (P : Permutation (seenNames data) out).
  { subst out. unfold fetchServicesFrom.
    eapply Permutation_trans; [apply Permutation_sym, rangeOrder_perm|].
    apply sortStrings_perm. }
  assert (Nout : NoDup out) by (eapply Permutation_NoDup; eassumption).
  split; [|split; [exact Nout|split; [|split]]].
  - apply sorted_nodup_strict; [apply sortStrings_sorted|exact Nout].
  - intros name. split.
    + intros H. apply (Permutation_in _ (Permutation_sym P)) in H.
      apply I in H. destruct H as [[]|H]. exact H.
    + intros H. apply (Permutation_in _ P). apply I. right. exact H.
  - intros keys Pk. apply sorted_perm_unique; try apply sortStrings_sorted.
    eapply Permutation_trans; [apply Permutation_sym, sortStrings_perm|].
    eapply Permutation_trans; [exact Pk|exact P].
  - pose proof (Permutation_length P) as Hl. unfold len. cbn [length] in L. lia.
Qed.

End ServicesProps.

(** ** Insertion sort meets the contract of [sort.Strings] *)

Lemma insertString_perm (x : string) (l : list string) :
  Permutation (x :: l) (insertString x l).
Proof.
  induction l as [|y l IH]; cbn [insertString]; [reflexivity|].
  destruct (String.leb x y); [reflexivity|].
  eapply Permutation_trans; [apply perm_swap|]. now constructor.
Qed.

Lemma insertionSortStrings_perm (l : list string) :
  Permutation l (insertionSortStrings l).
Proof.
  induction l as [|x l IH]; cbn [insertionSortStrings]; [constructor|].
  eapply Permutation_trans; [|apply insertString_perm]. now constructor.
Qed.

Lemma insertString_sorted (x : string) (l : list string) :
  StronglySorted (fun a b => String.leb a b = true) l ->
  StronglySorted (fun a b => String.leb a b = true) (insertString x l).
Proof.
  induction 1 as [|y l S IH F]; cbn [insertString].
  - repeat constructor.
  - destruct (String.leb x y) eqn:E.
    + constructor; [constructor; assumption|].
      constructor; [exact E|].
      eapply Forall_impl; [|exact F]. intros z Hz.
      eapply string_leb_trans; eassumption.
    + constructor; [exact IH|].
      assert (Hyx : String.leb y x = true)
        by (destruct (String.leb_total x y) as [H|H]; [congruence|exact H]).
      rewrite Forall_forall in *. intros z Hz.
      apply (Permutation_in _ (Permutation_sym (insertString_perm x l))) in Hz.
      destruct Hz as [<-|Hz]; [exact Hyx|apply F, Hz].
Qed.

Lemma insertionSortStrings_sorted (l : list string) :
  StronglySorted (fun a b => String.leb a b = true) (insertionSortStrings l).
Proof.
  induction l as [|x l IH]; cbn [insertionSortStrings]; [constructor|].
  apply insertString_sorted, IH.
Qed.

Lemma rev_perm (l : list string) : Permutation (rev l) l.
Proof. apply Permutation_sym, Permutation_rev. Qed.

Lemma fetchServices_names_witness :
  StronglySorted (fun a b => String.ltb a b = true)
    (fetchServicesFrom (@rev string) insertionSortStrings
       [[("service_name", "b")]; []; [("service_name", "a")];
        [("service_name", "b")]]%string) /\
  fetchServicesFrom (@rev string) insertionSortStrings
    [[("service_name", "b")]; []; [("service_name", "a")];
     [("service_name", "b")]]%string = ["a"; "b"]%string.
Proof.
  split; [|reflexivity].
  apply (proj1 (fetchServices_names (@rev string) insertionSortStrings
                  (fun _ => None) (fun _ => [])
                  rev_perm insertionSortStrings_perm insertionSortStrings_sorted)).
Defined.

(** * Further properties of the handlers *)

Lemma indexChecked_ok {A : Type} (d : A) (s : list A) (i : Z) :
  0 <= i < len s -> indexChecked s i = Ok (index d s i).
Proof.
  intros [H0 H1]. unfold indexChecked, index.
  replace (0 <=? i) with true by (symmetry; apply Z.leb_le; lia).
  destruct (nth_error s (Z.to_nat i)) as [a|] eqn:E.
  - rewrite (nth_error_nth _ _ d E). reflexivity.
  - apply nth_error_None in E. unfold len in H1. lia.
Qed.

Section HandlersProps.

Variable Pow : float64 -> float64 -> float64.
Variable sortSlice : (Z -> Z -> bool) -> list Z -> list Z.
Variable Sscan : string -> float64.

(** [sort.Slice] reorders the slice in place. *)
Hypothesis sortSlice_perm : forall less l, Permutation l (sortSlice less l).

Lemma detectAnomalies_top (vals : list float64) (k : Z) (g : Rand) :
  0 <= k ->
  exists idx scores g',
    detectAnomalies Pow sortSlice vals k g = Ok ((idx, scores), g') /\
    len idx = Z.min k (len vals) /\
    Forall (fun i => 0 <= i < len vals) idx /\
    len scores = len vals.
Proof.
  intros Hk. unfold detectAnomalies.
  destruct (detectAnomalies_forest vals g) as (trees & g' & -> & _ & _).
  cbn [bind].
  assert (Hnorm : length (normalize vals) = length vals).
  { unfold normalize. destruct (meanStd vals). apply length_map. }
  rewrite Hnorm.
  set (scores := map _ (normalize vals)).
  set (idx := sortSlice (byScoreDesc scores) (identityIdx (length vals))).
  destruct (identityIdx_spec (length vals)) as (Hl & _ & Hr).
  pose proof (sortSlice_perm (byScoreDesc scores) (identityIdx (length vals))) as P.
  fold idx in P.
  assert (Hlen : length idx = length vals)
    by (rewrite <- (Permutation_length P); exact Hl).
  set (k' := if k >? len idx then len idx else k).
  assert (Hk' : k' = Z.min k (len vals)).
  { subst k'. unfold len. rewrite Hlen. destruct (k >? _) eqn:E.
    - rewrite Z.gtb_ltb in E. apply Z.ltb_lt in E. lia.
    - rewrite Z.gtb_ltb in E. apply Z.ltb_ge in E. lia. }
  replace (k' <? 0) with false by (symmetry; apply Z.ltb_ge; unfold len in *; lia).
  exists (firstn (Z.to_nat k') idx), scores, g'. split; [reflexivity|].
  split; [|split].
  - unfold len in *. rewrite length_firstn, Hlen. lia.
  - apply Forall_forall. intros i Hi. apply In_firstn in Hi.
    apply (Permutation_in _ (Permutation_sym P)) in Hi.
    rewrite Forall_forall in Hr. unfold len. auto.
  - subst scores. unfold len. now rewrite length_map, Hnorm.
Qed.

Lemma topPoints_ok (ts : list Z) (vals scores : list float64) (idx : list Z) :
  forall top,
    len ts = len vals -> len scores = len vals ->
    Forall (fun j => 0 <= j < len vals) idx ->
    topPoints idx ts vals scores top =
      Ok (top ++ map (fun j => mkTopPoint (index 0 ts j) (index zero vals j)
                                          (index zero scores j)) idx).
Proof.
  induction idx as [|j idx IH]; intros top Ht Hs Hall; cbn [topPoints map].
  - now rewrite app_nil_r.
  - inversion Hall as [|? ? Hj Hall']; subst.
    rewrite (indexChecked_ok 0 ts j), (indexChecked_ok zero vals j),
      (indexChecked_ok zero scores j) by lia.
    cbn [bind]. rewrite IH by assumption. rewrite <- app_assoc. reflexivity.
Qed.

(** The slices the fetcher returns for a series. *)
Lemma extractSeries_lengths (values : list (list jvalue)) :
  len (snd (extractSeries Sscan values)) = len (fst (extractSeries Sscan values)) /\
  len (fst (extractSeries Sscan values)) = len (filter wellFormed values).
Proof.
  unfold extractSeries. rewrite extract_fold. cbn [fst snd app].
  unfold len. rewrite !length_map. split; reflexivity.
Qed.

Lemma seriesLoop_spec (metric : string) (threshold : float64)
    (all : list promSeries) (series : list promSeries) :
  forall done results log g,
    all = done ++ series ->
    exists added new g',
      seriesLoop Pow sortSlice metric threshold
        (map (fun s => fst (extractSeries Sscan (Values s))) all)
        (map (fun s => snd (extractSeries Sscan (Values s))) all)
        series (len done) results log g
      = Ok (results ++ new, log ++ added, g') /\
      Forall2 (fun s r => reportsSeries (fst (extractSeries Sscan (Values s)))
                                        (snd (extractSeries Sscan (Values s))) s r)
              (filter (fun s => negb (len (filter wellFormed (Values s)) =? 0)) series)
              new /\
      len added <= 3 * len new /\
      Forall (fun l => exists s, In s series /\ l = eventLine (serviceOf s) metric)
             added.
Proof.
  induction series as [|s rest IH]; intros done results log g Hall;
    cbn [seriesLoop filter].
  - exists [], [], g. rewrite !app_nil_r.
    split; [reflexivity|]. split; [constructor|].
    split; [unfold len; cbn [length]; lia|constructor].
  - set (allVals := map (fun s => fst (extractSeries Sscan (Values s))) all).
    set (allTs := map (fun s => snd (extractSeries Sscan (Values s))) all).
    assert (Hi : 0 <= len done < len all).
    { rewrite Hall. unfold len. rewrite length_app. cbn [length]. lia. }
    assert (Hnth : forall {B : Type} (f : promSeries -> B) (d : B),
               index d (map f all) (len done) = f s).
    { intros B f d. unfold index, len. rewrite Nat2Z.id, Hall, map_app.
      rewrite app_nth2 by (rewrite length_map; lia).
      rewrite length_map, Nat.sub_diag. reflexivity. }
    rewrite (indexChecked_ok [] allVals (len done)), (indexChecked_ok [] allTs (len done))
      by (subst allVals allTs; unfold len in *; rewrite length_map; lia).
    subst allVals allTs. rewrite !Hnth. cbn [bind].
    destruct (extractSeries_lengths (Values s)) as [Hts Hvals].
    set (vals := fst (extractSeries Sscan (Values s))) in *.
    set (ts := snd (extractSeries Sscan (Values s))) in *.
    assert (Hnext : all = (done ++ [s]) ++ rest) by (rewrite <- app_assoc; exact Hall).
    assert (Hlen' : len (done ++ [s]) = len done + 1)
      by (unfold len; rewrite length_app; cbn [length]; lia).
    rewrite <- Hvals. destruct (len vals =? 0) eqn:E0; cbn [negb].
    + destruct (IH (done ++ [s]) results log g Hnext)
        as (added & new & g' & E & HF & Hadd & Hlines).
      rewrite Hlen' in E. exists added, new, g'.
      split; [exact E|]. split; [exact HF|]. split; [exact Hadd|].
      eapply Forall_impl; [|exact Hlines].
      intros l (s' & Hs' & El). exists s'. split; [right; exact Hs'|exact El].
    + destruct (detectAnomalies_top vals 3 g ltac:(lia))
        as (idx & scores & g1 & -> & Hidx & Hrange & Hsc).
      cbn [bind]. rewrite (topPoints_ok ts vals scores idx []) by assumption.
      cbn [bind app].
      set (r := mkSeriesResult (keyLabels s) (len vals) _).
      set (log1 := logAnomalyEvents _ _ _ _ _ _).
      destruct (IH (done ++ [s]) (results ++ [r]) log1 g1 Hnext)
        as (added & new & g' & E & HF & Hadd & Hlines).
      rewrite Hlen' in E.
      assert (Elog : log1 = (log ++ map (fun _ => eventLine (serviceOf s) metric)
                                      (filter (fires scores threshold) idx))%list)
        by apply logAnomalyEvents_fold.
      set (mine := map (fun _ => eventLine (serviceOf s) metric)
                       (filter (fires scores threshold) idx)) in *.
      exists (mine ++ added)%list, (r :: new), g'.
      split; [|split; [|split]].
      * rewrite E, Elog, <- !app_assoc. reflexivity.
      * constructor; [|exact HF]. subst r. unfold reportsSeries.
        cbn [resultLabels resultPoints resultTop].
        split; [reflexivity|]. split; [reflexivity|]. split.
        -- unfold len in *. rewrite length_map. exact Hidx.
        -- apply Forall_forall. intros p Hp. apply in_map_iff in Hp.
           destruct Hp as (j & <- & Hj). rewrite Forall_forall in Hrange.
           exists j. cbn. split; [apply Hrange, Hj|split; reflexivity].
      * assert (Hm : len mine <= 3).
        { subst mine. unfold len in *. rewrite length_map.
          pose proof (filter_length_le (fires scores threshold) idx). lia. }
        unfold len in *. rewrite length_app. cbn [length]. lia.
      * apply Forall_app. split.
        -- subst mine. apply Forall_forall. intros l Hl. apply in_map_iff in Hl.
           destruct Hl as (j & <- & _). exists s. split; [left; reflexivity|reflexivity].
        -- eapply Forall_impl; [|exact Hlines].
           intros l (s' & Hs' & El). exists s'. split; [right; exact Hs'|exact El].
Qed.

(** X13. The two handlers never panic, whatever the decoded response and
    the outcome of the random source: every index into [allVals], [allTs],
    [ts], [vals] and [scores] is in range.  A response without series is
    answered with status 500 and ["no data"], without touching the log or
    the random source.  Otherwise the answer holds one result per series
    that has at least one well-formed pair, in the order of the response,
    with the labels of the series, its number of points and
    [min 3 points] top anomalies, each carrying the time and the value of
    one point of the series; the field [series] is the number of results,
    and the log grows by at most three event lines per result, each
    naming the service of a series of the response. *)
Theorem handlers_never_panic :
  forall metric window threshold res log g,
    exists resp log' g',
      anomaliesHandler Pow sortSlice metric window threshold
        (fetchAllFrom Sscan res) log g = Ok (resp, log', g') /\
      (res = [] ->
       resp = Status500 "no data"%string /\ log' = log /\ g' = g) /\
      (res <> [] ->
       exists results added,
         resp = Status200 window (len results) results metric /\
         Forall2 (fun s r => reportsSeries (fst (extractSeries Sscan (Values s)))
                                           (snd (extractSeries Sscan (Values s))) s r)
                 (filter (fun s => negb (len (filter wellFormed (Values s)) =? 0)) res)
                 results /\
         log' = (log ++ added)%list /\
         len added <= 3 * len results /\
         Forall (fun l => exists s, In s res /\ l = eventLine (serviceOf s) metric)
                added).
Proof.
  intros metric window threshold res log g. unfold fetchAllFrom, extractAll.
  destruct res as [|s0 res].
  - exists (Status500 "no data"%string), log, g.
    split; [reflexivity|]. split; [auto|congruence].
  - replace (len (s0 :: res) =? 0) with false
      by (symmetry; apply Z.eqb_neq; unfold len; cbn [length]; lia).
    rewrite !map_map. unfold anomaliesHandler.
    destruct (seriesLoop_spec metric threshold (s0 :: res) (s0 :: res) [] [] log g
                eq_refl) as (added & new & g' & E & HF & Hadd & Hlines).
    change (len []) with 0 in E. rewrite E. cbn [bind app].
    exists (Status200 window (len new) new metric), (log ++ added)%list, g'.
    split; [reflexivity|]. split; [discriminate|]. intros _.
    exists new, added. repeat split; assumption.
Qed.

End HandlersProps.

Lemma handlers_never_panic_witness :
  exists resp log' g',
    anomaliesHandler PowRef insertionSort "rps" 30 Const.c0_6
      (fetchAllFrom (fun _ => one)
         [mkPromSeries [("service_name", "a")]
            [[JNumber one; JString "1"]; [JNull]]]%string)
      [] (constRand Const.c0_5) = Ok (resp, log', g') /\
    exists results added,
      resp = Status200 30 (len results) results "rps" /\
      log' = added /\ len added <= 3 * len results.
Proof.
  destruct (handlers_never_panic PowRef insertionSort (fun _ => one)
              insertionSort_perm "rps"%string 30 Const.c0_6
              [mkPromSeries [("service_name", "a")]
                 [[JNumber one; JString "1"]; [JNull]]]%string
              [] (constRand Const.c0_5))
    as (resp & log' & g' & E & _ & H).
  exists resp, log', g'. split; [exact E|].
  destruct (H ltac:(discriminate)) as (results & added & Hr & _ & Hl & Ha & _).
  exists results, added. auto.
Defined.

(** * Further properties of the start-up *)

Lemma fetchAttempts_app (a b : list startupEvent) :
  fetchAttempts (a ++ b) = (fetchAttempts a ++ fetchAttempts b)%list.
Proof. unfold fetchAttempts. apply flat_map_app. Qed.

Lemma sleptSeconds_app (a b : list startupEvent) :
  sleptSeconds (a ++ b) = sleptSeconds a + sleptSeconds b.
Proof.
  induction a as [|e a IH]; [reflexivity|].
  cbn [app sleptSeconds fold_right]. fold (sleptSeconds (a ++ b)). fold (sleptSeconds a).
  rewrite IH. destruct e; lia.
Qed.

Lemma waitingLogs_app (a b : list startupEvent) :
  waitingLogs (a ++ b) = waitingLogs a + waitingLogs b.
Proof.
  induction a as [|e a IH]; [reflexivity|].
  cbn [app waitingLogs fold_right]. fold (waitingLogs (a ++ b)). fold (waitingLogs a).
  rewrite IH. destruct e; lia.
Qed.

Lemma zrange_S (lo : Z) (k : nat) : zrange lo (S k) = lo :: zrange (lo + 1) k.
Proof.
  unfold zrange. cbn [seq map]. f_equal; [lia|].
  rewrite <- seq_shift, map_map. apply map_ext. intros i. lia.
Qed.

Section StartupProps.

Variable fetch : Z -> list string * option string.

(** The loop from [attempt] on, when the attempts before [n] fail and
    either [n] succeeds or [n] is 31. *)
Lemma startupLoop_run (k : nat) :
  forall attempt fuel last trace,
    1 <= attempt -> attempt + Z.of_nat k <= 31 ->
    ((k < fuel)%nat \/ (attempt + Z.of_nat k = 31 /\ (k <= fuel)%nat)) ->
    (forall a, attempt <= a < attempt + Z.of_nat k -> succeeded (fetch a) = false) ->
    (attempt + Z.of_nat k <= 30 -> succeeded (fetch (attempt + Z.of_nat k)) = true) ->
    exists T,
      startupLoop fetch fuel attempt last trace =
        Ok (if attempt + Z.of_nat k <=? 30 then fetch (attempt + Z.of_nat k)
            else if (k =? 0)%nat then last else fetch 30,
            (trace ++ T)%list) /\
      fetchAttempts T =
        zrange attempt (if attempt + Z.of_nat k <=? 30 then S k else k) /\
      sleptSeconds T = 2 * Z.of_nat k /\
      waitingLogs T = (if (attempt =? 1) && negb (k =? 0)%nat then 1 else 0).
Proof.
  induction k as [|k IH]; intros attempt fuel last trace H1 H31 Hfuel Hfail Hok.
  - rewrite Z.add_0_r in *. cbn [Nat.eqb negb andb]. rewrite andb_false_r.
    destruct (attempt <=? 30) eqn:E.
    + apply Z.leb_le in E. destruct fuel as [|fuel]; [lia|].
      cbn [startupLoop]. replace (attempt <=? 30) with true by (symmetry; apply Z.leb_le; lia).
      rewrite (Hok E). exists [FetchServices attempt]. repeat split.
      unfold zrange. cbn. f_equal. lia.
    + apply Z.leb_gt in E.
      assert (Es : startupLoop fetch fuel attempt last trace = Ok (last, trace)).
      { destruct fuel; cbn [startupLoop];
          replace (attempt <=? 30) with false by (symmetry; apply Z.leb_gt; lia);
          reflexivity. }
      rewrite Es. exists []. rewrite app_nil_r. repeat split.
  - assert (Ha : attempt <= 30) by lia.
    destruct fuel as [|fuel]; [lia|]. cbn [startupLoop].
    replace (attempt <=? 30) with true by (symmetry; apply Z.leb_le; lia).
    rewrite (Hfail attempt) by lia.
    set (trace1 := ((if attempt =? 1
                     then (trace ++ [FetchServices attempt]) ++
                          [LogWaiting attempt (snd (fetch attempt))]
                     else trace ++ [FetchServices attempt]) ++ [Sleep 2])%list).
    destruct (IH (attempt + 1) fuel (fetch attempt) trace1 ltac:(lia) ltac:(lia)
                ltac:(lia) ltac:(intros a Hr; apply Hfail; lia)
                ltac:(intros Hle; replace (attempt + 1 + Z.of_nat k)
                                    with (attempt + Z.of_nat (S k)) by lia;
                      apply Hok; lia))
      as (T & E & HF & HS & HW).
    replace (attempt + 1 + Z.of_nat k) with (attempt + Z.of_nat (S k)) in E, HF by lia.
    set (mine := ([FetchServices attempt] ++
                  (if attempt =? 1 then [LogWaiting attempt (snd (fetch attempt))]
                   else []) ++ [Sleep 2])%list).
    assert (Et : trace1 = (trace ++ mine)%list).
    { subst trace1 mine. destruct (attempt =? 1); rewrite <- !app_assoc; reflexivity. }
    exists (mine ++ T)%list. split; [|split; [|split]].
    + rewrite E, Et, <- app_assoc. f_equal. f_equal.
      destruct (attempt + Z.of_nat (S k) <=? 30) eqn:E30; [reflexivity|].
      cbn [Nat.eqb]. destruct (k =? 0)%nat eqn:Ek; [|reflexivity].
      apply Nat.eqb_eq in Ek. apply Z.leb_gt in E30. f_equal. lia.
    + rewrite fetchAttempts_app, HF.
      assert (Em : fetchAttempts mine = [attempt])
        by (subst mine; destruct (attempt =? 1); reflexivity).
      rewrite Em. cbn [app].
      destruct (attempt + Z.of_nat (S k) <=? 30); rewrite <- zrange_S; reflexivity.
    + rewrite sleptSeconds_app, HS.
      assert (Em : sleptSeconds mine = 2)
        by (subst mine; destruct (attempt =? 1); reflexivity).
      rewrite Em. lia.
    + rewrite waitingLogs_app, HW. cbn [Nat.eqb negb]. rewrite andb_true_r.
      replace (attempt + 1 =? 1) with false by (symmetry; apply Z.eqb_neq; lia).
      cbn [andb]. subst mine. destruct (attempt =? 1); reflexivity.
Qed.

(** A bounded search for the first success. *)
Lemma first_success (k : nat) :
  forall lo,
    (forall a, lo <= a < lo + Z.of_nat k -> succeeded (fetch a) = false) \/
    (exists n, lo <= n < lo + Z.of_nat k /\ succeeded (fetch n) = true /\
               forall a, lo <= a < n -> succeeded (fetch a) = false).
Proof.
  induction k as [|k IH]; intros lo; [left; intros a Ha; lia|].
  destruct (succeeded (fetch lo)) eqn:E.
  - right. exists lo. split; [lia|]. split; [exact E|]. intros a Ha. lia.
  - destruct (IH (lo + 1)) as [H|(n & Hn & Hs & Hb)].
    + left. intros a Ha. destruct (Z.eq_dec a lo) as [->|]; [exact E|apply H; lia].
    + right. exists n. split; [lia|]. split; [exact Hs|].
      intros a Ha. destruct (Z.eq_dec a lo) as [->|]; [exact E|apply Hb; lia].
Qed.

Lemma succeeded_inv (r : list string * option string) :
  (succeeded r = true -> snd r = None /\ (len (fst r) =? 0) = false) /\
  (succeeded r = false ->
   (match snd r with Some _ => true | None => false end || (len (fst r) =? 0)) = true).
Proof.
  unfold succeeded. destruct (snd r); [split; [discriminate|reflexivity]|].
  cbn [orb]. split; intros H.
  - split; [reflexivity|]. apply Z.ltb_lt in H. apply Z.eqb_neq. lia.
  - apply Z.ltb_ge in H. apply Z.eqb_eq. unfold len in *. lia.
Qed.

(** X12. The start-up closure calls [fetchServices] at most 30 times and
    sleeps two seconds after every failed attempt, the thirtieth
    included: when attempt [n] is the first to succeed it has made the
    attempts 1 to [n], slept [2 * (n - 1)] seconds and ends with the line
    listing the services; when all 30 attempts fail it has slept 60
    seconds and ends with the line "could not list services yet", which
    carries the error of the last attempt.  The "waiting for metrics" line
    is written once, after a failed first attempt, and not again. *)
Theorem startup_retries :
  (forall n,
      1 <= n <= 30 -> succeeded (fetch n) = true ->
      (forall a, 1 <= a < n -> succeeded (fetch a) = false) ->
      exists T,
        startup fetch =
          Ok (T ++ [LogServices (len (fst (fetch n))) (fst (fetch n))])%list /\
        fetchAttempts T = zrange 1 (Z.to_nat n) /\
        sleptSeconds T = 2 * (n - 1) /\
        waitingLogs T = (if n =? 1 then 0 else 1)) /\
  ((forall a, 1 <= a <= 30 -> succeeded (fetch a) = false) ->
   exists T,
     startup fetch = Ok (T ++ [LogCouldNotList (snd (fetch 30))])%list /\
     fetchAttempts T = zrange 1 30 /\
     sleptSeconds T = 60 /\
     waitingLogs T = 1) /\
  (exists trace,
      startup fetch = Ok trace /\
      len (fetchAttempts trace) <= 30 /\
      sleptSeconds trace <= 60 /\
      waitingLogs trace <= 1).
Proof.
  assert (Hsucc : forall n,
             1 <= n <= 30 -> succeeded (fetch n) = true ->
             (forall a, 1 <= a < n -> succeeded (fetch a) = false) ->
             exists T,
               startup fetch =
                 Ok (T ++ [LogServices (len (fst (fetch n))) (fst (fetch n))])%list /\
               fetchAttempts T = zrange 1 (Z.to_nat n) /\
               sleptSeconds T = 2 * (n - 1) /\
               waitingLogs T = (if n =? 1 then 0 else 1)).
  { intros n Hn Hs Hb.
    destruct (startupLoop_run (Z.to_nat (n - 1)) 1 30 ([], None) [] ltac:(lia)
                ltac:(lia) ltac:(lia)
                ltac:(intros a Ha; apply Hb; lia)
                ltac:(intros _; replace (1 + Z.of_nat (Z.to_nat (n - 1))) with n by lia;
                      exact Hs))
      as (T & E & HF & HS & HW).
    replace (1 + Z.of_nat (Z.to_nat (n - 1))) with n in E, HF by lia.
    replace (n <=? 30) with true in E, HF by (symmetry; apply Z.leb_le; lia).
    cbn [app] in E. exists T. unfold startup. rewrite E. cbn [bind].
    destruct (fetch n) as [services err] eqn:Ef.
    destruct (proj1 (succeeded_inv (services, err)) Hs) as [He Hl].
    cbn [fst snd] in He, Hl. subst err. cbn [orb]. rewrite Hl.
    split; [reflexivity|]. split.
    - rewrite HF. f_equal. lia.
    - split; [lia|]. rewrite HW. cbn [Z.eqb andb].
      destruct (n =? 1) eqn:E1.
      + apply Z.eqb_eq in E1. subst n. reflexivity.
      + apply Z.eqb_neq in E1.
        replace (Z.to_nat (n - 1) =? 0)%nat with false
          by (symmetry; apply Nat.eqb_neq; lia). reflexivity. }
  assert (Hfail : (forall a, 1 <= a <= 30 -> succeeded (fetch a) = false) ->
                  exists T,
                    startup fetch = Ok (T ++ [LogCouldNotList (snd (fetch 30))])%list /\
                    fetchAttempts T = zrange 1 30 /\
                    sleptSeconds T = 60 /\
                    waitingLogs T = 1).
  { intros Hb.
    destruct (startupLoop_run 30 1 30 ([], None) [] ltac:(lia) ltac:(cbn; lia)
                ltac:(right; split; [reflexivity|lia])
                ltac:(intros a Ha; apply Hb; cbn in Ha; lia)
                ltac:(cbn; lia))
      as (T & E & HF & HS & HW).
    cbn [app] in E. change (1 + Z.of_nat 30 <=? 30) with false in E, HF.
    change (30 =? 0)%nat with false in E, HW.
    exists T. unfold startup. rewrite E. cbn [bind].
    destruct (fetch 30) as [services err] eqn:Ef.
    pose proof (proj2 (succeeded_inv (fetch 30)) (Hb 30 ltac:(lia))) as Hc.
    rewrite Ef in Hc. cbn [fst snd] in Hc. rewrite Hc.
    split; [reflexivity|]. split; [exact HF|]. split; [exact HS|exact HW]. }
  split; [exact Hsucc|]. split; [exact Hfail|].
  destruct (first_success 30 1) as [H|(n & Hn & Hs & Hb)].
  - destruct (Hfail ltac:(intros a Ha; apply H; cbn; lia)) as (T & E & HF & HS & HW).
    eexists. split; [exact E|].
    rewrite fetchAttempts_app, sleptSeconds_app, waitingLogs_app, HF, HS, HW.
    cbn. repeat split; discriminate.
  - cbn in Hn.
    destruct (Hsucc n ltac:(lia) Hs Hb) as (T & E & HF & HS & HW).
    eexists. split; [exact E|].
    rewrite fetchAttempts_app, sleptSeconds_app, waitingLogs_app, HF, HS, HW.
    cbn [fetchAttempts flat_map sleptSeconds waitingLogs fold_right app].
    rewrite app_nil_r. unfold zrange, len. rewrite length_map, length_seq.
    split; [lia|]. split; [lia|]. destruct (n =? 1); lia.
Qed.

End StartupProps.

Lemma startup_retries_witness :
  exists T,
    startup (fun a => if a <=? 2 then ([], None) else (["svc"%string], None)) =
      Ok (T ++ [LogServices 1 ["svc"%string]])%list /\
    fetchAttempts T = [1; 2; 3] /\
    sleptSeconds T = 4.
Proof.
  destruct (proj1 (startup_retries
                     (fun a => if a <=? 2 then ([], None) else (["svc"%string], None)))
              3 ltac:(lia) eq_refl) as (T & E & HF & HS & _).
  - intros a Ha. assert (Ea : a = 1 \/ a = 2) by lia. destruct Ea as [->| ->]; reflexivity.
  - exists T. repeat split; assumption.
Defined.

(** * Further properties of the descent *)

(** The descent of [pathLenTree] follows the partitions of [fitTree]. *)
Lemma fitTreeFuel_descend (fuel : nat) :
  forall data depth maxDepth g t g' x,
    fitTreeFuel fuel data depth maxDepth g = Ok (t, g') ->
    reachedLeaf t data x = leafAt (Depth (reachedLeaf t data x)) /\
    depth <= Depth (reachedLeaf t data x) /\
    pathLenTree t x = of_int (Depth (reachedLeaf t data x)) /\
    isLeafCase (leafSubsample t data x) (Depth (reachedLeaf t data x)) maxDepth /\
    incl (leafSubsample t data x) data /\
    (In x data -> In x (leafSubsample t data x)) /\
    (forall w, In w (leafSubsample t data x) -> descend t data w = descend t data x).
Proof.
  unfold reachedLeaf, leafSubsample.
  induction fuel as [|fuel IH]; intros data depth maxDepth g t g' x E;
    destruct (fitTreeFuel_inv _ _ _ _ _ _ _ E)
      as [(Hleaf & -> & _)|(f0 & l & r & g1 & Hf & Hd & Hl & He & El & Er & ->)];
    try discriminate;
    try (cbn [descend leafAt fst snd Depth pathLenTree];
         repeat split; [lia|exact Hleaf|apply incl_refl|auto]).
  inversion Hf; subst f0. cbn [pathLenTree descend].
  set (sp := splitOf data g) in *.
  destruct (x <? sp)%f64 eqn:Ex.
  - destruct (IH _ _ _ _ _ _ x El) as (H1 & H2 & H3 & H4 & H5 & H6 & H7).
    assert (Hin : incl (snd (descend l (fst (splitData sp data)) x)) data).
    { intros w Hw. apply H5 in Hw. rewrite splitData_filter in Hw.
      apply filter_In in Hw. tauto. }
    repeat split; try assumption; try lia.
    + intros Hx. apply H6. rewrite splitData_filter. apply filter_In. split; assumption.
    + intros w Hw. pose proof (H5 _ Hw) as Hw'. rewrite splitData_filter in Hw'.
      apply filter_In in Hw'. destruct Hw' as [_ Hw']. rewrite Hw'.
      apply H7. exact Hw.
  - destruct (IH _ _ _ _ _ _ x Er) as (H1 & H2 & H3 & H4 & H5 & H6 & H7).
    assert (Hin : incl (snd (descend r (snd (splitData sp data)) x)) data).
    { intros w Hw. apply H5 in Hw. rewrite splitData_filter in Hw.
      apply filter_In in Hw. tauto. }
    repeat split; try assumption; try lia.
    + intros Hx. apply H6. rewrite splitData_filter. apply filter_In. split; [assumption|].
      rewrite Ex. reflexivity.
    + intros w Hw. pose proof (H5 _ Hw) as Hw'. rewrite splitData_filter in Hw'.
      apply filter_In in Hw'. destruct Hw' as [_ Hw'].
      destruct (w <? sp)%f64; [discriminate|].
      apply H7. exact Hw.
Qed.

(** X14. [pathLenTree] routes a point [x] to one leaf of the tree that
    [fitTree] built on [data]: the path length is the depth of that leaf,
    and the leaf is what [fitTree] returns, without drawing, for the part
    of [data] that the partitions along the path handed down to it.  That
    part consists of exactly the points of [data] that the descent sends to
    the same leaf, so it contains [x] when [x] is in [data].  Hence a path
    length below [maxDepth] means that the points sharing the leaf of [x]
    have been isolated: there is at most one of them, or their minimum
    equals their maximum. *)
Theorem descent_reaches_own_leaf :
  forall data depth maxDepth g t g' x,
    fitTree data depth maxDepth g = Ok (t, g') ->
    reachedLeaf t data x = leafAt (Depth (reachedLeaf t data x)) /\
    depth <= Depth (reachedLeaf t data x) /\
    pathLenTree t x = of_int (Depth (reachedLeaf t data x)) /\
    (forall g1, fitTree (leafSubsample t data x) (Depth (reachedLeaf t data x))
                  maxDepth g1 = Ok (reachedLeaf t data x, g1)) /\
    (forall w, In w (leafSubsample t data x) <->
               In w data /\ descend t data w = descend t data x) /\
    (In x data -> In x (leafSubsample t data x)) /\
    (Depth (reachedLeaf t data x) < maxDepth ->
     len (leafSubsample t data x) <= 1 \/
     (fst (minMax (leafSubsample t data x))
      =? snd (minMax (leafSubsample t data x)))%f64 = true).
Proof.
  intros data depth maxDepth g t g' x E. unfold fitTree in E.
  destruct (fitTreeFuel_descend _ _ _ _ _ _ _ x E) as (H1 & H2 & H3 & H4 & H5 & H6 & H7).
  split; [exact H1|]. split; [exact H2|]. split; [exact H3|]. split.
  { intros g1. unfold fitTree.
    rewrite (fitTreeFuel_leaf _ _ _ _ g1 H4). rewrite <- H1. reflexivity. }
  split.
  { intros w. split.
    - intros Hw. split; [apply H5; exact Hw|apply H7; exact Hw].
    - intros [Hw Ew].
      destruct (fitTreeFuel_descend _ _ _ _ _ _ _ w E) as (_ & _ & _ & _ & _ & K & _).
      unfold leafSubsample in *. rewrite <- Ew. apply K. exact Hw. }
  split; [exact H6|].
  intros Hd. destruct H4 as [H4|H4]; [lia|exact H4].
Qed.

Lemma descent_reaches_own_leaf_witness :
  exists t g',
    fitTree [zero; one; two] 0 2 (constRand Const.c0_5) = Ok (t, g') /\
    pathLenTree t two = of_int (Depth (reachedLeaf t [zero; one; two] two)) /\
    leafSubsample t [zero; one; two] two = [two] /\
    Depth (reachedLeaf t [zero; one; two] two) = 2.
Proof.
  destruct (fitTree [zero; one; two] 0 2 (constRand Const.c0_5))
    as [[t g']| |] eqn:E; [|vm_compute in E; discriminate..].
  destruct (descent_reaches_own_leaf [zero; one; two] 0 2 (constRand Const.c0_5)
              t g' two E) as (_ & _ & H3 & _).
  exists t, g'. split; [reflexivity|]. split; [exact H3|].
  vm_compute in E. inversion E; subst t. vm_compute. split; reflexivity.
Defined.

(** ** A NaN at the head of the subsample *)

Lemma splitPoint_nan (r : float64) : splitPoint nan nan r = nan.
Proof. reflexivity. Qed.

Lemma splitData_nan (data : list float64) : splitData nan data = ([], data).
Proof.
  rewrite splitData_filter.
  destruct (filter_nan_threshold data) as [-> ->]. reflexivity.
Qed.

Lemma fitTreeFuel_nan_head (data : list float64) (maxDepth : Z) (fuel : nat) :
  forall depth g,
    data <> [] -> Z.to_nat (maxDepth - depth) = fuel ->
    exists t g',
      fitTreeFuel fuel (nan :: data) depth maxDepth g = Ok (t, g') /\
      pos g' = (pos g + fuel)%nat /\
      internalNodes t = fuel /\
      forall x, pathLenTree t x = of_int (Z.max depth maxDepth).
Proof.
  induction fuel as [|fuel IH]; intros depth g Hne Hf.
  - exists (leafAt depth), g. split; [|split; [lia|split; [reflexivity|]]].
    + apply fitTreeFuel_leaf. left. lia.
    + intros x. cbn. f_equal. lia.
  - assert (Hd : depth < maxDepth) by lia.
    destruct (IH (depth + 1) (advance g) Hne ltac:(lia)) as (r & g' & Er & Hp & Hi & Hx).
    exists (mkTree nan (Some (leafAt (depth + 1))) (Some r) false depth), g'.
    split; [|split; [|split]].
    + cbn [fitTreeFuel].
      replace (depth >=? maxDepth) with false
        by (symmetry; rewrite Z.geb_leb; apply Z.leb_gt; lia).
      replace (len (nan :: data) <=? 1) with false
        by (symmetry; apply Z.leb_gt; destruct data; [congruence|];
            unfold len; cbn [length]; lia).
      cbn [orb]. rewrite minMax_nan_head.
      change (nan =? nan)%f64 with false. cbv iota. unfold Float64.
      rewrite splitPoint_nan, splitData_nan.
      rewrite (fitTreeFuel_leaf fuel [] (depth + 1) maxDepth (advance g))
        by (right; left; unfold len; cbn; lia).
      cbn [bind]. rewrite Er. reflexivity.
    + rewrite Hp. cbn [advance pos]. lia.
    + cbn [internalNodes Leaf Left Right leafAt]. rewrite Hi. lia.
    + intros x. cbn [pathLenTree]. rewrite ltb_nan_r, Hx. f_equal. lia.
Qed.

(** X15. When the first element of a subsample of two or more values is
    NaN, [fitTree] never stops early: minimum and maximum stay NaN, the
    test [minV == maxV] fails, the threshold is NaN and the whole
    subsample goes right at every level.  The tree is a chain of
    [maxDepth - depth] internal nodes, and every point, whatever its
    value, gets the largest path length [maxDepth]. *)
Theorem fitTree_nan_head :
  forall data depth maxDepth g,
    data <> [] ->
    exists t g',
      fitTree (nan :: data) depth maxDepth g = Ok (t, g') /\
      pos g' = (pos g + Z.to_nat (maxDepth - depth))%nat /\
      internalNodes t = Z.to_nat (maxDepth - depth) /\
      forall x, pathLenTree t x = of_int (Z.max depth maxDepth).
Proof.
  intros data depth maxDepth g Hne. unfold fitTree.
  apply fitTreeFuel_nan_head; [exact Hne|reflexivity].
Qed.

Lemma fitTree_nan_head_witness :
  exists t g',
    fitTree [nan; one; two] 0 2 (constRand Const.c0_5) = Ok (t, g') /\
    pathLenTree t one = of_int 2.
Proof.
  destruct (fitTree_nan_head [one; two] 0 2 (constRand Const.c0_5) ltac:(discriminate))
    as (t & g' & E & _ & _ & Hx).
  exists t, g'. split; [exact E|apply Hx].
Defined.

(** * Further properties of the fetchers *)

(** ** Timestamps *)

(** [float64(n)] is exact for an integer of less than 54 bits. *)
Lemma binary_round_small_int (s : bool) (p : positive) :
  Zpos p < 2 ^ 53 ->
  exists m e,
    binary_round prec emax s p 0 = S754_finite s m e /\
    -52 <= e <= 0 /\ Zpos m = Zpos p * 2 ^ (- e).
Proof.
  intros Hp. unfold binary_round.
  change (Zpos (digits2_pos p)) with (Zdigits2 (Zpos p)).
  destruct (Zdigits2_bounds (Zpos p) ltac:(lia)) as (HD & Hlo & _).
  assert (HD53 : Zdigits2 (Zpos p) <= 53) by (apply Zdigits2_lt_pow; lia).
  set (F := fexp prec emax (Zdigits2 (Zpos p) + 0)).
  assert (HF : F = Zdigits2 (Zpos p) - 53)
    by (subst F; unfold fexp, emin, prec, emax; lia).
  destruct (shl_align_fst p 0 F ltac:(lia)) as [Hm He].
  destruct (shl_align p 0 F) as [mz ez]. cbn [fst snd] in Hm, He. subst ez.
  exists mz, F. split; [|split; [lia|rewrite Hm; f_equal; f_equal; lia]].
  apply binary_round_aux_exact. apply bounded_intro; [|lia].
  rewrite Hm, Zdigits2_mul_pow2 by lia. unfold fexp, emin, prec, emax. lia.
Qed.

Lemma to_int64_exact (s : bool) (m p : positive) (e : Z) :
  Zpos p < 2 ^ 53 -> -52 <= e <= 0 -> Zpos m = Zpos p * 2 ^ (- e) ->
  to_int64 (S754_finite s m e) = if s then - Zpos p else Zpos p.
Proof.
  intros Hp He Hm. unfold to_int64.
  assert (Ha : (if 0 <=? e then Z.shiftl (Zpos m) e else Z.shiftr (Zpos m) (- e))
               = Zpos p).
  { destruct (0 <=? e) eqn:E.
    - apply Z.leb_le in E. replace e with 0 in * by lia.
      rewrite Z.shiftl_0_r, Hm. cbn. lia.
    - rewrite Z.shiftr_div_pow2, Hm by lia.
      apply Z.div_mul. apply Z.pow_nonzero; lia. }
  rewrite Ha. cbv zeta.
  assert (Hr : forall v, - 2 ^ 53 < v < 2 ^ 53 ->
                 (if (- 2 ^ 63 <=? v) && (v <? 2 ^ 63) then v else - 2 ^ 63) = v).
  { intros v Hv.
    replace (- 2 ^ 63 <=? v) with true by (symmetry; apply Z.leb_le; lia).
    replace (v <? 2 ^ 63) with true by (symmetry; apply Z.ltb_lt; lia).
    reflexivity. }
  destruct s; apply Hr; lia.
Qed.

Lemma to_int64_of_int (n : Z) :
  - 2 ^ 53 < n < 2 ^ 53 -> to_int64 (of_int n) = n.
Proof.
  intros Hn. unfold of_int. destruct n as [|p|p]; cbn [binary_normalize].
  - reflexivity.
  - destruct (binary_round_small_int false p ltac:(lia)) as (m & e & -> & He & Hm).
    apply (to_int64_exact false m p e); [lia|exact He|exact Hm].
  - destruct (binary_round_small_int true p ltac:(lia)) as (m & e & -> & He & Hm).
    apply (to_int64_exact true m p e); [lia|exact He|exact Hm].
Qed.

Section FetcherProps.

Variable Sscan : string -> float64.

(** X16. A timestamp that is a whole number of seconds survives the pair
    of conversions [int64(sec)] applied to the decoded JSON number: for
    every integer [n] of less than 54 bits, a pair whose first element is
    the number [n] is given the Unix time [n], whatever its value.  A
    first element that is not a number gives the time 0. *)
Theorem timestamps_preserved :
  (forall n, - 2 ^ 53 < n < 2 ^ 53 -> to_int64 (of_int n) = n) /\
  (forall n v,
      - 2 ^ 53 < n < 2 ^ 53 ->
      snd (extractSeries Sscan [[JNumber (of_int n); v]]) = [n]) /\
  (forall u v,
      (forall f, u <> JNumber f) ->
      snd (extractSeries Sscan [[u; v]]) = [0]).
Proof.
  split; [exact to_int64_of_int|]. split.
  - intros n v Hn. unfold extractSeries. rewrite extract_fold.
    cbn [snd app filter]. change (wellFormed [JNumber (of_int n); v]) with true.
    cbn [map]. change (timestampOf [JNumber (of_int n); v]) with (to_int64 (of_int n)).
    rewrite (to_int64_of_int n Hn). reflexivity.
  - intros u v Hu. unfold extractSeries. rewrite extract_fold.
    cbn [snd app filter]. change (wellFormed [u; v]) with true.
    cbn [map]. change (timestampOf [u; v]) with (to_int64 (assert_float64 u)).
    destruct u; try reflexivity. exfalso. eapply Hu. reflexivity.
Qed.

Lemma sanitizedValue_number (v : list jvalue) :
  IsNaN (sanitizedValue Sscan v) = false /\ IsInf (sanitizedValue Sscan v) = false.
Proof.
  unfold sanitizedValue. set (f := Sscan _).
  destruct (IsNaN f) eqn:En; cbn [orb]; [split; reflexivity|].
  destruct (IsInf f) eqn:Ei; [split; reflexivity|]. split; assumption.
Qed.

Lemma extractSeries_numbers (values : list (list jvalue)) :
  Forall (fun x => IsNaN x = false /\ IsInf x = false)
         (fst (extractSeries Sscan values)).
Proof.
  unfold extractSeries. rewrite extract_fold. cbn [fst app].
  apply Forall_forall. intros x Hx. apply in_map_iff in Hx.
  destruct Hx as (v & <- & _). apply sanitizedValue_number.
Qed.

(** X17. Whatever the payload and whatever [fmt.Sscan] read from it, no
    value that [fetchAllRPS] or [fetchAllErrorRate] returns is NaN or
    infinite; the fetcher returns the series of the response unchanged,
    with one slice of values and one slice of times per series, of equal
    lengths. *)
Theorem fetched_values_are_numbers :
  forall res series allVals allTs,
    fetchAllFrom Sscan res = inl (series, allVals, allTs) ->
    series = res /\ res <> [] /\
    len allVals = len res /\ len allTs = len res /\
    Forall (Forall (fun x => IsNaN x = false /\ IsInf x = false)) allVals /\
    Forall2 (fun vals ts => len vals = len ts) allVals allTs.
Proof.
  intros res series allVals allTs E. unfold fetchAllFrom, extractAll in E.
  destruct (len res =? 0) eqn:E0; [discriminate|].
  inversion E as [[Hs Hv Ht]]. subst series allVals allTs.
  rewrite !map_map. split; [reflexivity|]. split.
  - intros ->. discriminate.
  - unfold len. rewrite !length_map. split; [reflexivity|]. split; [reflexivity|].
    split.
    + apply Forall_forall. intros vals Hv. apply in_map_iff in Hv.
      destruct Hv as (s & <- & _). apply extractSeries_numbers.
    + clear E E0. induction res as [|s res IH]; cbn [map]; constructor; [|exact IH].
      unfold extractSeries. rewrite extract_fold. cbn [fst snd app].
      now rewrite !length_map.
Qed.

End FetcherProps.

Lemma timestamps_preserved_witness :
  to_int64 (of_int 1700000000) = 1700000000 /\
  snd (extractSeries (fun _ => one) [[JNumber (of_int 1700000000); JString "1"]])
  = [1700000000].
Proof.
  split.
  - apply (proj1 (timestamps_preserved (fun _ => one))). lia.
  - apply (proj1 (proj2 (timestamps_preserved (fun _ => one)))). lia.
Defined.

Lemma fetched_values_are_numbers_witness :
  exists series allVals allTs,
    fetchAllFrom (fun _ => nan)
      [mkPromSeries [] [[JNumber one; JString "NaN"]; [JNull]]] =
      inl (series, allVals, allTs) /\
    Forall (Forall (fun x => IsNaN x = false /\ IsInf x = false)) allVals.
Proof.
  destruct (fetchAllFrom (fun _ => nan)
              [mkPromSeries [] [[JNumber one; JString "NaN"]; [JNull]]])
    as [[[series allVals] allTs]|err] eqn:E; [|vm_compute in E; discriminate].
  exists series, allVals, allTs. split; [reflexivity|].
  apply (fetched_values_are_numbers (fun _ => nan) _ series allVals allTs E).
Defined.

(** * The scores of a forest with at least one tree *)

(** ** Rounding below a power of two *)

(** Rounding a number below [2^k], whatever lies beyond its last digit, gives
    at most [2^k]: a zero or a representable number. *)
Lemma round_aux_le_pow2 (m e k : Z) (l : location) :
  0 <= m -> e <= fexp prec emax (Zdigits2 m + e) ->
  Zdigits2 m + e <= k -> -1021 <= k <= 1023 ->
  atMost (binary_round_aux prec emax false m e l) 4503599627370496 (k - 52).
Proof.
  intros Hm HeF Hk Hkr.
  destruct (binary_round_aux_cases false m e l Hm) as (m2 & Hm2 & E).
  cbv zeta in Hm2, E.
  set (F := fexp prec emax (Zdigits2 m + e)) in *.
  assert (HF : -1074 <= F <= k - 53) by (subst F; unfold fexp, emin, prec, emax in *; lia).
  set (n1 := F - e) in *.
  set (m1 := if 0 <? n1 then m / 2 ^ n1 else m) in *.
  set (e1 := if 0 <? n1 then e + n1 else e) in *.
  assert (He1 : e1 = F) by (subst e1 n1; destruct (0 <? F - e) eqn:Hn;
                            [|apply Z.ltb_ge in Hn]; lia).
  assert (Hm1 : 0 <= m1 < 2 ^ 53 /\ (-1074 < F -> 2 ^ 52 <= m1)).
  { destruct (Z.eq_dec m 0) as [->|Hnz].
    - assert (E0 : m1 = 0) by (subst m1; destruct (0 <? n1); [apply Z.div_0_l|]; 
                                try reflexivity;
                                assert (0 < 2 ^ n1) by (apply Z.pow_pos_nonneg; subst n1; lia); lia).
      rewrite E0. split; [split; [lia|reflexivity]|].
      intros HFl. exfalso. subst F. cbn [Zdigits2] in *.
      unfold fexp, emin, prec, emax in *. lia.
    - destruct (Zdigits2_bounds m ltac:(lia)) as (HDz & HDzlo & HDzhi).
      assert (Hn1 : Zdigits2 m <= n1 + 53 /\ (-1074 < F -> Zdigits2 m = n1 + 53))
        by (subst n1 F; unfold fexp, emin, prec, emax in *; lia).
      destruct Hn1 as [Hn1 Hn1'].
      pose proof (Z.pow_le_mono_r 2 (Zdigits2 m) (n1 + 53) ltac:(lia) Hn1) as Hp.
      subst m1. destruct (0 <? n1) eqn:Hn;
        [apply Z.ltb_lt in Hn|apply Z.ltb_ge in Hn].
      + assert (Hpn : 0 < 2 ^ n1) by (apply Z.pow_pos_nonneg; lia).
        split; [split; [apply Z.div_pos; lia|]|].
        * apply Z.div_lt_upper_bound; [exact Hpn|].
          rewrite <- Z.pow_add_r by lia. lia.
        * intros HFl. apply Z.div_le_lower_bound; [exact Hpn|].
          rewrite <- Z.pow_add_r by lia. rewrite (Hn1' HFl) in HDzlo.
          replace (n1 + 52) with (n1 + 53 - 1) by lia. exact HDzlo.
      + assert (En : n1 = 0) by (subst n1; lia).
        replace (n1 + 53) with 53 in Hp by lia. split; [lia|].
        intros HFl. rewrite (Hn1' HFl), En in HDzlo. exact HDzlo. }
  destruct Hm1 as [Hm1 Hm1lo].
  rewrite He1 in E.
  destruct (second_shift_canonical m2 F ltac:(lia) ltac:(lia)
              ltac:(intros; specialize (Hm1lo ltac:(assumption)); lia))
    as (Hm3 & Hcase & Hcan).
  cbv zeta in Hm3, Hcase, Hcan.
  set (n3 := fexp prec emax (Zdigits2 m2 + F) - F) in *.
  set (m3 := if 0 <? n3 then m2 / 2 ^ n3 else m2) in *.
  set (e3 := if 0 <? n3 then F + n3 else F) in *.
  rewrite E. destruct m3 as [|p|p]; [left; reflexivity| |lia].
  assert (He3 : e3 <= 971) by (destruct Hcase as [[-> _]|[-> _]]; lia).
  replace (e3 <=? emax - prec) with true
    by (symmetry; apply Z.leb_le; unfold emax, prec; lia).
  right. exists p, e3. split; [reflexivity|].
  split; [apply bounded_intro; [apply Hcan; lia|exact He3]|].
  destruct Hcase as [[-> _]|(-> & Hp & _)]; [left; lia|].
  destruct (Z.eq_dec (F + 1) (k - 52)) as [He|He]; [right|left; lia].
  split; [exact He|]. rewrite Hp. reflexivity.
Qed.

(** The quotient and the exponent [SFdiv] hands to the rounding. *)
Lemma div_core_facts (mx my : positive) (ex ey : Z) :
  exists q e' l,
    SFdiv_core_binary prec emax (Zpos mx) ex (Zpos my) ey = (q, e', l) /\
    0 <= q /\ e' <= ex - ey /\
    q * Zpos my <= Zpos mx * 2 ^ (ex - ey - e') /\
    e' <= fexp prec emax (Zdigits2 q + e').
Proof.
  unfold SFdiv_core_binary. cbv zeta.
  set (D := Zdigits2 (Zpos mx) + ex - (Zdigits2 (Zpos my) + ey)).
  set (e' := Z.min (fexp prec emax D) (ex - ey)).
  set (s := ex - ey - e').
  assert (Hs : 0 <= s) by (subst s e'; lia).
  set (m' := match s with 0 => Zpos mx | Zpos _ => Z.shiftl (Zpos mx) s | Zneg _ => 0 end).
  assert (Em : m' = Zpos mx * 2 ^ s).
  { subst m'. destruct s as [|p|p] eqn:Es; try lia.
    rewrite Z.shiftl_mul_pow2 by lia. reflexivity. }
  pose proof (Z_div_mod m' (Zpos my) ltac:(lia)) as Hdm.
  destruct (Z.div_eucl m' (Zpos my)) as [q r] eqn:Eqr.
  destruct Hdm as [Hdm Hr].
  assert (Hps : 0 < 2 ^ s) by (apply Z.pow_pos_nonneg; lia).
  assert (Hq : 0 <= q) by nia.
  exists q, e', (new_location (Zpos my) r). split; [reflexivity|].
  split; [exact Hq|]. split; [subst e'; lia|].
  split; [fold s; rewrite <- Em; lia|].
  destruct (Zdigits2_bounds (Zpos mx) ltac:(lia)) as (Hd1 & Hd1lo & Hd1hi).
  destruct (Zdigits2_bounds (Zpos my) ltac:(lia)) as (Hd2 & Hd2lo & Hd2hi).
  assert (HD : D <= Zdigits2 q + e').
  { set (j := Zdigits2 (Zpos mx) + s - Zdigits2 (Zpos my)).
    assert (Hj : j <= Zdigits2 q); [|subst j D s; lia].
    destruct (Z_le_gt_dec j 0) as [Hj0|Hj0].
    - assert (0 <= Zdigits2 q); [|lia].
      destruct q as [|p|p]; try lia; [cbn; lia|].
      destruct (Zdigits2_bounds (Zpos p) ltac:(lia)); lia.
    - replace j with (j - 1 + 1) by lia. apply Zdigits2_ge_pow; [lia|].
      assert (Hlow : 2 ^ (j - 1) * Zpos my <= m').
      { rewrite Em.
        assert (H1 : 2 ^ (j - 1) * Zpos my <= 2 ^ (j - 1) * 2 ^ Zdigits2 (Zpos my)).
        { apply Z.mul_le_mono_nonneg_l; [apply Z.pow_nonneg; lia|lia]. }
        rewrite <- Z.pow_add_r in H1 by lia.
        replace (j - 1 + Zdigits2 (Zpos my)) with (Zdigits2 (Zpos mx) - 1 + s) in H1
          by (subst j; lia).
        rewrite Z.pow_add_r in H1 by lia. nia. }
      assert (Hpj : 0 < 2 ^ (j - 1)) by (apply Z.pow_pos_nonneg; lia).
      nia. }
  subst e'. unfold fexp, emin, prec, emax in *. lia.
Qed.

(** A quotient below [2^k] rounds to at most [2^k]. *)
Lemma div_le_pow2 (x y : float64) (k : Z) :
  finite x -> signed false x -> finite y -> finitePosb y = true ->
  0 <= k <= 1023 -> val x < 2 ^ k * val y ->
  atMost (x / y)%f64 4503599627370496 (k - 52).
Proof.
  intros (Vx & _ & Ix) Sx (Vy & _) Py Hk Hlt.
  destruct y as [sy|sy| |[] my ey]; try discriminate.
  destruct Sx as [->|[->|(mx & ex & ->)]]; [left; reflexivity|discriminate|].
  cbn [valid_binary] in Vx, Vy.
  destruct (bounded_facts mx ex Vx) as (_ & _ & Hex & _).
  destruct (bounded_facts my ey Vy) as (_ & _ & Hey & _).
  cbn [val cond_Zopp] in Hlt.
  unfold div, SFdiv.
  destruct (div_core_facts mx my ex ey) as (q & e' & l & -> & Hq & He' & Hqm & Hcan).
  cbn [xorb]. apply round_aux_le_pow2; [exact Hq|exact Hcan| |lia].
  destruct (Z.eq_dec q 0) as [->|Hnz].
  { cbn [Zdigits2] in *. unfold fexp, emin, prec, emax in *. lia. }
  set (A := Zpos mx * 2 ^ (ex + 1074)) in *.
  set (B := Zpos my * 2 ^ (ey + 1074)) in *.
  assert (HB : 0 < B)
    by (subst B; apply Z.mul_pos_pos; [lia|apply Z.pow_pos_nonneg; lia]).
  assert (HqB : q * B <= Zpos mx * 2 ^ (ex - e' + 1074)).
  { subst B. replace (ex - e' + 1074) with (ex - ey - e' + (ey + 1074)) by lia.
    rewrite (Z.pow_add_r 2 (ex - ey - e')) by lia.
    assert (Hpy : 0 < 2 ^ (ey + 1074)) by (apply Z.pow_pos_nonneg; lia).
    pose proof (Z.mul_le_mono_nonneg_r _ _ (2 ^ (ey + 1074)) ltac:(lia) Hqm) as H'.
    lia. }
  assert (Hlt' : 0 <= k - e' /\ q < 2 ^ (k - e')).
  { destruct (Z_le_gt_dec e' 0) as [Hneg|Hpos].
    - split; [lia|].
      replace (ex - e' + 1074) with (ex + 1074 + - e') in HqB by lia.
      rewrite (Z.pow_add_r 2 (ex + 1074)) in HqB by lia. fold A in HqB.
      replace (k - e') with (k + - e') by lia. rewrite (Z.pow_add_r 2 k) by lia.
      assert (0 < 2 ^ (- e')) by (apply Z.pow_pos_nonneg; lia).
      assert (0 < 2 ^ k) by (apply Z.pow_pos_nonneg; lia). nia.
    - assert (EA : A = Zpos mx * 2 ^ (ex - e' + 1074) * 2 ^ e').
      { subst A. rewrite <- Z.mul_assoc, <- Z.pow_add_r by lia. do 2 f_equal. lia. }
      assert (Hpe : 0 < 2 ^ e') by (apply Z.pow_pos_nonneg; lia).
      assert (Hpk : 0 < 2 ^ k) by (apply Z.pow_pos_nonneg; lia).
      assert (Hq2 : q * 2 ^ e' < 2 ^ k) by nia.
      assert (Hek : e' < k).
      { destruct (Z_lt_le_dec e' k) as [|Hge]; [assumption|].
        pose proof (Z.pow_le_mono_r 2 k e' ltac:(lia) Hge). nia. }
      split; [lia|].
      replace (2 ^ k) with (2 ^ (k - e') * 2 ^ e') in Hq2
        by (rewrite <- Z.pow_add_r by lia; f_equal; lia).
      assert (0 < 2 ^ (k - e')) by (apply Z.pow_pos_nonneg; lia). nia. }
  destruct Hlt' as [Hke Hlt'].
  pose proof (Zdigits2_lt_pow q (k - e') ltac:(lia)). lia.
Qed.

(** The sign of the dividend passes to the quotient. *)
Lemma round_aux_opp (s : bool) (m e : Z) (l : location) :
  binary_round_aux prec emax (negb s) m e l
  = SFopp (binary_round_aux prec emax s m e l).
Proof.
  unfold binary_round_aux.
  destruct (shr_fexp prec emax m e l) as [mrs1 e1].
  destruct (shr_fexp prec emax _ e1 loc_Exact) as [mrs3 e3].
  destruct (shr_m mrs3); try reflexivity. destruct (e3 <=? emax - prec); reflexivity.
Qed.

Lemma div_neg_l (x y : float64) :
  finitePosb y = true -> (- x / y)%f64 = (- (x / y))%f64.
Proof.
  intros Py. destruct y as [sy|sy| |[] my ey]; try discriminate.
  destruct x as [sx|sx| |sx mx ex]; try reflexivity.
  - cbn. rewrite !xorb_false_r. reflexivity.
  - cbn. rewrite !xorb_false_r. reflexivity.
  - unfold neg, div, SFdiv. cbn [SFopp].
    destruct (SFdiv_core_binary prec emax (Zpos mx) ex (Zpos my) ey) as [[q e'] l].
    rewrite !xorb_false_r. apply round_aux_opp.
Qed.

(** [float64(n)] is exact below [2^53]. *)
Lemma of_int_val (n : Z) :
  0 <= n < 2 ^ 53 ->
  finite (of_int n) /\ signed false (of_int n) /\ val (of_int n) = n * 2 ^ 1074.
Proof.
  intros [Hlo Hhi]. destruct n as [|p|p]; try lia.
  { split; [repeat split|]. split; [left; reflexivity|reflexivity]. }
  unfold of_int. cbn [binary_normalize].
  destruct (binary_round_small_int false p Hhi) as (m & e & E & He & Hm).
  assert (Hb : bounded prec emax 4503599627370496 1 = true) by reflexivity.
  pose proof (binary_round_le 4503599627370496 p 1 0 0 Hb ltac:(lia) ltac:(lia)) as H.
  rewrite E in *.
  destruct H as [H|(m3 & e3 & H & Hb3 & _)]; [| discriminate H |].
  { change (2 ^ (0 - 0)) with 1. change (2 ^ (1 - 0)) with 2.
    change (2 ^ 53) with 9007199254740992 in Hhi. lia. }
  inversion H; subst m3 e3.
  split; [repeat split; exact Hb3|]. split; [right; right; eauto|].
  cbn [val cond_Zopp]. rewrite Hm, <- Z.mul_assoc, <- Z.pow_add_r by lia.
  do 2 f_equal. lia.
Qed.

(** A sum of two non-negative finite numbers whose exact value is at most
    a representable bound is finite, non-negative and at most the bound. *)
Lemma add_nonneg_bound (x p : float64) (mb : positive) (eb : Z) :
  finite x -> signed false x -> finite p -> signed false p ->
  bounded prec emax mb eb = true ->
  val x + val p <= Zpos mb * 2 ^ (eb + 1074) ->
  finite (x + p)%f64 /\ signed false (x + p)%f64 /\
  val (x + p)%f64 <= Zpos mb * 2 ^ (eb + 1074).
Proof.
  intros Hx Sx Hp Sp Hb Hle.
  destruct Sx as [->|[->|(mx & ex & ->)]];
    try (destruct Hx as (_ & _ & ?); discriminate);
    destruct Sp as [->|[->|(mp & ep & ->)]];
    try (destruct Hp as (_ & _ & ?); discriminate).
  - change (S754_zero false + S754_zero false)%f64 with (S754_zero false).
    split; [repeat split|]. split; [left; reflexivity|exact Hle].
  - change (S754_zero false + S754_finite false mp ep)%f64 with (S754_finite false mp ep).
    split; [exact Hp|]. split; [right; right; eauto|]. cbn [val] in *. lia.
  - change (S754_finite false mx ex + S754_zero false)%f64 with (S754_finite false mx ex).
    split; [exact Hx|]. split; [right; right; eauto|]. cbn [val] in *. lia.
  - destruct Hx as (Vx & _), Hp as (Vp & _). cbn [valid_binary] in Vx, Vp.
    destruct (bounded_facts mx ex Vx) as (_ & _ & Hex & _).
    destruct (bounded_facts mp ep Vp) as (_ & _ & Hep & _).
    destruct (bounded_facts mb eb Hb) as (_ & _ & Heb & _).
    destruct (add_finite_val false false mx mp ex ep ltac:(lia) ltac:(lia))
      as (M & ez & E & Hez & HM).
    pose proof (val_finite_pos mx ex ltac:(lia)).
    pose proof (val_finite_pos mp ep ltac:(lia)).
    assert (Hpz : 0 < 2 ^ (ez + 1074)) by (apply Z.pow_pos_nonneg; lia).
    destruct M as [|S|S]; try nia.
    rewrite E. cbn [binary_normalize].
    assert (Hat : atMost (binary_round prec emax false S ez) mb eb).
    { apply (binary_round_le mb S eb ez (-1074)); trivial; try lia.
      replace (ez - -1074) with (ez + 1074) by lia.
      replace (eb - -1074) with (eb + 1074) by lia. lia. }
    destruct (atMost_val _ _ _ Hb Hat) as (Hfin & _ & Hv).
    split; [exact Hfin|]. split; [apply binary_round_signed|exact Hv].
Qed.

Lemma nonneg_finite_val (x : float64) :
  finite x -> signed false x ->
  0 <= val x /\ (val x <= 0 -> x = S754_zero false).
Proof.
  intros (Vx & _ & Ix) [->|[->|(m & e & ->)]]; try discriminate.
  - split; [reflexivity|auto].
  - cbn [valid_binary] in Vx.
    destruct (bounded_facts m e Vx) as (_ & _ & He & _).
    pose proof (val_finite_pos m e ltac:(lia)). split; lia.
Qed.

(** The same with an integer below [2^53] as the bound. *)
Lemma add_nonneg_le_int (x p : float64) (N : Z) :
  finite x -> signed false x -> finite p -> signed false p ->
  0 <= N < 2 ^ 53 -> val x + val p <= N * 2 ^ 1074 ->
  finite (x + p)%f64 /\ signed false (x + p)%f64 /\
  val (x + p)%f64 <= N * 2 ^ 1074.
Proof.
  intros Hx Sx Hp Sp HN Hle.
  destruct (nonneg_finite_val x Hx Sx) as [Hx0 Hxz].
  destruct (nonneg_finite_val p Hp Sp) as [Hp0 Hpz].
  destruct (Z.eq_dec N 0) as [->|Hnz].
  - rewrite (Hxz ltac:(lia)), (Hpz ltac:(lia)).
    split; [repeat split|]. split; [left; reflexivity|reflexivity].
  - destruct (of_int_val N HN) as (Hf & Hs & Hv).
    destruct Hs as [E|[E|(mb & eb & E)]]; rewrite E in *.
    + cbn [val] in Hv. assert (0 < 2 ^ 1074) by (apply Z.pow_pos_nonneg; lia). nia.
    + destruct Hf as (_ & _ & ?); discriminate.
    + destruct Hf as (Vb & _). cbn [valid_binary] in Vb.
      cbn [val cond_Zopp] in Hv. rewrite <- Hv in *.
      apply add_nonneg_bound; assumption.
Qed.

Lemma pathLenTree_depth_le (x : float64) (D : Z) :
  forall t, allNodes (fun n => 0 <= Depth n <= D) t ->
            exists d, 0 <= d <= D /\ pathLenTree t x = of_int d.
Proof.
  fix IH 1. intros [sp [l|] [r|] leaf depth]; cbn [allNodes Left Right Depth];
    intros (Hd & Hl & Hr); cbn [pathLenTree].
  - destruct leaf; [exists depth; auto|].
    destruct (x <? sp)%f64; [apply IH, Hl|apply IH, Hr].
  - destruct leaf; exists depth; auto.
  - destruct leaf; exists depth; auto.
  - destruct leaf; exists depth; auto.
Qed.

(** The sum of the path lengths of [trees] whose depths are at most [D] is
    a finite number of at most [D] times their count. *)
Lemma pathLength_sum_bound (x : float64) (D : Z) (trees : list Tree) :
  0 <= D ->
  Forall (allNodes (fun n => 0 <= Depth n <= D)) trees ->
  forall acc K,
    0 <= K -> finite acc -> signed false acc -> val acc <= K * 2 ^ 1074 ->
    K + D * len trees < 2 ^ 53 ->
    finite (fold_left (fun pl t => pl + pathLenTree t x)%f64 trees acc) /\
    signed false (fold_left (fun pl t => pl + pathLenTree t x)%f64 trees acc) /\
    val (fold_left (fun pl t => pl + pathLenTree t x)%f64 trees acc)
    <= (K + D * len trees) * 2 ^ 1074.
Proof.
  intros HD. induction 1 as [|t trees Ht _ IH]; intros acc K HK Hf Hs Hv Hlt;
    cbn [fold_left].
  - unfold len. cbn [length]. replace (K + D * Z.of_nat 0) with K by lia. auto.
  - unfold len in *. cbn [length] in *. rewrite Nat2Z.inj_succ in *.
    destruct (pathLenTree_depth_le x D t Ht) as (d & Hd & ->).
    destruct (of_int_val d ltac:(nia)) as (Hfd & Hsd & Hvd).
    assert (Hp : 0 < 2 ^ 1074) by (apply Z.pow_pos_nonneg; lia).
    destruct (add_nonneg_le_int acc (of_int d) (K + d) Hf Hs Hfd Hsd ltac:(nia)
                ltac:(rewrite Hvd; lia)) as (Hf' & Hs' & Hv').
    destruct (IH (acc + of_int d)%f64 (K + d) ltac:(lia) Hf' Hs' Hv' ltac:(nia))
      as (H1 & H2 & H3).
    split; [exact H1|]. split; [exact H2|]. nia.
Qed.

(** The depths of the trees grown by [New] lie between 0 and
    [max 0 maxDepth]. *)
Lemma grownFrom_depth_range (data : list float64) (psi maxDepth : Z) (t : Tree) :
  grownFrom data psi maxDepth t ->
  allNodes (fun n => 0 <= Depth n <= Z.max 0 maxDepth) t.
Proof.
  intros (sub & g1 & g2 & _ & _ & Efit).
  eapply allNodes_impl;
    [|eapply (fitTreeFuel_nodes _ _ _ _ _ _ _ 0 (Z.max 0 maxDepth));
      [exact Efit|lia|lia]].
  intros n (Hd & _). exact Hd.
Qed.

Lemma maxDepthOf_le_53 (psi : Z) : psi < 2 ^ 53 -> Z.max 0 (maxDepthOf psi) <= 53.
Proof.
  intros H. unfold maxDepthOf. destruct (psi <=? 0) eqn:E.
  - change (- 2 ^ 63) with (-9223372036854775808). lia.
  - pose proof (Z.log2_up_le_mono psi (2 ^ 53) ltac:(lia)) as Hm.
    rewrite Z.log2_up_pow2 in Hm by lia. lia.
Qed.

Lemma ltb_not_eqb (x y : float64) : (x <? y)%f64 = true -> (y =? x)%f64 = false.
Proof.
  unfold ltb, eqb, SFltb, SFeqb. rewrite (SFcompare_antisym x y).
  destruct (SFcompare x y) as [[]|]; cbn; try discriminate; reflexivity.
Qed.

Lemma ge_one_finitePos (c : float64) :
  finite c -> 2 ^ 1074 <= val c -> finitePosb c = true.
Proof.
  intros (Vc & Nc & Ic) Hc1.
  assert (Hp : 0 < 2 ^ 1074) by (apply Z.pow_pos_nonneg; lia).
  destruct c as [s|s| |[] m e]; try discriminate; try reflexivity;
    cbn [val] in Hc1; try lia.
  cbn [valid_binary] in Vc. destruct (bounded_facts m e Vc) as (_ & _ & He & _).
  pose proof (val_finite_neg m e ltac:(lia)) as Hn. cbn [val] in Hn. lia.
Qed.

(** The mean path length [E] and the exponent [-E/C] of a score, for at
    least one tree, depths of at most 53 and a normalisation constant of at
    least 1: [E] is a finite number that is not negative, and the exponent
    is a zero or a negative number of at least -128. *)
Lemma Score_exponent_range (trees : list Tree) (c x : float64) :
  0 < len trees < 2 ^ 47 ->
  Forall (allNodes (fun n => 0 <= Depth n <= 53)) trees ->
  finite c -> 2 ^ 1074 <= val c ->
  finite (pathLength (mkForest trees c) x) /\
  signed false (pathLength (mkForest trees c) x) /\
  signed true (- pathLength (mkForest trees c) x / c)%f64 /\
  (of_int (-128) <=? - pathLength (mkForest trees c) x / c)%f64 = true.
Proof.
  intros Hlen Hd Hc Hc1.
  assert (Hp : 0 < 2 ^ 1074) by (apply Z.pow_pos_nonneg; lia).
  pose proof (ge_one_finitePos c Hc Hc1) as Pc.
  unfold pathLength. cbn [Trees].
  set (pl := fold_left _ trees zero).
  destruct (pathLength_sum_bound x 53 trees ltac:(lia) Hd zero 0 ltac:(lia)
              ltac:(repeat split) ltac:(left; reflexivity) ltac:(cbn; lia)
              ltac:(change (2 ^ 53) with (64 * 2 ^ 47); lia)) as (Hf & Hs & Hv).
  fold pl in Hf, Hs, Hv.
  destruct (of_int_val (len trees) ltac:(change (2 ^ 53) with (64 * 2 ^ 47); lia))
    as (Hft & _ & Hvt).
  assert (Pt : finitePosb (of_int (len trees)) = true)
    by (apply of_int_finitePos; change (2 ^ 63) with (65536 * 2 ^ 47); lia).
  assert (HE : atMost (pl / of_int (len trees))%f64 4503599627370496 (6 - 52)).
  { apply div_le_pow2; trivial; [lia|]. rewrite Hvt. change (2 ^ 6) with 64. nia. }
  destruct (atMost_val _ 4503599627370496 (6 - 52) eq_refl HE) as (HfE & HE0 & HvE).
  set (E := (pl / of_int (len trees))%f64) in *.
  assert (SE : signed false E).
  { destruct HE as [->|(m3 & e3 & -> & _)]; [left; reflexivity|right; right; eauto]. }
  assert (Hy : atMost (E / c)%f64 4503599627370496 (7 - 52)).
  { apply div_le_pow2; trivial; [lia|].
    change (Zpos 4503599627370496 * 2 ^ (6 - 52 + 1074)) with (64 * 2 ^ 1074) in HvE.
    change (2 ^ 7) with 128. nia. }
  split; [exact HfE|]. split; [exact SE|].
  rewrite div_neg_l by exact Pc. split.
  - destruct Hy as [->|(m3 & e3 & -> & _)];
      [left; reflexivity|right; right; exists m3, e3; reflexivity].
  - change (of_int (-128)) with (- S754_finite false 4503599627370496 (7 - 52))%f64.
    rewrite leb_opp. apply atMost_leb. exact Hy.
Qed.

(** ** The normalisation constant is at least 1 *)

(** Doubling a normal number below the largest exponent is exact. *)
Lemma mul_two_exact (m : positive) (e : Z) :
  bounded prec emax m e = true -> -1074 < e < 971 ->
  (two * S754_finite false m e)%f64 = S754_finite false m (e + 1) /\
  bounded prec emax m (e + 1) = true.
Proof.
  intros Hb He. destruct (bounded_facts m e Hb) as (_ & _ & _ & Hn).
  destruct (Hn ltac:(lia)) as [HD _].
  assert (Hb' : bounded prec emax m (e + 1) = true).
  { apply bounded_intro; [|lia]. rewrite HD. unfold fexp, emin, prec, emax. lia. }
  split; [|exact Hb'].
  unfold mul, SFmul, two. cbn [xorb].
  change (4503599627370496 * m)%positive with (shift_pos 52 m).
  replace (-51 + e) with (e + 1 - 52) by lia.
  apply (binary_round_aux_exact_shifted false 52 m (e + 1) Hb').
Qed.

(** Doubling a number between 1 and [2^53] doubles its value. *)
Lemma mul_two_val (x : float64) (N : Z) :
  finite x -> 2 ^ 1074 <= val x <= N * 2 ^ 1074 -> N <= 2 ^ 53 ->
  finite (two * x)%f64 /\ finitePosb (two * x)%f64 = true /\
  val (two * x)%f64 = 2 * val x.
Proof.
  intros (Vx & Nx & Ix) [Hlo Hhi] HN.
  assert (Hp : 0 < 2 ^ 1074) by (apply Z.pow_pos_nonneg; lia).
  destruct x as [s|s| |s m e]; try discriminate; cbn [val] in Hlo; try lia.
  cbn [valid_binary] in Vx.
  destruct (bounded_facts m e Vx) as (_ & Hm & He & Hn).
  destruct s.
  { pose proof (val_finite_neg m e ltac:(lia)) as H. cbn [val] in H. lia. }
  cbn [val cond_Zopp] in *.
  assert (He1 : -1074 < e).
  { destruct (Z.eq_dec e (-1074)) as [->|]; [|lia].
    change (2 ^ (-1074 + 1074)) with 1 in Hlo.
    pose proof (Z.pow_le_mono_r 2 53 1074 ltac:(lia) ltac:(lia)). lia. }
  destruct (Hn He1) as [_ Hmlo].
  assert (He2 : e <= 1).
  { destruct (Z_le_gt_dec e 1) as [|Hgt]; [assumption|]. exfalso.
    pose proof (Z.pow_le_mono_r 2 (2 + 1074) (e + 1074) ltac:(lia) ltac:(lia)) as H.
    rewrite (Z.pow_add_r 2 2) in H by lia. change (2 ^ 2) with 4 in H.
    assert (H1 : 2 ^ 52 * (4 * 2 ^ 1074) <= Zpos m * 2 ^ (e + 1074))
      by (apply Z.mul_le_mono_nonneg; lia).
    assert (H2 : N * 2 ^ 1074 <= 2 ^ 53 * 2 ^ 1074)
      by (apply Z.mul_le_mono_nonneg_r; lia).
    change (2 ^ 53) with (2 * 2 ^ 52) in H2. nia. }
  destruct (mul_two_exact m e Vx ltac:(lia)) as [-> Hb'].
  split; [repeat split; exact Hb'|]. split; [reflexivity|].
  cbn [val cond_Zopp].
  replace (e + 1 + 1074) with (1 + (e + 1074)) by lia.
  rewrite (Z.pow_add_r 2 1) by lia. change (2 ^ 1) with 2. ring.
Qed.

(** The terms of the harmonic sum from the second on are at most 1. *)
Lemma harmonic_term (i : Z) :
  2 <= i < 2 ^ 53 ->
  finite (one / of_int i)%f64 /\ signed false (one / of_int i)%f64 /\
  val (one / of_int i)%f64 <= 2 ^ 1074.
Proof.
  intros Hi. destruct (of_int_val i ltac:(lia)) as (Hf & _ & Hv).
  assert (Pi : finitePosb (of_int i) = true)
    by (apply of_int_finitePos; change (2 ^ 63) with (1024 * 2 ^ 53); lia).
  assert (Hp : 0 < 2 ^ 1074) by (apply Z.pow_pos_nonneg; lia).
  assert (H : atMost (one / of_int i)%f64 4503599627370496 (0 - 52)).
  { apply div_le_pow2; trivial; [repeat split|right; right; unfold one; eauto|lia|].
    rewrite Hv. change (val one) with (2 ^ 1074). change (2 ^ 0) with 1. nia. }
  destruct (atMost_val _ 4503599627370496 (0 - 52) eq_refl H) as (Hfp & _ & Hvp).
  split; [exact Hfp|]. split; [|exact Hvp].
  destruct H as [->|(m3 & e3 & -> & _)]; [left; reflexivity|right; right; eauto].
Qed.

(** The harmonic loop keeps its accumulator finite, does not decrease it
    and adds at most 1 by iteration. *)
Lemma harmonicLoop_bounds (k : nat) :
  forall i h N,
    2 <= i -> i + Z.of_nat k <= 2 ^ 53 -> 0 <= N -> N + Z.of_nat k < 2 ^ 53 ->
    finite h -> signed false h -> val h <= N * 2 ^ 1074 ->
    finite (harmonicLoop k i h) /\ signed false (harmonicLoop k i h) /\
    val h <= val (harmonicLoop k i h) <= (N + Z.of_nat k) * 2 ^ 1074.
Proof.
  induction k as [|k IH]; intros i h N Hi Hik HN HNk Hf Hs Hv; cbn [harmonicLoop].
  - replace (N + Z.of_nat 0) with N by lia.
    split; [exact Hf|]. split; [exact Hs|]. split; [lia|exact Hv].
  - rewrite Nat2Z.inj_succ in *.
    destruct (harmonic_term i ltac:(lia)) as (Hfp & Hsp & Hvp).
    assert (Hp : 0 < 2 ^ 1074) by (apply Z.pow_pos_nonneg; lia).
    destruct (add_nonneg_le_int h (one / of_int i)%f64 (N + 1) Hf Hs Hfp Hsp
                ltac:(lia) ltac:(lia)) as (Hf' & Hs' & Hv').
    pose proof (leb_val _ _ Hf Hf' (add_nonneg_ge h _ Hf (or_intror Hsp))) as Hge.
    destruct (IH (i + 1) (h + one / of_int i)%f64 (N + 1) ltac:(lia) ltac:(lia)
                ltac:(lia) ltac:(lia) Hf' Hs' Hv') as (H1 & H2 & H3).
    split; [exact H1|]. split; [exact H2|]. lia.
Qed.

(** A difference of at least 1 between a positive number and a
    non-negative one rounds to a representable number of at least 1. *)
Lemma sub_ge_one (a q : float64) :
  finite a -> finitePosb a = true -> finite q -> signed false q ->
  2 ^ 1074 <= val a - val q ->
  finite (a - q)%f64 /\ 2 ^ 1074 <= val (a - q)%f64.
Proof.
  intros Ha Pa Hq Sq Hd.
  destruct a as [sa|sa| |[] ma ea]; try discriminate.
  destruct Sq as [->|[->|(mq & eq & ->)]];
    try (destruct Hq as (_ & _ & ?); discriminate).
  - change (S754_finite false ma ea - S754_zero false)%f64 with (S754_finite false ma ea).
    split; [exact Ha|]. cbn [val] in *. lia.
  - destruct Ha as (Va & _), Hq as (Vq & _). cbn [valid_binary] in Va, Vq.
    destruct (bounded_facts ma ea Va) as (_ & _ & Hea & _).
    destruct (bounded_facts mq eq Vq) as (_ & _ & Heq & _).
    destruct (sub_finite_val false false ma mq ea eq ltac:(lia) ltac:(lia))
      as (M & ez & E & Hez & HM).
    pose proof (val_finite_pos mq eq ltac:(lia)) as Hqpos.
    assert (Hp : 0 < 2 ^ 1074) by (apply Z.pow_pos_nonneg; lia).
    assert (Hpz : 0 < 2 ^ (ez + 1074)) by (apply Z.pow_pos_nonneg; lia).
    destruct M as [|S|S]; try nia.
    rewrite E. cbn [binary_normalize].
    assert (Hat : atMost (binary_round prec emax false S ez) ma ea).
    { apply (binary_round_le ma S ea ez (-1074)); trivial; try lia.
      replace (ez - -1074) with (ez + 1074) by lia.
      replace (ea - -1074) with (ea + 1074) by lia.
      cbn [val cond_Zopp] in HM. lia. }
    destruct (atMost_val _ _ _ Va Hat) as (Hfin & _ & _).
    split; [exact Hfin|].
    change (2 ^ 1074) with (val one) at 1.
    apply leb_val; [repeat split|exact Hfin|].
    apply (binary_round_ge 4503599627370496 S (-52) ez (-1074)); try reflexivity; try lia.
    replace (ez - -1074) with (ez + 1074) by lia.
    change (Zpos 4503599627370496 * 2 ^ (-52 - -1074)) with (2 ^ 1074). lia.
Qed.

Lemma averagePathLength_ge_one_all (n : Z) :
  2 <= n < 2 ^ 53 ->
  finite (averagePathLength n) /\ 2 ^ 1074 <= val (averagePathLength n).
Proof.
  intros Hn. destruct (Z.eq_dec n 2) as [->|Hne].
  { split; [repeat split|]. vm_compute. discriminate. }
  unfold averagePathLength.
  replace (n <=? 1) with false by (symmetry; apply Z.leb_gt; lia).
  cbv zeta.
  assert (Hp : 0 < 2 ^ 1074) by (apply Z.pow_pos_nonneg; lia).
  (* the harmonic sum *)
  replace (Z.to_nat (n - 1)) with (S (S (Z.to_nat (n - 3)))) by lia.
  cbn [harmonicLoop]. change (1 + 1 + 1) with 3.
  set (h2 := (zero + one / of_int 1 + one / of_int (1 + 1))%f64).
  assert (Eh2 : finite h2 /\ signed false h2 /\ val h2 = 3 * 2 ^ 1073).
  { split; [repeat split|]. split; [right; right; vm_compute; eauto|].
    vm_compute. reflexivity. }
  destruct Eh2 as (Hf2 & Hs2 & Hv2).
  assert (E73 : 2 ^ 1074 = 2 * 2 ^ 1073)
    by (change 1074 with (1 + 1073); rewrite Z.pow_add_r by lia; reflexivity).
  destruct (harmonicLoop_bounds (Z.to_nat (n - 3)) 3 h2 2 ltac:(lia)
              ltac:(rewrite Z2Nat.id by lia; lia) ltac:(lia)
              ltac:(rewrite Z2Nat.id by lia; lia) Hf2 Hs2 ltac:(lia))
    as (Hfh & Hsh & Hvh).
  set (h := harmonicLoop (Z.to_nat (n - 3)) 3 h2) in *.
  rewrite Z2Nat.id in Hvh by lia.
  destruct (mul_two_val h (2 + (n - 3)) Hfh ltac:(lia) ltac:(lia))
    as (Hf2h & P2h & Hv2h).
  (* the ratio *)
  destruct (of_int_val (n - 1) ltac:(lia)) as (Hfm & _ & Hvm).
  destruct (of_int_val n ltac:(lia)) as (Hfn & _ & Hvn).
  assert (Pn : finitePosb (of_int n) = true)
    by (apply of_int_finitePos; change (2 ^ 63) with (1024 * 2 ^ 53); lia).
  destruct (mul_two_val (of_int (n - 1)) (n - 1) Hfm ltac:(nia) ltac:(lia))
    as (Hfa & Pa & Hva).
  set (a := (two * of_int (n - 1))%f64) in *.
  assert (Hq : atMost (a / of_int n)%f64 4503599627370496 (1 - 52)).
  { apply div_le_pow2; trivial; [|lia|].
    - destruct a as [s|s| |[] m e]; try discriminate. right; right; eauto.
    - rewrite Hva, Hvm, Hvn. change (2 ^ 1) with 2. nia. }
  destruct (atMost_val _ 4503599627370496 (1 - 52) eq_refl Hq) as (Hfq & _ & Hvq).
  change (Zpos 4503599627370496 * 2 ^ (1 - 52 + 1074)) with (2 * 2 ^ 1074) in Hvq.
  assert (Sq : signed false (a / of_int n)%f64).
  { destruct Hq as [->|(m3 & e3 & -> & _)]; [left; reflexivity|right; right; eauto]. }
  apply sub_ge_one; trivial. lia.
Qed.

(** ** The score *)

Section ScoreContract.

Variable Pow : float64 -> float64 -> float64.

(** [math.Pow(2, y)] lies in (0, 1] for every [y] that is a zero or a
    negative number of at least -1022: [2^y] is then at most 1 and at least
    the least positive normal number. *)
Hypothesis Pow_unit_pos :
  forall y, signed true y -> (of_int (-1022) <=? y)%f64 = true ->
    (zero <? Pow two y)%f64 = true /\ (Pow two y <=? one)%f64 = true.

(** C5. For every forest [New] builds with at least one tree (the program
    asks for 100) every score lies in [0, 1].  The score is 0 exactly when
    the normalisation constant [C] is 0, that is when the clamped subsample
    size is at most 1; otherwise it is [math.Pow(2, -pathLength/C)], which
    is strictly positive: every descent ends at a leaf of non-negative
    depth, so that the mean path length is a finite number that is not
    negative, [C] is at least 1 and the exponent is at least -128.  The
    bounds [t < 2^47] and [len data < 2^53] hold for every forest and every
    slice that fit in memory; below them the sum of the depths and the
    conversions [float64(n)] are exact. *)
Theorem Score_contract :
  forall data t psi g f g' x,
    New data t psi g = Ok (f, g') ->
    1 <= t < 2 ^ 47 -> len data < 2 ^ 53 ->
    (zero <=? Score Pow f x)%f64 = true /\
    (Score Pow f x <=? one)%f64 = true /\
    C f = averagePathLength (clampPsi data psi) /\
    ((C f =? zero)%f64 = true <-> clampPsi data psi <= 1) /\
    ((Score Pow f x =? zero)%f64 = true <-> clampPsi data psi <= 1) /\
    (clampPsi data psi <= 1 -> Score Pow f x = zero) /\
    (2 <= clampPsi data psi ->
     Score Pow f x = Pow two (- pathLength f x / C f)%f64 /\
     (zero <? Score Pow f x)%f64 = true) /\
    finite (pathLength f x) /\ signed false (pathLength f x).
Proof.
  intros data t psi g f g' x E Ht Hlen.
  destruct (New_spec data t psi g ltac:(lia)) as (trees & g1 & E' & Hl & Hall).
  rewrite E' in E. inversion E; subst f g'. clear E. cbn [C].
  set (n := clampPsi data psi) in *.
  destruct (clampPsi_range data psi) as [Hn _]. fold n in Hn.
  assert (Hd : Forall (allNodes (fun k => 0 <= Depth k <= 53)) trees).
  { eapply Forall_impl; [|exact Hall]. intros tr Htr.
    apply grownFrom_depth_range in Htr.
    pose proof (maxDepthOf_le_53 n ltac:(lia)) as Hm.
    eapply allNodes_impl; [|exact Htr]. cbv beta. intros k Hk. lia. }
  assert (Hlt : 0 < len trees < 2 ^ 47) by (unfold len; lia).
  assert (HE : finite (pathLength (mkForest trees (averagePathLength n)) x) /\
               signed false (pathLength (mkForest trees (averagePathLength n)) x)).
  { destruct (Score_exponent_range trees one x Hlt Hd ltac:(repeat split)
                ltac:(vm_compute; discriminate)) as (H1 & H2 & _).
    split; [exact H1|exact H2]. }
  destruct (Z_le_gt_dec n 1) as [Hle|Hgt].
  - assert (EC : averagePathLength n = zero) by (apply averagePathLength_le1; exact Hle).
    assert (ES : Score Pow (mkForest trees (averagePathLength n)) x = zero).
    { unfold Score. cbn [C]. rewrite EC. reflexivity. }
    rewrite ES, EC.
    split; [reflexivity|]. split; [reflexivity|]. split; [reflexivity|].
    split; [tauto|]. split; [tauto|]. split; [reflexivity|].
    split; [intros; lia|exact HE].
  - destruct (averagePathLength_ge_one_all n ltac:(lia)) as [Hc Hc1].
    destruct (Score_exponent_range trees (averagePathLength n) x Hlt Hd Hc Hc1)
      as (_ & _ & Hy & Hy128).
    pose proof (ge_one_finitePos _ Hc Hc1) as Pc.
    destruct (finitePosb_nonzero _ Pc) as [Hnz _].
    assert (ES : Score Pow (mkForest trees (averagePathLength n)) x
                 = Pow two (- pathLength (mkForest trees (averagePathLength n)) x
                            / averagePathLength n)%f64).
    { unfold Score. cbn [C]. rewrite Hnz. reflexivity. }
    assert (Hlow : (of_int (-1022) <=? of_int (-128))%f64 = true)
      by (vm_compute; reflexivity).
    destruct (Pow_unit_pos _ Hy (leb_trans _ _ _ Hlow Hy128)) as [Hpos Hle1].
    rewrite <- ES in Hpos, Hle1.
    split; [apply ltb_leb; exact Hpos|]. split; [exact Hle1|].
    split; [reflexivity|].
    split; [split; [rewrite Hnz; discriminate|lia]|].
    split; [split; [rewrite (ltb_not_eqb _ _ Hpos); discriminate|lia]|].
    split; [intros; lia|].
    split; [intros _; split; [exact ES|exact Hpos]|exact HE].
Qed.

End ScoreContract.

Lemma PowRef_unit_pos :
  forall y, signed true y -> (of_int (-1022) <=? y)%f64 = true ->
    (zero <? PowRef two y)%f64 = true /\ (PowRef two y <=? one)%f64 = true.
Proof.
  intros y [->|[->|(m & e & ->)]] Hy; try discriminate; split; reflexivity.
Qed.

Lemma Score_contract_witness :
  exists f g',
    New [zero; one; two] 2 3 (constRand Const.c0_5) = Ok (f, g') /\
    (zero <? Score PowRef f Const.c3_5)%f64 = true /\
    (Score PowRef f Const.c3_5 <=? one)%f64 = true.
Proof.
  destruct (New [zero; one; two] 2 3 (constRand Const.c0_5)) as [[f g']| |] eqn:E;
    [|vm_compute in E; discriminate..].
  exists f, g'. split; [reflexivity|].
  destruct (Score_contract PowRef PowRef_unit_pos [zero; one; two] 2 3
              (constRand Const.c0_5) f g' Const.c3_5 E
              ltac:(split; [lia|reflexivity]) ltac:(reflexivity))
    as (_ & H2 & _ & _ & _ & _ & H7 & _).
  split; [apply H7; vm_compute; discriminate|exact H2].
Defined.
